(** * GadgetsAndThose: the conversational recommendation engine

    A shallow embedding of the retrieval, turn-handling and voice-playback
    code of the repository:

    - [src/netlify/functions/gemini.ts]: [cosineSimilarity], the embedding
      ranking and the [handler] of the server function;
    - [src/types.ts]: the chat component that talks to the model directly
      ([findRelevantProducts], [processAiResponse], [handleTextSubmit],
      [startVoiceSession]);
    - [src/components/ChatInterface.tsx]: the chat component that goes
      through the server function;
    - [src/App.tsx]: the loading of the catalog;
    - [src/constants.ts]: [getSystemInstruction];
    - [src/unnamed/part_000]: the server function that relays a request.

    JavaScript numbers are IEEE 754 binary64 values and are modelled by the
    primitive floats of the standard library; keyword scores are small
    integers and are modelled in [Z]; strings are sequences of UTF-16 code
    units. *)

From Stdlib Require Import String Ascii DecimalString.
From Stdlib Require Import ZArith List Bool Lia Floats.
From Stdlib Require Import Sorting.Sorted Sorting.Permutation.
Import ListNotations.

Set Implicit Arguments.

(* ================================================================== *)
(** * JavaScript values used by the code *)
(* ================================================================== *)

Module JS.

(** A string is its sequence of UTF-16 code units. *)
Definition jsstring := list Z.

(** A string literal of the source, written in ASCII. *)
Definition lit (s : string) : jsstring :=
  map (fun c => Z.of_N (N_of_ascii c)) (list_ascii_of_string s).

Fixpoint str_eqb (a b : jsstring) : bool :=
  match a, b with
  | [], [] => true
  | x :: a', y :: b' => (x =? y)%Z && str_eqb a' b'
  | _, _ => false
  end.

(** Truthiness of a string: every string but the empty one. *)
Definition truthy (s : jsstring) : bool :=
  match s with [] => false | _ :: _ => true end.

(** [s.length] *)
Definition str_length (s : jsstring) : Z := Z.of_nat (length s).

(** The code units matched by the class [\s] of a regular expression, which
    are also the ones removed by [trim]: WhiteSpace and LineTerminator. *)
Definition is_space (c : Z) : bool :=
  ((9 <=? c) && (c <=? 13) || (c =? 32) || (c =? 160) || (c =? 5760)
   || (8192 <=? c) && (c <=? 8202) || (c =? 8232) || (c =? 8233)
   || (c =? 8239) || (c =? 8287) || (c =? 12288) || (c =? 65279))%Z.

(** [s.split(/\s+/)]: the pieces between the maximal runs of white space.
    [cur] is the piece being read, reversed; [in_run] tells that the previous
    code unit was white space. A string that begins (ends) with white space
    yields an empty first (last) piece, and the empty string yields [[""]]. *)
Fixpoint split_ws_from (s : jsstring) (cur : jsstring) (in_run : bool)
  : list jsstring :=
  match s with
  | [] => [rev cur]
  | c :: s' =>
      if is_space c
      then if in_run then split_ws_from s' [] true
           else rev cur :: split_ws_from s' [] true
      else split_ws_from s' (c :: cur) false
  end.

Definition split_ws (s : jsstring) : list jsstring := split_ws_from s [] false.

Fixpoint starts_with (s w : jsstring) : bool :=
  match w, s with
  | [], _ => true
  | _ :: _, [] => false
  | x :: w', y :: s' => (x =? y)%Z && starts_with s' w'
  end.

(** [s.includes(w)] *)
Fixpoint includes (s w : jsstring) : bool :=
  starts_with s w ||
  match s with
  | [] => false
  | _ :: s' => includes s' w
  end.

(** [l.join(sep)] *)
Fixpoint join (sep : jsstring) (l : list jsstring) : jsstring :=
  match l with
  | [] => []
  | [x] => x
  | x :: rest => x ++ sep ++ join sep rest
  end.

(** [s.trim()] *)
Fixpoint trim_start (s : jsstring) : jsstring :=
  match s with
  | [] => []
  | c :: s' => if is_space c then trim_start s' else s
  end.

Definition trim (s : jsstring) : jsstring :=
  rev (trim_start (rev (trim_start s))).

(** ** Case conversion

    [String.prototype.toLowerCase] follows the Unicode default case
    conversion. The functions of the catalog search take it as a parameter;
    [toLowerCase_latin] is that conversion on the Basic Latin, Latin-1
    Supplement and Latin Extended-A blocks (UnicodeData.txt, and
    SpecialCasing.txt for U+0130, whose lower case is the two code units
    U+0069 U+0307). It is used to run the code on strings of these blocks. *)
Definition lower_unit (c : Z) : jsstring :=
  (if (65 <=? c) && (c <=? 90) then [c + 32]
   else if (192 <=? c) && (c <=? 222) && negb (c =? 215) then [c + 32]
   else if c =? 304 then [105; 775]
   else if c =? 376 then [255]
   else if (256 <=? c) && (c <=? 311) || (330 <=? c) && (c <=? 375)
        then (if Z.even c then [c + 1] else [c])
   else if (313 <=? c) && (c <=? 328) || (377 <=? c) && (c <=? 382)
        then (if Z.odd c then [c + 1] else [c])
   else [c])%Z.

Definition toLowerCase_latin (s : jsstring) : jsstring :=
  flat_map lower_unit s.

(** ** Objects used as tables

    An object with string keys and number values is the list of its own
    properties in creation order. *)
Definition table := list (jsstring * Z).

Fixpoint table_get (o : table) (k : jsstring) : option Z :=
  match o with
  | [] => None
  | (k', v) :: o' => if str_eqb k' k then Some v else table_get o' k
  end.

Fixpoint table_update (o : table) (k : jsstring) (v : Z) : table :=
  match o with
  | [] => [(k, v)]
  | (k', v') :: o' =>
      if str_eqb k' k then (k', v) :: o' else (k', v') :: table_update o' k v
  end.

(** [o[k] = v] on an object created by [{}]: an existing property keeps its
    place, a new one is created last. The key ["__proto__"] reaches the
    setter inherited from [Object.prototype], which ignores a number and
    creates no property. *)
Definition table_set (o : table) (k : jsstring) (v : Z) : table :=
  if str_eqb k (lit "__proto__") then o else table_update o k v.

Definition is_digit (c : Z) : bool := ((48 <=? c) && (c <=? 57))%Z.

Definition digits_value (s : jsstring) : Z :=
  fold_left (fun acc c => acc * 10 + (c - 48))%Z s 0%Z.

(** An array index is a key that is the decimal writing, without leading
    zeros, of an integer between 0 and 2^32 - 2. *)
Definition array_index (k : jsstring) : option Z :=
  match k with
  | [] => None
  | c :: rest =>
      if forallb is_digit k
         && (negb (c =? 48)%Z || match rest with [] => true | _ => false end)
         && (digits_value k <=? 4294967294)%Z
      then Some (digits_value k)
      else None
  end.

Fixpoint insert_index (k : jsstring) (n : Z) (l : list (jsstring * Z))
  : list (jsstring * Z) :=
  match l with
  | [] => [(k, n)]
  | (k', n') :: l' =>
      if (n <? n')%Z then (k, n) :: l else (k', n') :: insert_index k n l'
  end.

Definition index_keys (o : table) : list (jsstring * Z) :=
  fold_right
    (fun kv acc =>
       match array_index (fst kv) with
       | Some n => insert_index (fst kv) n acc
       | None => acc
       end) [] o.

Definition is_array_index (k : jsstring) : bool :=
  match array_index k with Some _ => true | None => false end.

(** A key that an object keeps in creation order. *)
Definition plain_id (k : jsstring) : Prop :=
  is_array_index k = false /\ k <> lit "__proto__".

(** [Object.keys(o)]: the array indices in ascending numeric order, then the
    other keys in creation order. *)
Definition Object_keys (o : table) : list jsstring :=
  map fst (index_keys o)
  ++ filter (fun k => negb (is_array_index k)) (map fst o).

(** ** [Array.prototype.sort]

    The comparator's number is read by its sign ([NaN] counts as zero):
    [Lt] puts the first argument first, [Gt] the second, [Eq] keeps the
    order of the array. The sort is stable; with a consistent comparator
    every stable sort returns the same array, here by insertion from the
    right. An inconsistent comparator leaves the order to the engine. *)
Section Sort.
Variable A : Type.
Variable cmp : A -> A -> comparison.

Fixpoint sort_insert (x : A) (l : list A) : list A :=
  match l with
  | [] => [x]
  | y :: l' =>
      match cmp x y with
      | Gt => y :: sort_insert x l'
      | _ => x :: l
      end
  end.

Definition Array_sort (l : list A) : list A := fold_right sort_insert [] l.
End Sort.

(** The sign of an integer-valued comparator result. *)
Definition sign_Z (z : Z) : comparison := (z ?= 0)%Z.

(** The comparator [(a, b) => score(b) - score(a)], and the lists in which
    no element has a higher score than one before it. *)
Definition descending (A : Type) (score : A -> Z) (a b : A) : comparison :=
  sign_Z (score b - score a).

Definition sorted_desc (A : Type) (score : A -> Z) : list A -> Prop :=
  StronglySorted (fun a b => (score b <= score a)%Z).

(** [Math.max(x, y)]: [NaN] when an argument is [NaN]; else the larger one,
    where [+0] is larger than [-0]. *)
Definition Math_max (x y : float) : float :=
  if PrimFloat.is_nan x || PrimFloat.is_nan y then PrimFloat.nan
  else if PrimFloat.ltb x y then y
  else if PrimFloat.ltb y x then x
  else if PrimFloat.get_sign x then y else x.

(** A number that is not [NaN]. *)
Definition number (x : float) : Prop := PrimFloat.is_nan x = false.

(** Non-negative numbers: zeros of both signs, positive finite numbers and
    positive infinity. *)
Definition nonneg (x : float) : Prop := PrimFloat.leb 0%float x = true.

Definition SFnonneg (x : spec_float) : Prop :=
  match x with
  | S754_zero _ => True
  | S754_infinity s | S754_finite s _ _ => s = false
  | S754_nan => False
  end.

(** The sign of a number, as the comparisons with zero see it. *)
Definition SFsign (x : spec_float) : comparison :=
  match x with
  | S754_infinity s | S754_finite s _ _ => if s then Lt else Gt
  | _ => Eq
  end.

(** [l.slice(0, n)] *)
Definition slice0 (A : Type) (n : nat) (l : list A) : list A := firstn n l.

End JS.

Import JS.

(* ================================================================== *)
(** * [src/types.ts]: the data model *)
(* ================================================================== *)

(** [price] is a JavaScript number. *)
Record Product := {
  id : jsstring;
  name : jsstring;
  category : jsstring;
  description : jsstring;
  price : float;
  imageUrl : jsstring;
  affiliateUrl : jsstring;
  features : list jsstring
}.

Inductive ChatMode := text | voice.

Inductive Role := user | assistant.

(** A [Message] as the chat component stores it: the fields of the interface
    and the optional [recommendation] and [reason] of the component's state
    type. *)
Record Message := {
  msg_id : jsstring;
  role : Role;
  content : jsstring;
  timestamp : Z;
  recommendation : option Product;
  reason : option jsstring
}.

(** [allProducts.find(p => p.id === id)] *)
Definition find_product (allProducts : list Product) (i : jsstring)
  : option Product :=
  find (fun p => str_eqb (id p) i) allProducts.

(* ================================================================== *)
(** * [src/types.ts]: the keyword search of the chat component *)
(* ================================================================== *)

Section KeywordSearch.

Variable toLowerCase : jsstring -> jsstring.

(** [query.toLowerCase().split(/\s+/).filter(w => w.length > 2)] *)
Definition queryWords (query : jsstring) : list jsstring :=
  filter (fun w => (2 <? str_length w)%Z) (split_ws (toLowerCase query)).

(** The body of the inner [forEach]: what one word adds to the score. *)
Definition add_word (product : Product) (score : Z) (word : jsstring) : Z :=
  let score :=
    if includes (toLowerCase (name product)) word
    then (score + 5)%Z else score in
  let score :=
    if includes (toLowerCase (category product)) word
    then (score + 3)%Z else score in
  let score :=
    if includes (toLowerCase (join (lit " ") (features product))) word
    then (score + 2)%Z else score in
  if includes (toLowerCase (description product)) word
  then (score + 1)%Z else score.

Definition product_score (words : list jsstring) (product : Product) : Z :=
  fold_left (add_word product) words 0%Z.

(** The body of the outer [forEach]: a product with a positive score is
    entered in the table under its id. *)
Definition add_product (words : list jsstring) (scores : table)
           (product : Product) : table :=
  let score := product_score words product in
  if (0 <? score)%Z then table_set scores (id product) score else scores.

Definition score_table (words : list jsstring) (allProducts : list Product)
  : table :=
  fold_left (add_product words) allProducts [].

(** [scores[k]], read where [k] is one of the keys of [scores]. *)
Definition score_of (scores : table) (k : jsstring) : Z :=
  match table_get scores k with Some v => v | None => 0%Z end.

(** [Object.keys(scores).sort((a, b) => scores[b] - scores[a])] *)
Definition sortedProductIds (scores : table) : list jsstring :=
  Array_sort (descending (score_of scores)) (Object_keys scores).

Fixpoint keep_defined (A : Type) (l : list (option A)) : list A :=
  match l with
  | [] => []
  | Some x :: l' => x :: keep_defined l'
  | None :: l' => keep_defined l'
  end.

Definition findRelevantProducts (query : jsstring)
           (allProducts : list Product) : list Product :=
  let words := queryWords query in
  match words with
  | [] => []
  | _ :: _ =>
      let scores := score_table words allProducts in
      keep_defined
        (map (find_product allProducts)
             (slice0 3 (sortedProductIds scores)))
  end.

(** The prompt sent to the model in [handleTextSubmit]: the user's message,
    preceded by the listing of the relevant products when there are any. *)
Definition product_line (p : Product) : jsstring :=
  lit "- ID: " ++ id p ++ lit ", Name: " ++ name p
  ++ lit ", Desc: " ++ description p.

Definition newline : jsstring := [10%Z].

Definition augmentedUserMessage (userMsg : jsstring)
           (products : list Product) : jsstring :=
  let relevantProducts := findRelevantProducts userMsg products in
  match relevantProducts with
  | [] => userMsg
  | _ :: _ =>
      let productContext := join newline (map product_line relevantProducts) in
      lit "Based on my query, I found these potentially relevant products in your catalog:"
      ++ newline ++ productContext ++ newline ++ newline
      ++ lit "Please consider this context when answering my query: "
      ++ [34%Z] ++ userMsg ++ [34%Z]
  end.

End KeywordSearch.

(* ================================================================== *)
(** * [src/netlify/functions/gemini.ts]: the server function *)
(* ================================================================== *)

Module Gemini.

Local Open Scope float_scope.

(** [l.reduce((acc, val, i) => f(acc, val, i), init)] *)
Fixpoint reduce_from (A B : Type) (f : B -> A -> nat -> B) (l : list A)
         (i : nat) (acc : B) : B :=
  match l with
  | [] => acc
  | val :: l' => reduce_from f l' (S i) (f acc val i)
  end.

Definition reduce (A B : Type) (f : B -> A -> nat -> B) (l : list A)
           (init : B) : B :=
  reduce_from f l 0 init.

(** [v[i]] as an operand of arithmetic: past the end of the array it is
    [undefined], which converts to [NaN]. *)
Definition at_index (v : list float) (i : nat) : float := nth i v nan.

Definition dotProduct (vecA vecB : list float) : float :=
  reduce (fun acc val i => acc + val * at_index vecB i) vecA 0.

Definition mag (vec : list float) : float :=
  sqrt (reduce (fun acc val _ => acc + val * val) vec 0).

Definition cosineSimilarity (vecA vecB : list float) : float :=
  let dotProduct := dotProduct vecA vecB in
  let magA := mag vecA in
  let magB := mag vecB in
  if (magA =? 0) || (magB =? 0) then 0
  else dotProduct / (magA * magB).

(** The words of the specification: the dot product is the sum of the
    products of the paired components, the magnitude is the square root of
    the sum of the squares, both summed from the first component on. *)
Definition dot_spec (a b : list float) : float :=
  fold_left (fun acc xy => acc + fst xy * snd xy) (combine a b) 0.

Definition magnitude_spec (v : list float) : float :=
  sqrt (fold_left (fun acc x => acc + x * x) v 0).

(** ** Ranking *)

(** A product with the [similarity] field added by the handler; the field
    is [undefined] when the reply holds fewer embeddings than products. *)
Record Scored := {
  product : Product;
  similarity : option float
}.

(** The number read from [similarity] by the subtraction. *)
Definition to_number (s : option float) : float :=
  match s with Some x => x | None => nan end.

(** The sign of a comparator result; [NaN] counts as zero. *)
Definition sign_float (x : float) : comparison :=
  if x <? 0 then Lt else if 0 <? x then Gt else Eq.

(** [(a, b) => b.similarity - a.similarity] *)
Definition by_similarity (a b : Scored) : comparison :=
  sign_float (to_number (similarity b) - to_number (similarity a)).

Definition topK : nat := 3.

(** The similarity as a number, and the lists in which each similarity is
    at most the one before it. *)
Definition sim (a : Scored) : float := to_number (similarity a).

Definition sorted_by_similarity : list Scored -> Prop :=
  Sorted (fun a b => (sim b <=? sim a) = true).

(** [l.map((x, i) => f(x, i))] *)
Fixpoint mapi_from (A B : Type) (f : A -> nat -> B) (l : list A) (i : nat)
  : list B :=
  match l with
  | [] => []
  | x :: l' => f x i :: mapi_from f l' (S i)
  end.

Definition mapi (A B : Type) (f : A -> nat -> B) (l : list A) : list B :=
  mapi_from f l 0.

(** Step 4 of the handler: from the products and the embeddings of the
    prompt and of the product documents to the relevant products. The
    similarities are only computed when there is a product embedding, and
    then the query embedding [embeddings[0]] exists. *)
Definition productsWithSimilarity (products : list Product)
           (embeddings : list (list float)) : list Scored :=
  let queryEmbedding := nth 0 embeddings [] in
  let productEmbeddings := skipn 1 embeddings in
  let similarities :=
    map (fun prodEmb => cosineSimilarity queryEmbedding prodEmb)
        productEmbeddings in
  mapi (fun p i => {| product := p; similarity := nth_error similarities i |})
       products.

Definition relevantProducts (products : list Product)
           (embeddings : list (list float)) : list Scored :=
  let sorted :=
    Array_sort by_similarity (productsWithSimilarity products embeddings) in
  slice0 topK sorted.

(** ** The handler *)

(** The reply of the chat model, as far as the client reads it:
    [data.candidates?.[0]?.content?.parts?.[0]?.text]. *)
Record Part := { part_text : option jsstring }.
Record Content := { parts : option (list Part) }.
Record Candidate := { cand_content : option Content }.
Record GenerateContentResponse := { candidates : option (list Candidate) }.

Record HandlerEvent := {
  httpMethod : jsstring;
  (** [JSON.parse(event.body || "{}")]: the message of the exception when
      the body is not JSON, else the [prompt] property, [None] when it is
      absent. *)
  parsed_body : jsstring + option jsstring
}.

Inductive ResponseBody :=
| ErrorBody (error : jsstring)
| ResultBody (chatResult : GenerateContentResponse).

Record HandlerResponse := {
  statusCode : Z;
  body : ResponseBody
}.

(** What a [fetch] of the handler comes to: the promise rejects, or the
    server answers with a status other than 2xx, or with a result. *)
Inductive Reply (A : Type) :=
| Rejected (message : jsstring)
| NotOk (statusText : jsstring)
| Answer (result : A).
Arguments Rejected {A}.
Arguments NotOk {A}.

(** The collaborators of one invocation. *)
Record World := {
  GEMINI_API_KEY : option jsstring;
  (** [fs.readFile] and [JSON.parse] of [products.json]; the message of
      the exception when one of them throws. *)
  products_file : jsstring + list Product;
  embedding_api : list jsstring -> Reply (list (list float));
  chat_api : jsstring -> Reply GenerateContentResponse
}.

(** The calls that leave the function, in order. *)
Inductive Call :=
| ReadProducts
| FetchEmbeddings (texts : list jsstring)
| FetchChat (prompt : jsstring)
| LogError.

(** A computation that may throw, with the calls made so far. *)
Inductive Outcome (A : Type) :=
| Returned (a : A)
| Thrown (message : jsstring).
Arguments Thrown {A}.

Definition M (A : Type) : Type := list Call -> Outcome A * list Call.

Definition ret (A : Type) (a : A) : M A := fun calls => (Returned a, calls).

Definition throw (A : Type) (message : jsstring) : M A :=
  fun calls => (Thrown message, calls).
Arguments throw {A} message.

Definition bind (A B : Type) (m : M A) (k : A -> M B) : M B :=
  fun calls =>
    match m calls with
    | (Returned a, calls') => k a calls'
    | (Thrown message, calls') => (Thrown message, calls')
    end.

Definition call (c : Call) : M unit := fun calls => (Returned tt, calls ++ [c]).

(** [try { m } catch (error) { h(error.message) }] *)
Definition try_catch (A : Type) (m : M A) (h : jsstring -> M A) : M A :=
  fun calls =>
    match m calls with
    | (Returned a, calls') => (Returned a, calls')
    | (Thrown message, calls') => h message calls'
    end.

Notation "x <- m ;; k" := (bind m (fun x => k))
  (at level 61, m at next level, right associativity).
Notation "m ;;; k" := (bind m (fun _ => k))
  (at level 61, right associativity).

(** The call has failed. *)
Definition failed (A : Type) (r : Reply A) : Prop :=
  match r with Answer _ => False | _ => True end.

Definition is_chat_call (c : Call) : bool :=
  match c with FetchChat _ => true | _ => false end.

Section Handler.

(** The conversion of a number to a string in a template literal. *)
Variable number_toString : float -> jsstring.
Variable world : World.

Definition getEmbeddings (texts : list jsstring) : M (list (list float)) :=
  call (FetchEmbeddings texts) ;;;
  match embedding_api world texts with
  | Rejected message => throw message
  | NotOk statusText =>
      call LogError ;;;
      throw (lit "Failed to get embeddings: " ++ statusText)
  | Answer embeddings => ret embeddings
  end.

Definition productDoc (p : Product) : jsstring :=
  lit "Product: " ++ name p ++ lit ". Description: " ++ description p
  ++ lit ". Features: " ++ join (lit ", ") (features p) ++ lit ".".

Definition context_line (p : Scored) : jsstring :=
  lit "- " ++ name (product p) ++ lit " ($"
  ++ number_toString (price (product p)) ++ lit "): "
  ++ description (product p).

Definition augmentedPrompt (prompt : jsstring) (relevant : list Scored)
  : jsstring :=
  let productContext := join [10%Z] (map context_line relevant) in
  lit "You are a helpful and enthusiastic AI assistant for "
  ++ [34%Z] ++ lit "Gadgets and Those," ++ [34%Z]
  ++ lit " an online tech store. Your goal is to help users discover the perfect gadgets for their needs."
  ++ [10%Z; 10%Z]
  ++ lit "Based on the user's query, here are some products from our catalog that seem like a good fit:"
  ++ [10%Z] ++ productContext ++ [10%Z; 10%Z]
  ++ lit "Now, answer the user's query conversationally. If the products are a good match, explain why. If they aren't a great match, you can say so and ask for more details."
  ++ [10%Z] ++ lit "User's query: " ++ [34%Z] ++ prompt ++ [34%Z].

Definition respond (status : Z) (b : ResponseBody) : M HandlerResponse :=
  ret {| statusCode := status; body := b |}.

(** The body of the [try] block. *)
Definition handler_try (event : HandlerEvent) : M HandlerResponse :=
  match parsed_body event with
  | inl message => throw message
  | inr prompt =>
      match prompt with
      | None | Some [] =>
          respond 400 (ErrorBody (lit "Prompt is required"))
      | Some prompt =>
          call ReadProducts ;;;
          products <- match products_file world with
                      | inl message => throw message
                      | inr products => ret products
                      end ;;
          let productDocs := map productDoc products in
          let allTexts := prompt :: productDocs in
          embeddings <- getEmbeddings allTexts ;;
          let relevant := relevantProducts products embeddings in
          let augmented := augmentedPrompt prompt relevant in
          call (FetchChat augmented) ;;;
          match chat_api world augmented with
          | Rejected message => throw message
          | NotOk statusText =>
              call LogError ;;;
              throw (lit "Failed to get chat response: " ++ statusText)
          | Answer chatResult => respond 200 (ResultBody chatResult)
          end
      end
  end.

Definition handler (event : HandlerEvent) : M HandlerResponse :=
  if negb (str_eqb (httpMethod event) (lit "POST"))
  then respond 405 (ErrorBody (lit "Method Not Allowed"))
  else
    match GEMINI_API_KEY world with
    | None | Some [] =>
        respond 500 (ErrorBody (lit "API key not configured"))
    | Some _ =>
        try_catch (handler_try event)
          (fun message =>
             call LogError ;;;
             respond 500
               (ErrorBody (if truthy message then message
                           else lit "Internal server error")))
    end.

(** One invocation: the response and the calls made. The handler catches
    every exception, so a response there always is. *)
Definition invoke (event : HandlerEvent) : Outcome HandlerResponse * list Call :=
  handler event [].

End Handler.

End Gemini.

(* ================================================================== *)
(** * The chat component: state shared by its two versions *)
(* ================================================================== *)

(** What the component does to the page and to its collaborators. *)
Inductive Effect :=
| Alert (notice : jsstring)
| ConsoleError
| StreamGranted (stream : nat)           (* [getUserMedia] resolved *)
| ContextCreated (ctx : nat)             (* [new AudioContext] *)
| ContextClosed (ctx : nat)
| SessionClosed (session : nat)
| SourceStarted (source : nat) (when duration : float)
| SourceStopped (source : nat)
| ToolResponseSent (call_id : jsstring)
| MessageSent (prompt : jsstring).       (* [sendMessage] or [fetch] *)

(** The state of one mounted [ChatInterface]: the [useState] cells, the
    [useRef] cells, and the effects so far. Every handler runs on the state
    of the latest render, and updates apply in the order they are queued.
    The version of [src/components/ChatInterface.tsx] has the five
    [useState] cells and the two voice refs only; the other refs keep their
    initial value there. *)
Record State := {
  (* useState *)
  mode : ChatMode;
  messages : list Message;
  inputText : jsstring;
  isTyping : bool;
  isVoiceActive : bool;
  (* useRef *)
  chatSessionRef : bool;                   (* holds a chat, or null *)
  audioContextRef : option (nat * nat);    (* input and output context *)
  voiceSessionRef : option nat;
  nextStartTimeRef : float;
  audioSourcesRef : list nat;
  (* the page *)
  effects : list Effect;
  fresh : nat                              (* identity of the next resource *)
}.

Definition initial : State :=
  {| mode := text; messages := []; inputText := []; isTyping := false;
     isVoiceActive := false; chatSessionRef := false;
     audioContextRef := None; voiceSessionRef := None;
     nextStartTimeRef := 0%float; audioSourcesRef := [];
     effects := []; fresh := 0 |}.

Definition setMode (m : ChatMode) (s : State) : State :=
  {| mode := m; messages := messages s; inputText := inputText s;
     isTyping := isTyping s; isVoiceActive := isVoiceActive s;
     chatSessionRef := chatSessionRef s;
     audioContextRef := audioContextRef s;
     voiceSessionRef := voiceSessionRef s;
     nextStartTimeRef := nextStartTimeRef s;
     audioSourcesRef := audioSourcesRef s; effects := effects s;
     fresh := fresh s |}.

Definition setMessages (f : list Message -> list Message) (s : State) : State :=
  {| mode := mode s; messages := f (messages s); inputText := inputText s;
     isTyping := isTyping s; isVoiceActive := isVoiceActive s;
     chatSessionRef := chatSessionRef s;
     audioContextRef := audioContextRef s;
     voiceSessionRef := voiceSessionRef s;
     nextStartTimeRef := nextStartTimeRef s;
     audioSourcesRef := audioSourcesRef s; effects := effects s;
     fresh := fresh s |}.

Definition setInputText (t : jsstring) (s : State) : State :=
  {| mode := mode s; messages := messages s; inputText := t;
     isTyping := isTyping s; isVoiceActive := isVoiceActive s;
     chatSessionRef := chatSessionRef s;
     audioContextRef := audioContextRef s;
     voiceSessionRef := voiceSessionRef s;
     nextStartTimeRef := nextStartTimeRef s;
     audioSourcesRef := audioSourcesRef s; effects := effects s;
     fresh := fresh s |}.

Definition setIsTyping (b : bool) (s : State) : State :=
  {| mode := mode s; messages := messages s; inputText := inputText s;
     isTyping := b; isVoiceActive := isVoiceActive s;
     chatSessionRef := chatSessionRef s;
     audioContextRef := audioContextRef s;
     voiceSessionRef := voiceSessionRef s;
     nextStartTimeRef := nextStartTimeRef s;
     audioSourcesRef := audioSourcesRef s; effects := effects s;
     fresh := fresh s |}.

Definition setIsVoiceActive (b : bool) (s : State) : State :=
  {| mode := mode s; messages := messages s; inputText := inputText s;
     isTyping := isTyping s; isVoiceActive := b;
     chatSessionRef := chatSessionRef s;
     audioContextRef := audioContextRef s;
     voiceSessionRef := voiceSessionRef s;
     nextStartTimeRef := nextStartTimeRef s;
     audioSourcesRef := audioSourcesRef s; effects := effects s;
     fresh := fresh s |}.

Definition set_chatSessionRef (b : bool) (s : State) : State :=
  {| mode := mode s; messages := messages s; inputText := inputText s;
     isTyping := isTyping s; isVoiceActive := isVoiceActive s;
     chatSessionRef := b; audioContextRef := audioContextRef s;
     voiceSessionRef := voiceSessionRef s;
     nextStartTimeRef := nextStartTimeRef s;
     audioSourcesRef := audioSourcesRef s; effects := effects s;
     fresh := fresh s |}.

Definition set_audioContextRef (c : option (nat * nat)) (s : State) : State :=
  {| mode := mode s; messages := messages s; inputText := inputText s;
     isTyping := isTyping s; isVoiceActive := isVoiceActive s;
     chatSessionRef := chatSessionRef s; audioContextRef := c;
     voiceSessionRef := voiceSessionRef s;
     nextStartTimeRef := nextStartTimeRef s;
     audioSourcesRef := audioSourcesRef s; effects := effects s;
     fresh := fresh s |}.

Definition set_voiceSessionRef (v : option nat) (s : State) : State :=
  {| mode := mode s; messages := messages s; inputText := inputText s;
     isTyping := isTyping s; isVoiceActive := isVoiceActive s;
     chatSessionRef := chatSessionRef s;
     audioContextRef := audioContextRef s; voiceSessionRef := v;
     nextStartTimeRef := nextStartTimeRef s;
     audioSourcesRef := audioSourcesRef s; effects := effects s;
     fresh := fresh s |}.

Definition set_nextStartTimeRef (t : float) (s : State) : State :=
  {| mode := mode s; messages := messages s; inputText := inputText s;
     isTyping := isTyping s; isVoiceActive := isVoiceActive s;
     chatSessionRef := chatSessionRef s;
     audioContextRef := audioContextRef s;
     voiceSessionRef := voiceSessionRef s; nextStartTimeRef := t;
     audioSourcesRef := audioSourcesRef s; effects := effects s;
     fresh := fresh s |}.

Definition set_audioSourcesRef (l : list nat) (s : State) : State :=
  {| mode := mode s; messages := messages s; inputText := inputText s;
     isTyping := isTyping s; isVoiceActive := isVoiceActive s;
     chatSessionRef := chatSessionRef s;
     audioContextRef := audioContextRef s;
     voiceSessionRef := voiceSessionRef s;
     nextStartTimeRef := nextStartTimeRef s; audioSourcesRef := l;
     effects := effects s; fresh := fresh s |}.

(** The component performs [e]. *)
Definition effect (e : Effect) (s : State) : State :=
  {| mode := mode s; messages := messages s; inputText := inputText s;
     isTyping := isTyping s; isVoiceActive := isVoiceActive s;
     chatSessionRef := chatSessionRef s;
     audioContextRef := audioContextRef s;
     voiceSessionRef := voiceSessionRef s;
     nextStartTimeRef := nextStartTimeRef s;
     audioSourcesRef := audioSourcesRef s; effects := effects s ++ [e];
     fresh := fresh s |}.

Definition next_fresh (s : State) : State :=
  {| mode := mode s; messages := messages s; inputText := inputText s;
     isTyping := isTyping s; isVoiceActive := isVoiceActive s;
     chatSessionRef := chatSessionRef s;
     audioContextRef := audioContextRef s;
     voiceSessionRef := voiceSessionRef s;
     nextStartTimeRef := nextStartTimeRef s;
     audioSourcesRef := audioSourcesRef s; effects := effects s;
     fresh := S (fresh s) |}.

(** [Date.now().toString()] *)
Definition now_toString (now : Z) : jsstring :=
  lit (NilZero.string_of_int (Z.to_int now)).

(** [addMessage(role, content, recommendation, reason)], with the reading
    of the clock. *)
Definition addMessage (now : Z) (r : Role) (c : jsstring)
           (rec : option Product) (why : option jsstring) (s : State) : State :=
  setMessages
    (fun prev =>
       prev ++ [{| msg_id := now_toString now; role := r; content := c;
                   timestamp := now; recommendation := rec; reason := why |}])
    s.

(** The reply to a failed turn, and the greeting that replaces a failed
    first call. *)
Definition fallback_text : jsstring :=
  lit "I hit a snag in the comms. What was that again?".

Definition greeting_fallback_text : jsstring :=
  lit "Hey! Gadget Scout here. What are we optimizing today?".

Definition user_message (now : Z) (c : jsstring) : Message :=
  {| msg_id := now_toString now; role := user; content := c;
     timestamp := now; recommendation := None; reason := None |}.

Definition fallback_message (now : Z) : Message :=
  {| msg_id := now_toString now; role := assistant;
     content := fallback_text; timestamp := now;
     recommendation := None; reason := None |}.

(** The notices shown to the user. *)
Definition alerts (s : State) : list jsstring :=
  flat_map (fun e => match e with Alert n => [n] | _ => [] end) (effects s).

(** The audio contexts created and not closed, the microphone streams
    granted (the component never stops one). *)
Definition closed_context (s : State) (c : nat) : bool :=
  existsb (fun e => match e with ContextClosed c' => Nat.eqb c c' | _ => false end)
          (effects s).

Definition openContexts (s : State) : list nat :=
  flat_map (fun e => match e with
                     | ContextCreated c => if closed_context s c then [] else [c]
                     | _ => []
                     end) (effects s).

Definition liveStreams (s : State) : list nat :=
  flat_map (fun e => match e with StreamGranted m => [m] | _ => [] end)
           (effects s).

(** The calls of [source.start]: source, start time, duration. *)
Definition started (s : State) : list (nat * float * float) :=
  flat_map (fun e => match e with
                     | SourceStarted src w d => [(src, w, d)]
                     | _ => []
                     end) (effects s).

(** A start of voice mode that failed cleanly: the mode is [text]
    afterwards, a notice has been shown, and the refs and resources of
    voice mode are as before. *)
Definition reverted_with_notice (before after : State) : Prop :=
  mode after = text
  /\ alerts after <> alerts before
  /\ isVoiceActive after = isVoiceActive before
  /\ voiceSessionRef after = voiceSessionRef before
  /\ audioContextRef after = audioContextRef before
  /\ openContexts after = openContexts before
  /\ liveStreams after = liveStreams before.

Definition is_source_start (e : Effect) : bool :=
  match e with SourceStarted _ _ _ => true | _ => false end.

Definition is_context_event (e : Effect) : bool :=
  match e with ContextCreated _ | ContextClosed _ => true | _ => false end.

(* ================================================================== *)
(** * [src/types.ts]: the chat component that calls the model itself *)
(* ================================================================== *)

Module Direct.

(** The arguments of a function call are untyped in the source ([any]):
    the object may be missing, and so may each property. *)
Record Args := {
  productId : option jsstring;
  reasoning : option jsstring
}.

Record FunctionCall := {
  call_id : jsstring;
  call_name : jsstring;
  call_args : option Args
}.

(** The response of [chat.sendMessage], as far as the component reads it. *)
Record ModelResponse := {
  resp_text : option jsstring;
  functionCalls : option (list FunctionCall)
}.

(** How an awaited model call settles. *)
Inductive Settled :=
| Resolved (response : ModelResponse)
| RejectedCall.

(** A message of the live session, as far as [onmessage] reads it:
    [toolCall.functionCalls], the data of the first part of the model turn,
    and [serverContent.interrupted]. *)
Record LiveServerMessage := {
  toolCall : option (list FunctionCall);
  audioData : option jsstring;
  interrupted : bool
}.

(** How [startVoiceSession] goes: [getUserMedia] rejects, or the stream is
    granted and [ai.live.connect] rejects, or both succeed. *)
Inductive VoiceStart := MicDenied | ConnectFailed | Connected.

Section Component.

Variable toLowerCase : jsstring -> jsstring.
(** The [products] prop. *)
Variable products : list Product.

Definition recommend_product : jsstring := lit "recommend_product".

(** [products.find(p => p.id === args.productId)] *)
Definition resolve (args : Args) : option Product :=
  match productId args with
  | Some i => find_product products i
  | None => None
  end.

Definition is_some (A : Type) (o : option A) : bool :=
  match o with Some _ => true | None => false end.

(** [processAiResponse(response)]; [None] when it throws, which it does
    on a [recommend_product] call without arguments. *)
Definition processAiResponse (now : Z) (response : ModelResponse)
           (s : State) : option State :=
  let found :=
    match functionCalls response with
    | Some (call :: _) =>
        if str_eqb (call_name call) recommend_product
        then match call_args call with
             | Some args => Some (resolve args, reasoning args)
             | None => None
             end
        else Some (None, None)
    | _ => Some (None, None)
    end in
  match found with
  | None => None
  | Some (recommendation, reason) =>
      let text := match resp_text response with Some t => t | None => [] end in
      if truthy text || is_some recommendation
      then Some (addMessage now assistant text recommendation reason s)
      else Some s
  end.

(** A call that, if it is a [recommend_product] call, carries arguments
    whose [productId] names no product of the catalog. *)
Definition unresolved (fc : FunctionCall) : Prop :=
  str_eqb (call_name fc) recommend_product = true ->
  exists args,
    call_args fc = Some args /\ resolve args = None.

(** The reply text read by [processAiResponse]. *)
Definition reply_text (response : ModelResponse) : jsstring :=
  match resp_text response with Some t => t | None => [] end.

(** The [catch] and [finally] blocks of [handleTextSubmit]. *)
Definition submit_catch (now : Z) (s : State) : State :=
  addMessage now assistant fallback_text None None (effect ConsoleError s).

Definition submit_finally (s : State) : State := setIsTyping false s.

(** [handleTextSubmit] up to its [await]: the new state and the prompt of
    the model call now in flight, if there is one. [created] tells whether
    creating the chat session, when it is still missing, succeeds. *)
Definition handleTextSubmit (now : Z) (created : bool) (s : State)
  : State * option jsstring :=
  if negb (truthy (trim (inputText s))) || isTyping s then (s, None)
  else
    let userMsg := trim (inputText s) in
    let s := setInputText [] s in
    let s := addMessage now user userMsg None None s in
    let s := setIsTyping true s in
    if negb (chatSessionRef s) && negb created
    then (submit_finally (submit_catch now s), None)
    else
      let s := if chatSessionRef s then s else set_chatSessionRef true s in
      let augmented := augmentedUserMessage toLowerCase userMsg products in
      (effect (MessageSent augmented) s, Some augmented).

(** [handleTextSubmit] from its [await] on. *)
Definition handleTextSubmit_settle (now : Z) (o : Settled) (s : State)
  : State :=
  let s :=
    match o with
    | Resolved response =>
        match processAiResponse now response s with
        | Some s' => s'
        | None => submit_catch now s
        end
    | RejectedCall => submit_catch now s
    end in
  submit_finally s.

(** The greeting: the effect on [products], up to the [await] of
    [initChat] and from it on. Creating the chat session happens outside
    the [try]: when it throws nothing else is done. *)
Definition greeting_prompt : jsstring :=
  lit "Initiate discovery mode. Greet the user with the Deal of the Day and a scout-like welcome. Mention that you have "
  ++ now_toString (Z.of_nat (length products))
  ++ lit " gadgets ready to discover.".

Definition products_effect (created : bool) (s : State)
  : State * option jsstring :=
  match messages s, products with
  | [], _ :: _ =>
      if created
      then
        let s := set_chatSessionRef true s in
        let s := setIsTyping true s in
        (effect (MessageSent greeting_prompt) s, Some greeting_prompt)
      else (s, None)
  | _, _ => (s, None)
  end.

Definition initChat_settle (now : Z) (o : Settled) (s : State) : State :=
  let s :=
    match o with
    | Resolved response =>
        match processAiResponse now response s with
        | Some s' => s'
        | None => addMessage now assistant greeting_fallback_text None None s
        end
    | RejectedCall =>
        addMessage now assistant greeting_fallback_text None None s
    end in
  setIsTyping false s.

(** ** Voice mode *)

Definition new_resource (mk : nat -> Effect) (s : State) : nat * State :=
  (fresh s, effect (mk (fresh s)) (next_fresh s)).

(** [startVoiceSession], whole: the awaits of [getUserMedia] and of the
    session are taken with their results. *)
Definition startVoiceSession (o : VoiceStart) (s : State) : State :=
  match o with
  | MicDenied => setMode text (effect ConsoleError s)
  | _ =>
      let (stream, s) := new_resource StreamGranted s in
      let (inputCtx, s) := new_resource ContextCreated s in
      let (outputCtx, s) := new_resource ContextCreated s in
      let s := set_audioContextRef (Some (inputCtx, outputCtx)) s in
      match o with
      | ConnectFailed => setMode text (effect ConsoleError s)
      | _ =>
          let s := set_voiceSessionRef (Some (fresh s)) (next_fresh s) in
          setIsVoiceActive true s
      end
  end.

Definition stopVoiceSession (s : State) : State :=
  let s := match voiceSessionRef s with
           | Some v => effect (SessionClosed v) s
           | None => s
           end in
  let s := match audioContextRef s with
           | Some (i, o) => effect (ContextClosed o) (effect (ContextClosed i) s)
           | None => s
           end in
  setIsVoiceActive false s.

Definition toggleMode (o : VoiceStart) (s : State) : State :=
  match mode s with
  | text => startVoiceSession o (setMode voice s)
  | voice => setMode text (stopVoiceSession s)
  end.

(** The loop over [message.toolCall.functionCalls]; the flag is false
    when a call without arguments made it throw. *)
Fixpoint tool_calls (now : Z) (fcs : list FunctionCall) (s : State)
  : State * bool :=
  match fcs with
  | [] => (s, true)
  | fc :: rest =>
      if str_eqb (call_name fc) recommend_product
      then match call_args fc with
           | None => (s, false)
           | Some args =>
               let text := match reasoning args with
                           | Some r => r
                           | None => []
                           end in
               let s := match resolve args with
                        | Some prod =>
                            addMessage now assistant text (Some prod)
                                       (reasoning args) s
                        | None => s
                        end in
               tool_calls now rest (effect (ToolResponseSent (call_id fc)) s)
           end
      else tool_calls now rest s
  end.

(** [if (message.serverContent?.interrupted) ...] *)
Definition on_interrupted (message : LiveServerMessage) (s : State) : State :=
  if interrupted message
  then
    let s := fold_left (fun s src => effect (SourceStopped src) s)
                       (audioSourcesRef s) s in
    set_nextStartTimeRef 0%float (set_audioSourcesRef [] s)
  else s.

(** [onmessage] up to the [await] of [decodeAudioData]; [currentTime] is
    the clock of the output context. The flag tells that the call is
    suspended on the decoding. *)
Definition onmessage (now : Z) (currentTime : float)
           (message : LiveServerMessage) (s : State) : State * bool :=
  let (s, completed) :=
    match toolCall message with
    | Some fcs => tool_calls now fcs s
    | None => (s, true)
    end in
  if completed
  then
    match audioData message with
    | Some (_ :: _) =>
        match audioContextRef s with
        | Some _ =>
            (set_nextStartTimeRef
               (Math_max (nextStartTimeRef s) currentTime) s, true)
        | None => (s, false)
        end
    | _ => (on_interrupted message s, false)
    end
  else (s, false).

(** [onmessage] from the [await] on; [duration] is [buffer.duration] of
    the decoded segment. *)
Definition onmessage_decoded (duration : float)
           (message : LiveServerMessage) (s : State) : State :=
  let source := fresh s in
  let s := next_fresh s in
  let s := effect (SourceStarted source (nextStartTimeRef s) duration) s in
  let s := set_nextStartTimeRef (nextStartTimeRef s + duration)%float s in
  let s := set_audioSourcesRef (audioSourcesRef s ++ [source]) s in
  on_interrupted message s.

(** [source.onended] *)
Definition onended (source : nat) (s : State) : State :=
  set_audioSourcesRef
    (filter (fun x => negb (Nat.eqb x source)) (audioSourcesRef s)) s.

End Component.

End Direct.

(* ================================================================== *)
(** * [src/components/ChatInterface.tsx]: the chat component that calls
      the server function *)
(* ================================================================== *)

Module Proxy.

Import Gemini.

(** How the [fetch] of the server function and the reading of its body go:
    the promise rejects, or a response arrives with its [ok] flag and its
    body, [None] when [response.json()] throws or yields [null]. *)
Inductive Fetched :=
| FetchRejected
| FetchResponse (ok : bool) (data : option GenerateContentResponse).

(** [data.candidates?.[0]?.content?.parts?.[0]?.text || ""] *)
Definition response_text (data : GenerateContentResponse) : jsstring :=
  match candidates data with
  | Some (c :: _) =>
      match cand_content c with
      | Some ct =>
          match parts ct with
          | Some (p :: _) =>
              match part_text p with Some t => t | None => [] end
          | _ => []
          end
      | None => []
      end
  | _ => []
  end.

(** What the browser hands to the component for a response of the handler:
    [ok] for a status from 200 to 299; an error body is an object without
    candidates. *)
Definition fetched_from (r : HandlerResponse) : Fetched :=
  FetchResponse
    ((200 <=? statusCode r)%Z && (statusCode r <=? 299)%Z)
    (match body r with
     | ResultBody chatResult => Some chatResult
     | ErrorBody _ => Some {| candidates := None |}
     end).

(** The call fails: the [fetch] rejects, or the status is not 2xx, or the
    body cannot be read. *)
Definition call_failed (r : Fetched) : bool :=
  match r with
  | FetchResponse true (Some _) => false
  | _ => true
  end.

Section Component.

(** The [products] prop. *)
Variable products : list Product.

(** [handleTextSubmit] up to its first [await]: the new state and the
    prompt posted to the server function, if there is one. *)
Definition handleTextSubmit (now : Z) (s : State)
  : State * option jsstring :=
  if negb (truthy (trim (inputText s))) || isTyping s then (s, None)
  else
    let userMsg := trim (inputText s) in
    let s := setInputText [] s in
    let s := addMessage now user userMsg None None s in
    let s := setIsTyping true s in
    (effect (MessageSent userMsg) s, Some userMsg).

(** [handleTextSubmit] from its [await]s on. *)
Definition handleTextSubmit_settle (now : Z) (r : Fetched) (s : State)
  : State :=
  let s :=
    match r with
    | FetchResponse true (Some data) =>
        addMessage now assistant (response_text data) None None s
    | _ =>
        addMessage now assistant fallback_text None None
                   (effect ConsoleError s)
    end in
  setIsTyping false s.

Definition greeting_prompt : jsstring :=
  lit "Initiate discovery mode. Greet the user with the Deal of the Day and a scout-like welcome. Mention that you have "
  ++ now_toString (Z.of_nat (length products))
  ++ lit " gadgets ready to discover.".

(** The effect on [products], up to the [await] of [initChat]. *)
Definition products_effect (s : State) : State * option jsstring :=
  match messages s, products with
  | [], _ :: _ =>
      let s := setIsTyping true s in
      (effect (MessageSent greeting_prompt) s, Some greeting_prompt)
  | _, _ => (s, None)
  end.

Definition initChat_settle (now : Z) (r : Fetched) (s : State) : State :=
  let s :=
    match r with
    | FetchResponse true (Some data) =>
        addMessage now assistant (response_text data) None None s
    | _ => addMessage now assistant greeting_fallback_text None None s
    end in
  setIsTyping false s.

Definition voice_notice : jsstring :=
  lit "Voice Discovery is currently undergoing a security update. Please use Text Discovery for now!".

Definition startVoiceSession (s : State) : State :=
  setMode text (effect (Alert voice_notice) s).

Definition stopVoiceSession (s : State) : State :=
  let s := match voiceSessionRef s with
           | Some v => effect (SessionClosed v) s
           | None => s
           end in
  let s := match audioContextRef s with
           | Some (i, o) => effect (ContextClosed o) (effect (ContextClosed i) s)
           | None => s
           end in
  setIsVoiceActive false s.

Definition toggleMode (s : State) : State :=
  match mode s with
  | text => startVoiceSession s
  | voice => setMode text (stopVoiceSession s)
  end.

End Component.

End Proxy.

(* ================================================================== *)
(** * One mounted chat component and the calls it has in flight *)
(* ================================================================== *)

Module Session.

(** A call in flight: the greeting of [initChat], or a user's turn. *)
Inductive InFlight := Greeting | Turn.

(** The component, its [products] prop ([None] until the page has loaded
    the catalog, and the prop is the empty array till then), and the model
    calls awaited. *)
Record System := {
  ui : State;
  catalog : option (list Product);
  inflight : list InFlight
}.

Definition products_of (c : option (list Product)) : list Product :=
  match c with Some ps => ps | None => [] end.

Section Machine.

(** How a model call settles, and the handlers that are no part of a text
    turn (the voice controls). *)
Variable Reply : Type.
Variable Other : Type.

(** The handlers of one version of the component. [created] tells whether
    a chat session can be created. *)
Variable submit : list Product -> Z -> bool -> State -> State * option jsstring.
Variable settle_turn : list Product -> Z -> Reply -> State -> State.
Variable greet : list Product -> bool -> State -> State * option jsstring.
Variable settle_greeting : list Product -> Z -> Reply -> State -> State.
Variable other : list Product -> Other -> State -> State.

Inductive Event :=
| Typed (t : jsstring)                     (* [onChange] of the input *)
| Submitted (now : Z) (created : bool)     (* [onSubmit] of the form *)
| Settles (now : Z) (r : Reply)            (* the awaited call settles *)
| CatalogLoaded (ps : list Product) (created : bool)
| Elsewhere (o : Other).

Definition begun (q : option jsstring) (c : InFlight) : list InFlight :=
  match q with Some _ => [c] | None => [] end.

Definition step (e : Event) (sys : System) : System :=
  let ps := products_of (catalog sys) in
  match e with
  | Typed t =>
      {| ui := setInputText t (ui sys); catalog := catalog sys;
         inflight := inflight sys |}
  | Submitted now created =>
      let (s, q) := submit ps now created (ui sys) in
      {| ui := s; catalog := catalog sys;
         inflight := inflight sys ++ begun q Turn |}
  | Settles now r =>
      match inflight sys with
      | [] => sys
      | Greeting :: rest =>
          {| ui := settle_greeting ps now r (ui sys);
             catalog := catalog sys; inflight := rest |}
      | Turn :: rest =>
          {| ui := settle_turn ps now r (ui sys);
             catalog := catalog sys; inflight := rest |}
      end
  | CatalogLoaded ps' created =>
      match catalog sys with
      | Some _ => sys
      | None =>
          let (s, q) := greet ps' created (ui sys) in
          {| ui := s; catalog := Some ps';
             inflight := inflight sys ++ begun q Greeting |}
      end
  | Elsewhere o =>
      {| ui := other ps o (ui sys); catalog := catalog sys;
         inflight := inflight sys |}
  end.

(** The component right after it is mounted: the effect on [products] has
    run once. *)
Definition mounted (c : option (list Product)) (created : bool) : System :=
  let (s, q) := greet (products_of c) created initial in
  {| ui := s; catalog := c; inflight := begun q Greeting |}.

Definition run (events : list Event) (sys : System) : System :=
  fold_left (fun sys e => step e sys) events sys.

End Machine.

(** The busy flag agrees with the calls in flight: none and the flag is
    down, or one and the flag is up; a greeting is only in flight once the
    catalog is loaded, a turn only after its user message is appended. *)
Definition consistent (sys : System) : Prop :=
  (isTyping (ui sys) = false /\ inflight sys = [])
  \/ (isTyping (ui sys) = true /\ inflight sys = [Greeting]
      /\ catalog sys <> None)
  \/ (isTyping (ui sys) = true /\ inflight sys = [Turn]
      /\ messages (ui sys) <> []).

(** ** The two versions *)

(** The voice controls of the version of [src/types.ts]. *)
Inductive DirectOther :=
| Toggled (o : Direct.VoiceStart)
| LiveMessage (now : Z) (currentTime : float) (m : Direct.LiveServerMessage)
| Decoded (duration : float) (m : Direct.LiveServerMessage)
| Ended (source : nat)
| LiveClosed.

Definition direct_other (ps : list Product) (o : DirectOther) (s : State)
  : State :=
  match o with
  | Toggled v => Direct.toggleMode v s
  | LiveMessage now currentTime m => fst (Direct.onmessage ps now currentTime m s)
  | Decoded duration m => Direct.onmessage_decoded duration m s
  | Ended source => Direct.onended source s
  | LiveClosed => setIsVoiceActive false s
  end.

Definition direct_step (toLowerCase : jsstring -> jsstring) :=
  step (Direct.handleTextSubmit toLowerCase)
       (fun ps => Direct.handleTextSubmit_settle ps)
       (fun ps => Direct.products_effect ps)
       (fun ps => Direct.initChat_settle ps)
       direct_other.

Definition direct_mounted (c : option (list Product)) (created : bool) : System :=
  mounted (fun ps => Direct.products_effect ps) c created.

Definition direct_run (toLowerCase : jsstring -> jsstring)
           (events : list (Event Direct.Settled DirectOther)) (sys : System)
  : System :=
  fold_left (fun sys e => direct_step toLowerCase e sys) events sys.

(** The version of [src/components/ChatInterface.tsx]; its only other
    control is the mode button. *)
Definition proxy_step :=
  step (fun _ now (_ : bool) => Proxy.handleTextSubmit now)
       (fun _ => Proxy.handleTextSubmit_settle)
       (fun ps (_ : bool) => Proxy.products_effect ps)
       (fun _ => Proxy.initChat_settle)
       (fun _ (_ : unit) => Proxy.toggleMode).

Definition proxy_mounted (c : option (list Product)) : System :=
  mounted (fun ps (_ : bool) => Proxy.products_effect ps) c true.

Definition proxy_run (events : list (Event Proxy.Fetched unit)) (sys : System)
  : System :=
  fold_left (fun sys e => proxy_step e sys) events sys.

End Session.

(* ================================================================== *)
(** * Sample data *)
(* ================================================================== *)

Module Samples.

Import Gemini.
Local Open Scope Z_scope.

(** Sample products. *)
Definition mk_product (i n c d : jsstring) (f : list jsstring) : Product :=
  {| id := i; name := n; category := c; description := d; price := 129%float;
     imageUrl := []; affiliateUrl := []; features := f |}.

Definition mic_2 : Product :=
  mk_product (lit "2") (lit "Nexus Pro Mic-Set") (lit "audio")
             (lit "cardioid desk set") [lit "usb"].
Definition mic_1 : Product :=
  mk_product (lit "1") (lit "Studio Mic Arm") (lit "audio")
             (lit "boom arm") [lit "steel"].

(** A Turkish catalog entry and a two-letter query: [U+0130 U+015F]. *)
Definition is_masasi : Product :=
  mk_product (lit "desk-1") [304; 351; 32; 77; 97; 115; 97; 115; 305]
             (lit "mobilya") (lit "ahsap") [lit "usb"].

Definition is_query : jsstring := [304; 351].

(** A request and a world in which the embedding service is down and the
    chat model would answer. Every sample price is 129. *)
Definition sample_price_text (x : float) : jsstring := lit "129".

Definition post_event : HandlerEvent :=
  {| httpMethod := lit "POST";
     parsed_body := inr (Some (lit "a mic for podcasts")) |}.

Definition sample_answer : GenerateContentResponse :=
  {| candidates :=
       Some [{| cand_content :=
                  Some {| parts := Some [{| part_text := Some (lit "Try the Nexus.") |}] |} |}] |}.

Definition embeddings_down : World :=
  {| GEMINI_API_KEY := Some (lit "key");
     products_file := inr [mic_2; mic_1];
     embedding_api := fun _ => NotOk (lit "Service Unavailable");
     chat_api := fun _ => Answer sample_answer |}.

(** A reply of the server function with status 200 and no candidate, as the
    model gives when it blocks a prompt. *)
Definition blocked_reply : Proxy.Fetched :=
  Proxy.FetchResponse true (Some {| Gemini.candidates := None |}).

Definition empty_message (now : Z) : Message :=
  {| msg_id := now_toString now; role := assistant; content := [];
     timestamp := now; recommendation := None; reason := None |}.

Definition missing_call : Direct.FunctionCall :=
  {| Direct.call_id := lit "call-1";
     Direct.call_name := Direct.recommend_product;
     Direct.call_args :=
       Some {| Direct.productId := Some (lit "missing");
               Direct.reasoning := Some (lit "cardioid pattern") |} |}.

(** Two segments of a quarter of a second, the second arriving a tenth of
    a second after the first: it starts when the first ends. *)
Definition live : State := Direct.toggleMode Direct.Connected initial.

Definition segment : Direct.LiveServerMessage :=
  {| Direct.toolCall := None; Direct.audioData := Some (lit "UklGRg==");
     Direct.interrupted := false |}.

End Samples.

(* ================================================================== *)
(** * JSON values, as [JSON.parse] and [response.json()] return them *)
(* ================================================================== *)

Module Json.

(** Values are taken apart by cases only. *)
Local Unset Elimination Schemes.

Inductive value :=
| JNull
| JBool (b : bool)
| JNumber (x : float)
| JString (s : jsstring)
| JArray (items : list value)
| JObject (props : list (jsstring * value)).

Local Set Elimination Schemes.

(** Truthiness: every value but [null], [false], the zeros, [NaN] and the
    empty string. *)
Definition truthy (v : value) : bool :=
  match v with
  | JNull => false
  | JBool b => b
  | JNumber x => negb (PrimFloat.eqb x 0%float || PrimFloat.is_nan x)
  | JString s => JS.truthy s
  | JArray _ | JObject _ => true
  end.

(** [Array.isArray(v)] *)
Definition isArray (v : value) : bool :=
  match v with JArray _ => true | _ => false end.

(** [v.k] for a key [k] that no prototype defines. [None] when the read
    throws, which it does on [null]; [Some None] when it gives [undefined].
    An object holds its own properties, each key once. *)
Definition property (v : value) (k : jsstring) : option (option value) :=
  match v with
  | JNull => None
  | JObject props =>
      Some (option_map snd (find (fun kv => str_eqb (fst kv) k) props))
  | _ => Some None
  end.

End Json.

(* ================================================================== *)
(** * [src/App.tsx]: loading the catalog *)
(* ================================================================== *)

Module Application.

Import Json.

(** The [useState] cells of [App]. The type of [products] is not checked
    when the catalog arrives, so the cell holds whatever value the load
    gives. [errors] counts the calls of [console.error]. *)
Record AppState := {
  isChatOpen : bool;
  products : value;
  isLoading : bool;
  errors : nat
}.

Definition initial : AppState :=
  {| isChatOpen := false; products := JArray []; isLoading := true;
     errors := 0 |}.

Definition setIsChatOpen (b : bool) (s : AppState) : AppState :=
  {| isChatOpen := b; products := products s; isLoading := isLoading s;
     errors := errors s |}.

Definition setProducts (l : value) (s : AppState) : AppState :=
  {| isChatOpen := isChatOpen s; products := l; isLoading := isLoading s;
     errors := errors s |}.

Definition setIsLoading (b : bool) (s : AppState) : AppState :=
  {| isChatOpen := isChatOpen s; products := products s; isLoading := b;
     errors := errors s |}.

Definition console_error (s : AppState) : AppState :=
  {| isChatOpen := isChatOpen s; products := products s;
     isLoading := isLoading s; errors := S (errors s) |}.

(** How [fetch('./products.json').then(res => res.json())] settles: it
    rejects (the fetch fails or the body is not JSON), or it gives the
    parsed body. *)
Inductive Load :=
| LoadRejected
| Loaded (data : value).

(** [data.products || (Array.isArray(data) ? data : [])]; [None] when the
    read of [data.products] throws. *)
Definition productList (data : value) : option value :=
  match property data (lit "products") with
  | None => None
  | Some field =>
      let otherwise := if isArray data then data else JArray [] in
      Some match field with
           | Some v => if truthy v then v else otherwise
           | None => otherwise
           end
  end.

(** The [then] and [catch] callbacks of the effect that loads the catalog. *)
Definition load_settles (o : Load) (s : AppState) : AppState :=
  match o with
  | Loaded data =>
      match productList data with
      | Some l => setIsLoading false (setProducts l s)
      | None => setIsLoading false (console_error s)
      end
  | LoadRejected => setIsLoading false (console_error s)
  end.

(** The [products] prop of the chat component, when it is mounted. *)
Definition chat_products (s : AppState) : option value :=
  if isChatOpen s then Some (products s) else None.

End Application.

(* ================================================================== *)
(** * [src/unnamed/part_000]: the server function that relays a request *)
(* ================================================================== *)

Module Relay.

Import Json.

Record HandlerEvent := {
  httpMethod : jsstring;
  (** [JSON.parse(event.body || "{}")]; [None] when it throws. *)
  parsed_body : option value
}.

Inductive ResponseBody :=
| ErrorBody (error : jsstring)
| ResultBody (result : value).

Record HandlerResponse := {
  statusCode : Z;
  body : ResponseBody
}.

(** The request made by [fetch]: the endpoint and the method as the body of
    the event gives them, the key in the [x-goog-api-key] header, and the
    data that is serialized into the body, if any. *)
Record Request := {
  endpoint : option value;
  method : value;
  api_key : jsstring;
  payload : option value
}.

(** What the [fetch] and the reading of its body come to: the promise
    rejects, or a response arrives with its status and its body, [None]
    when [response.json()] rejects. *)
Inductive Upstream :=
| Unreachable
| Responded (status : Z) (result : option value).

Record World := {
  GEMINI_API_KEY : option jsstring;
  upstream : Request -> Upstream
}.

(** The calls that leave the function. *)
Inductive Call :=
| Fetch (request : Request)
| LogError.

Definition respond (status : Z) (b : ResponseBody) : HandlerResponse :=
  {| statusCode := status; body := b |}.

Definition internal_error : HandlerResponse * list Call :=
  (respond 500 (ErrorBody (lit "Internal server error")), [LogError]).

(** [const { endpoint, method = "POST", data } = body]; [None] when the
    destructuring throws. *)
Definition request_of (apiKey : jsstring) (b : value) : option Request :=
  match property b (lit "endpoint"), property b (lit "method"),
        property b (lit "data") with
  | Some endpoint, Some method, Some data =>
      Some {| endpoint := endpoint;
              method := match method with
                        | Some m => m
                        | None => JString (lit "POST")
                        end;
              api_key := apiKey;
              payload := match data with
                         | Some d => if truthy d then Some d else None
                         | None => None
                         end |}
  | _, _, _ => None
  end.

(** The handler: its response and the calls it has made. *)
Definition handler (world : World) (event : HandlerEvent)
  : HandlerResponse * list Call :=
  if negb (str_eqb (httpMethod event) (lit "POST"))
  then (respond 405 (ErrorBody (lit "Method not allowed")), [])
  else
    match GEMINI_API_KEY world with
    | None | Some [] =>
        (respond 500 (ErrorBody (lit "API key not configured")), [])
    | Some apiKey =>
        match parsed_body event with
        | None => internal_error
        | Some b =>
            match request_of apiKey b with
            | None => internal_error
            | Some request =>
                match upstream world request with
                | Responded status (Some result) =>
                    (respond status (ResultBody result), [Fetch request])
                | _ =>
                    (respond 500 (ErrorBody (lit "Internal server error")),
                     [Fetch request; LogError])
                end
            end
        end
    end.

End Relay.

(* ================================================================== *)
(** * [src/constants.ts]: the system instruction *)
(* ================================================================== *)

Module Constants.

(** The text before and after the catalog listing. *)
Definition instruction_head : jsstring :=
  [10%Z]
  ++ lit "You are the "
  ++ [34%Z]
  ++ lit "Gadgets and Those"
  ++ [34%Z]
  ++ lit " Discovery Scout. You are a gadget-obsessed consultant who helps visitors find the perfect tools for their lifestyle."
  ++ [10%Z]
  ++ [10%Z]
  ++ lit "PERSONALITY RULES:"
  ++ [10%Z]
  ++ lit "- NOT A SALESPERSON: You are a tech scout. Be objective, friendly, and analytical."
  ++ [10%Z]
  ++ lit "- REASONING FIRST: Never just drop a link. Instead of "
  ++ [34%Z]
  ++ lit "Here is a mic,"
  ++ [34%Z]
  ++ lit " say "
  ++ [34%Z]
  ++ lit "Since you mentioned you're starting a podcast in a noisy room, this cardioid mic is the move"
  ++ [8212%Z]
  ++ lit "it isolates your voice perfectly."
  ++ [34%Z]
  ++ [10%Z]
  ++ lit "- TIKTOK VIBE: You know what looks good on camera. Mention aesthetics, RGB, and "
  ++ [34%Z]
  ++ lit "the vibe."
  ++ [34%Z]
  ++ [10%Z]
  ++ lit "- PROACTIVE: You lead the conversation. If a user is quiet, suggest a gadget that fits their potential needs based on previous context."
  ++ [10%Z]
  ++ [10%Z]
  ++ lit "CORE DIRECTIVES:"
  ++ [10%Z]
  ++ lit "1. GREETING: If the chat just started, lead with a "
  ++ [34%Z]
  ++ lit "Deal of the Day"
  ++ [34%Z]
  ++ lit " (Nexus Pro Mic-Set) or a question about their current desk setup."
  ++ [10%Z]
  ++ lit "2. DISCOVERY: Ask clarifying questions like "
  ++ [34%Z]
  ++ lit "Are you looking for desk aesthetics or pure performance power?"
  ++ [34%Z]
  ++ [10%Z]
  ++ lit "3. AGENTIC RECOMMENDATION: Use the 'recommend_product' tool to visually present gadgets. Always provide a 'reasoning' string that explains the "
  ++ [34%Z]
  ++ lit "why."
  ++ [34%Z]
  ++ [10%Z]
  ++ lit "4. UP-SELLING (FRIENDLY): If they find a product they like, suggest a "
  ++ [34%Z]
  ++ lit "Those Things"
  ++ [34%Z]
  ++ lit " item that complements it (e.g., "
  ++ [34%Z]
  ++ lit "If you're getting that keyboard, you'll definitely want a high-capacity power bank to keep your gear alive"
  ++ [34%Z]
  ++ lit ")."
  ++ [10%Z]
  ++ [10%Z]
  ++ lit "CATALOG OF AVAILABLE PRODUCTS:"
  ++ [10%Z].

Definition instruction_tail : jsstring :=
  [10%Z]
  ++ [10%Z]
  ++ lit "CURRENT PROMO:"
  ++ [10%Z]
  ++ lit "Nexus Pro Mic-Set - 15% off for our community with code GADGETS15."
  ++ [10%Z].

Section Instruction.

(** The conversion of a number to a string in a template literal. *)
Variable number_toString : float -> jsstring.

(** The line of one product in the catalog listing. *)
Definition catalog_line (p : Product) : jsstring :=
  lit "- ID: " ++ id p ++ lit " | Name: " ++ name p
  ++ lit " | Category: " ++ category p
  ++ lit " | Price: $" ++ number_toString (price p)
  ++ lit " | Features: " ++ join (lit ", ") (features p)
  ++ lit " | Desc: " ++ description p.

Definition getSystemInstruction (products : list Product) : jsstring :=
  instruction_head
  ++ join [10%Z] (map catalog_line products)
  ++ instruction_tail.

End Instruction.

End Constants.

(* ================================================================== *)
(** * More sample data *)
(* ================================================================== *)

Module Cases.

Import Samples.
Local Open Scope Z_scope.

(** A catalog whose ids are not integer-like. *)
Definition desk_lamp : Product :=
  mk_product (lit "lamp-1") (lit "Halo Desk Lamp") (lit "lighting")
             (lit "dimmable light bar") [lit "usb-c"; lit "rgb"].

Definition desk_mat : Product :=
  mk_product (lit "mat-2") (lit "Shift Desk Mat") (lit "desk gear")
             (lit "wide felt mat") [lit "felt"].

Definition dock : Product :=
  mk_product (lit "dock-3") (lit "Port Dock") (lit "gear")
             (lit "hub for a tidy desk") [lit "hdmi"].

Definition power_bank : Product :=
  mk_product (lit "bank-4") (lit "Volt Bank") (lit "power")
             (lit "pocket battery") [lit "20000 mAh"].

Definition desk_catalog : list Product :=
  [desk_lamp; desk_mat; dock; power_bank].

(** Requests to the server function: one that is no POST, one without a
    prompt, one whose body is not JSON. *)
Definition get_event : Gemini.HandlerEvent :=
  {| Gemini.httpMethod := lit "GET";
     Gemini.parsed_body := inr (Some (lit "a mic for podcasts")) |}.

Definition blank_event : Gemini.HandlerEvent :=
  {| Gemini.httpMethod := lit "POST"; Gemini.parsed_body := inr None |}.



(** Responses of the model: a card without text for the product with id
    ["1"], followed by a call that names no product; and a call without
    arguments. *)
Definition arm_call : Direct.FunctionCall :=
  {| Direct.call_id := lit "call-2";
     Direct.call_name := Direct.recommend_product;
     Direct.call_args :=
       Some {| Direct.productId := Some (lit "1");
               Direct.reasoning := Some (lit "holds the mic") |} |}.

Definition card_only : Direct.ModelResponse :=
  {| Direct.resp_text := None;
     Direct.functionCalls := Some [arm_call; missing_call] |}.

Definition bare_call : Direct.FunctionCall :=
  {| Direct.call_id := lit "call-3";
     Direct.call_name := Direct.recommend_product;
     Direct.call_args := None |}.

Definition bare_response : Direct.ModelResponse :=
  {| Direct.resp_text := Some (lit "Here is one.");
     Direct.functionCalls := Some [bare_call] |}.

(** A voice session that plays one segment, and a message that signals an
    interruption. *)
Definition playing : State :=
  Direct.onmessage_decoded
    0.25%float segment
    (fst (Direct.onmessage [] 1000 1.5%float segment live)).

Definition barge_in : Direct.LiveServerMessage :=
  {| Direct.toolCall := None; Direct.audioData := None;
     Direct.interrupted := true |}.

(** A catalog file in the shape [{ "products": [...] }], and a request to
    the relay function that names an endpoint of the caller's choice. *)
Definition catalog_file : Json.value :=
  Json.JObject [(lit "version", Json.JNumber 2%float);
                (lit "products",
                 Json.JArray [Json.JObject
                                [(lit "id", Json.JString (lit "lamp-1"))]])].

Definition relay_event : Relay.HandlerEvent :=
  {| Relay.httpMethod := lit "POST";
     Relay.parsed_body :=
       Some (Json.JObject
               [(lit "endpoint",
                 Json.JString (lit "https://example.test/v1/models"))]) |}.

Definition relay_world : Relay.World :=
  {| Relay.GEMINI_API_KEY := Some (lit "key");
     Relay.upstream := fun _ => Relay.Responded 404 (Some Json.JNull) |}.

End Cases.

(* ================================================================== *)
(** * Facts about binary64 numbers *)
(* ================================================================== *)

Module FloatFacts.

Local Open Scope float_scope.

Lemma SFcompare_refl (x : spec_float) :
  x <> S754_nan -> SFcompare x x = Some Eq.
Proof.
  destruct x as [s| s | | s m e]; simpl; intros H; try congruence.
  - now destruct s.
  - destruct s; rewrite Z.compare_refl, Pos.compare_cont_refl; reflexivity.
Qed.

Lemma SFcompare_antisym (x y : spec_float) (c : comparison) :
  SFcompare x y = Some c -> SFcompare y x = Some (CompOpp c).
Proof.
  destruct x as [sx| sx | | sx mx ex], y as [sy| sy | | sy my ey]; simpl;
    intros H; inversion H; subst; clear H;
    try (destruct sx; reflexivity); try (destruct sy; reflexivity);
    try (destruct sx, sy; reflexivity); try reflexivity.
  destruct sx, sy; try reflexivity; f_equal;
    rewrite (Z.compare_antisym ex ey);
    destruct (ex ?= ey)%Z; simpl; try reflexivity;
    change (Pos.compare_cont Eq my mx) with (Pos.compare my mx);
    change (Pos.compare_cont Eq mx my) with (Pos.compare mx my);
    rewrite (Pos.compare_antisym mx my);
    now rewrite ?CompOpp_involutive.
Qed.

Lemma SFcompare_defined (x y : spec_float) :
  x <> S754_nan -> y <> S754_nan -> exists c, SFcompare x y = Some c.
Proof.
  destruct x, y; simpl; intros Hx Hy; try congruence; eauto.
Qed.

Lemma number_spec (x : float) : number x <-> Prim2SF x <> S754_nan.
Proof.
  unfold number, PrimFloat.is_nan. rewrite eqb_spec. unfold SFeqb. split.
  - intros H E. rewrite E in H. discriminate H.
  - intros H. now rewrite (SFcompare_refl H).
Qed.

Lemma leb_refl (x : float) : number x -> (x <=? x) = true.
Proof.
  intros H. rewrite leb_spec. unfold SFleb.
  now rewrite (SFcompare_refl (proj1 (number_spec x) H)).
Qed.

Lemma ltb_leb (x y : float) : (x <? y) = true -> (x <=? y) = true.
Proof.
  rewrite ltb_spec, leb_spec. unfold SFltb, SFleb.
  destruct (SFcompare _ _) as [[]|]; congruence.
Qed.

Lemma not_ltb_leb (x y : float) :
  number x -> number y -> (x <? y) = false -> (y <=? x) = true.
Proof.
  intros Hx Hy. rewrite ltb_spec, leb_spec. unfold SFltb, SFleb.
  apply number_spec in Hx, Hy.
  destruct (SFcompare_defined Hx Hy) as [c Hc]. rewrite Hc.
  rewrite (SFcompare_antisym _ _ Hc). destruct c; simpl; congruence.
Qed.

Lemma Math_max_number (x y : float) :
  number x -> number y -> number (Math_max x y).
Proof.
  unfold Math_max, number. intros Hx Hy. rewrite Hx, Hy. simpl.
  destruct (x <? y); [assumption|]. destruct (y <? x); [assumption|].
  now destruct (PrimFloat.get_sign x).
Qed.

Lemma Math_max_ge_l (x y : float) :
  number x -> number y -> (x <=? Math_max x y) = true.
Proof.
  intros Hx Hy. unfold Math_max. rewrite Hx, Hy. simpl.
  destruct (x <? y) eqn:Hxy; [now apply ltb_leb|].
  destruct (y <? x) eqn:Hyx; [now apply leb_refl|].
  destruct (PrimFloat.get_sign x); [|now apply leb_refl].
  now apply not_ltb_leb.
Qed.

Lemma Math_max_ge_r (x y : float) :
  number x -> number y -> (y <=? Math_max x y) = true.
Proof.
  intros Hx Hy. unfold Math_max. rewrite Hx, Hy. simpl.
  destruct (x <? y) eqn:Hxy; [now apply leb_refl|].
  destruct (y <? x) eqn:Hyx; [now apply ltb_leb|].
  destruct (PrimFloat.get_sign x); [now apply leb_refl|].
  now apply not_ltb_leb.
Qed.

Lemma nonneg_spec (x : float) : nonneg x <-> SFnonneg (Prim2SF x).
Proof.
  unfold nonneg. rewrite leb_spec.
  change (Prim2SF 0) with (S754_zero false).
  destruct (Prim2SF x) as [s| s | | s m e]; simpl; unfold SFleb; simpl.
  - tauto.
  - destruct s; split; intros; congruence.
  - split; intros; try congruence. contradiction.
  - destruct s; split; intros; congruence.
Qed.

Lemma nonneg_number (x : float) : nonneg x -> number x.
Proof.
  rewrite nonneg_spec, number_spec. intros H E. now rewrite E in H.
Qed.

(** Shifting and rounding a non-negative mantissa keeps it non-negative. *)
Lemma shr_1_nonneg (mrs : shr_record) :
  (0 <= shr_m mrs)%Z -> (0 <= shr_m (shr_1 mrs))%Z.
Proof.
  destruct mrs as [m r s]. simpl.
  destruct m as [|p|p]; simpl; intros H; try lia.
  destruct p; simpl; lia.
Qed.

Lemma iter_shr_1_nonneg (p : positive) :
  forall mrs, (0 <= shr_m mrs)%Z -> (0 <= shr_m (iter_pos shr_1 p mrs))%Z.
Proof.
  induction p as [p IH | p IH |]; intros mrs H; simpl.
  - apply IH, IH, shr_1_nonneg, H.
  - apply IH, IH, H.
  - apply shr_1_nonneg, H.
Qed.

Lemma shr_fexp_nonneg (m e : Z) (l : location) :
  (0 <= m)%Z -> (0 <= shr_m (fst (shr_fexp prec emax m e l)))%Z.
Proof.
  intros H. unfold shr_fexp, shr.
  assert (H0 : (0 <= shr_m (shr_record_of_loc m l))%Z)
    by (destruct l as [|[]]; exact H).
  destruct (_ - e)%Z; simpl; try exact H0.
  now apply iter_shr_1_nonneg.
Qed.

Lemma round_nearest_even_nonneg (m : Z) (l : location) :
  (0 <= m)%Z -> (0 <= round_nearest_even m l)%Z.
Proof.
  intros H. destruct l as [|[]]; simpl; try lia.
  destruct (Z.even m); lia.
Qed.

Lemma binary_round_aux_sign (sx : bool) (m : positive) (e : Z) (l : location) :
  match binary_round_aux prec emax sx (Zpos m) e l with
  | S754_nan => False
  | S754_zero s | S754_infinity s | S754_finite s _ _ => s = sx
  end.
Proof.
  unfold binary_round_aux.
  pose proof (@shr_fexp_nonneg (Zpos m) e l ltac:(lia)) as H1.
  destruct (shr_fexp prec emax (Zpos m) e l) as [mrs' e']. simpl in H1.
  pose proof (@shr_fexp_nonneg
                (round_nearest_even (shr_m mrs') (loc_of_shr_record mrs'))
                e' loc_Exact
                (round_nearest_even_nonneg _ H1)) as H2.
  destruct (shr_fexp prec emax _ e' loc_Exact) as [mrs'' e'']. simpl in H2.
  destruct (shr_m mrs'') as [|p|p]; try reflexivity; [|lia].
  now destruct (e'' <=? emax - prec)%Z.
Qed.

Lemma binary_normalize_nonneg (m e : Z) :
  (0 <= m)%Z -> SFnonneg (binary_normalize prec emax m e false).
Proof.
  intros H. destruct m as [|p|p]; simpl; [exact I | | lia].
  unfold binary_round.
  destruct (shl_align p e _) as [mz ez].
  pose proof (binary_round_aux_sign false mz ez loc_Exact) as Hs.
  destruct (binary_round_aux _ _ _ _ _ _); simpl; tauto.
Qed.

Lemma add_nonneg (x y : float) : nonneg x -> nonneg y -> nonneg (x + y).
Proof.
  rewrite !nonneg_spec, add_spec. unfold SF64add, SFadd.
  destruct (Prim2SF x) as [sx| sx | | sx mx ex],
           (Prim2SF y) as [sy| sy | | sy my ey]; cbn [SFnonneg];
    intros Hx Hy; subst; try tauto; try reflexivity;
    try (now destruct sx, sy).
  apply binary_normalize_nonneg. simpl. lia.
Qed.

Lemma Math_max_nonneg (x y : float) :
  nonneg x -> nonneg y -> nonneg (Math_max x y).
Proof.
  intros Hx Hy. unfold Math_max.
  rewrite (nonneg_number Hx), (nonneg_number Hy). simpl.
  destruct (x <? y); [assumption|]. destruct (y <? x); [assumption|].
  now destruct (PrimFloat.get_sign x).
Qed.

(** ** Subtraction as a comparator *)

Section Subtraction.

Local Open Scope Z_scope.

Lemma digits2_pos_bounds (p : positive) :
  2 ^ (Zpos (digits2_pos p) - 1) <= Zpos p < 2 ^ Zpos (digits2_pos p).
Proof.
  induction p as [p IH | p IH |]; cbn [digits2_pos].
  - rewrite Pos2Z.inj_succ.
    replace (Z.succ (Zpos (digits2_pos p)) - 1) with (Zpos (digits2_pos p)) by lia.
    rewrite Z.pow_succ_r by lia.
    assert (H : 2 ^ Zpos (digits2_pos p)
                = 2 * 2 ^ (Zpos (digits2_pos p) - 1)).
    { rewrite <- Z.pow_succ_r by lia. f_equal. lia. }
    lia.
  - rewrite Pos2Z.inj_succ.
    replace (Z.succ (Zpos (digits2_pos p)) - 1) with (Zpos (digits2_pos p)) by lia.
    rewrite Z.pow_succ_r by lia.
    assert (H : 2 ^ Zpos (digits2_pos p)
                = 2 * 2 ^ (Zpos (digits2_pos p) - 1)).
    { rewrite <- Z.pow_succ_r by lia. f_equal. lia. }
    lia.
  - cbn. lia.
Qed.

(** The mantissa after [n] shifts to the right. *)
Lemma shr_1_m (mrs : shr_record) :
  0 <= shr_m mrs -> shr_m (shr_1 mrs) = shr_m mrs / 2.
Proof.
  destruct mrs as [m r s]. cbn [shr_m shr_1].
  destruct m as [|p|p]; intros H; try lia; [reflexivity|].
  destruct p as [p|p|]; cbn [shr_m].
  - rewrite Pos2Z.inj_xI. apply Z.div_unique with (r := 1); lia.
  - rewrite Pos2Z.inj_xO. apply Z.div_unique with (r := 0); lia.
  - reflexivity.
Qed.

Lemma iter_shr_1_m (p : positive) :
  forall mrs,
    0 <= shr_m mrs ->
    shr_m (iter_pos shr_1 p mrs) = shr_m mrs / 2 ^ Zpos p.
Proof.
  induction p as [p IH | p IH |]; intros mrs H; cbn [iter_pos];
    try pose proof (Z.pow_pos_nonneg 2 (Zpos p) ltac:(lia) ltac:(lia)) as Hpow.
  - assert (H1 : 0 <= shr_m (shr_1 mrs)) by now apply shr_1_nonneg.
    assert (H2 : 0 <= shr_m (iter_pos shr_1 p (shr_1 mrs)))
      by (rewrite IH by exact H1; apply Z.div_pos; lia).
    assert (E : 2 ^ Zpos p~1 = 2 * 2 ^ Zpos p * 2 ^ Zpos p).
    { rewrite <- Z.mul_assoc, <- Z.pow_add_r, <- Z.pow_succ_r by lia.
      f_equal. lia. }
    rewrite IH by exact H2. rewrite IH by exact H1. rewrite shr_1_m by exact H.
    rewrite !Z.div_div by lia. rewrite E. f_equal. ring.
  - assert (H2 : 0 <= shr_m (iter_pos shr_1 p mrs))
      by (rewrite IH by exact H; apply Z.div_pos; lia).
    assert (E : 2 ^ Zpos p~0 = 2 ^ Zpos p * 2 ^ Zpos p).
    { rewrite <- Z.pow_add_r by lia. f_equal. lia. }
    rewrite IH by exact H2. rewrite IH by exact H.
    rewrite Z.div_div by lia. now rewrite E.
  - rewrite shr_1_m by exact H. reflexivity.
Qed.

Lemma shr_record_of_loc_m (m : Z) (l : location) :
  shr_m (shr_record_of_loc m l) = m.
Proof. destruct l as [|[]]; reflexivity. Qed.

(** Above the least exponent, a positive mantissa stays positive through
    the shift to its canonical exponent. *)
Lemma shr_fexp_pos (m e : Z) (l : location) :
  0 < m -> emin <= e ->
  0 < shr_m (fst (shr_fexp prec emax m e l))
  /\ emin <= snd (shr_fexp prec emax m e l).
Proof.
  intros Hm He. unfold shr_fexp, shr.
  pose proof (shr_record_of_loc_m m l) as Hrec.
  destruct (fexp prec emax (Zdigits2 m + e) - e) as [|p|p] eqn:Hn;
    cbn [fst snd]; try (rewrite Hrec; split; assumption).
  rewrite iter_shr_1_m by (rewrite Hrec; lia). rewrite Hrec.
  destruct m as [|q|q]; try lia. cbn [Zdigits2] in Hn.
  unfold fexp, SpecFloat.emin in Hn. unfold emin, prec, emax in *.
  assert (Hp : Zpos p = Zpos (digits2_pos q) - 53) by lia.
  split; [|lia].
  pose proof (digits2_pos_bounds q) as [Hlo _].
  apply Z.div_str_pos. split; [apply Z.pow_pos_nonneg; lia|].
  eapply Z.le_trans; [|exact Hlo].
  apply Z.pow_le_mono_r; [lia|]. rewrite Hp. lia.
Qed.

Lemma round_nearest_even_pos (m : Z) (l : location) :
  0 < m -> 0 < round_nearest_even m l.
Proof.
  intros H. destruct l as [|[]]; cbn [round_nearest_even]; try lia.
  destruct (Z.even m); lia.
Qed.

Lemma binary_round_aux_nonzero (sx : bool) (m : positive) (e : Z)
      (l : location) :
  emin <= e ->
  match binary_round_aux prec emax sx (Zpos m) e l with
  | S754_infinity s | S754_finite s _ _ => s = sx
  | _ => False
  end.
Proof.
  intros He. unfold binary_round_aux.
  destruct (@shr_fexp_pos (Zpos m) e l ltac:(lia) He) as [H1 He1].
  destruct (shr_fexp prec emax (Zpos m) e l) as [mrs' e'].
  cbn [fst snd] in H1, He1.
  destruct (@shr_fexp_pos
              (round_nearest_even (shr_m mrs') (loc_of_shr_record mrs'))
              e' loc_Exact (round_nearest_even_pos _ H1) He1) as [H2 _].
  destruct (shr_fexp prec emax _ e' loc_Exact) as [mrs'' e''].
  cbn [fst] in H2.
  destruct (shr_m mrs'') as [|p|p]; try lia.
  now destruct (e'' <=? emax - prec).
Qed.

Lemma shl_align_value (m : positive) (e e' : Z) :
  e' <= e ->
  let (m', e'') := shl_align m e e' in
  e'' = e' /\ Zpos m' = Zpos m * 2 ^ (e - e').
Proof.
  intros H. unfold shl_align.
  destruct (e' - e) as [|d|d] eqn:Hd; try lia.
  - replace (e - e') with 0 by lia. split; lia.
  - split; [reflexivity|].
    replace (e - e') with (Zpos d) by lia.
    rewrite (Pos.iter_swap_gen _ _ Zpos xO (Z.mul 2)) by reflexivity.
    rewrite <- Z.shiftl_mul_pow2 by lia. reflexivity.
Qed.

Lemma binary_round_nonzero (sx : bool) (m : positive) (e : Z) :
  emin <= e ->
  match binary_round prec emax sx m e with
  | S754_infinity s | S754_finite s _ _ => s = sx
  | _ => False
  end.
Proof.
  intros He. unfold binary_round.
  assert (Hez : emin <= snd (shl_align m e
                               (fexp prec emax (Zpos (digits2_pos m) + e)))).
  { unfold shl_align. destruct (_ - e) eqn:Hd; cbn [snd]; try exact He.
    unfold fexp, SpecFloat.emin, emin, prec, emax. lia. }
  destruct (shl_align m e _) as [mz ez]. cbn [snd] in Hez.
  now apply binary_round_aux_nonzero.
Qed.

Lemma binary_normalize_sign (d e : Z) :
  emin <= e -> SFsign (binary_normalize prec emax d e false) = (d ?= 0).
Proof.
  intros He. destruct d as [|p|p]; cbn [binary_normalize]; [reflexivity| |].
  - pose proof (binary_round_nonzero false p He) as H.
    destruct (binary_round prec emax false p e); cbn [SFsign];
      try contradiction; now subst.
  - pose proof (binary_round_nonzero true p He) as H.
    destruct (binary_round prec emax true p e); cbn [SFsign];
      try contradiction; now subst.
Qed.

(** What validity says of a finite number. *)
Lemma valid_finite (s : bool) (m : positive) (e : Z) :
  valid_binary (S754_finite s m e) = true ->
  emin <= e /\ Zpos (digits2_pos m) <= prec
  /\ (emin < e -> Zpos (digits2_pos m) = prec).
Proof.
  cbn [SpecFloat.valid_binary]. unfold bounded, canonical_mantissa.
  rewrite andb_true_iff, Z.eqb_eq. intros [H _]. revert H.
  unfold fexp, SpecFloat.emin, emin, prec, emax. lia.
Qed.

(** On valid numbers the order of exponent and mantissa is the order of the
    values. *)
Lemma aligned_compare (mx my : positive) (ex ey : Z) :
  valid_binary (S754_finite false mx ex) = true ->
  valid_binary (S754_finite false my ey) = true ->
  let ez := Z.min ex ey in
  (Zpos (fst (shl_align mx ex ez)) ?= Zpos (fst (shl_align my ey ez)))
  = match ex ?= ey with
    | Lt => Lt
    | Gt => Gt
    | Eq => Pos.compare_cont Eq mx my
    end.
Proof.
  intros Hx Hy ez.
  destruct (valid_finite _ _ _ Hx) as (Hex & Hdx & Hnx).
  destruct (valid_finite _ _ _ Hy) as (Hey & Hdy & Hny).
  pose proof (@shl_align_value mx ex ez ltac:(lia)) as Ax.
  pose proof (@shl_align_value my ey ez ltac:(lia)) as Ay.
  destruct (shl_align mx ex ez) as [mx' ex'].
  destruct (shl_align my ey ez) as [my' ey'].
  destruct Ax as [_ Ax], Ay as [_ Ay]. cbn [fst]. rewrite Ax, Ay.
  pose proof (digits2_pos_bounds mx) as [Hlx Hux].
  pose proof (digits2_pos_bounds my) as [Hly Huy].
  assert (Hpow : forall d, 0 < d -> 2 <= 2 ^ d).
  { intros d Hd. change 2 with (2 ^ 1) at 1.
    apply Z.pow_le_mono_r; lia. }
  assert (Hprec : forall d, d <= prec -> 2 ^ d <= 2 ^ prec)
    by (intros d Hd; apply Z.pow_le_mono_r; lia).
  assert (Htwo : 2 ^ prec = 2 * 2 ^ (prec - 1)) by reflexivity.
  destruct (Z.compare_spec ex ey) as [E | E | E].
  - subst ey. subst ez. rewrite Z.min_id, Z.sub_diag, !Z.mul_1_r.
    reflexivity.
  - subst ez. rewrite Z.min_l by lia. rewrite Z.sub_diag, Z.mul_1_r.
    apply Z.compare_lt_iff.
    rewrite (Hny ltac:(lia)) in Hly.
    specialize (Hpow (ey - ex) ltac:(lia)).
    specialize (Hprec _ Hdx). nia.
  - subst ez. rewrite Z.min_r by lia. rewrite Z.sub_diag, Z.mul_1_r.
    apply Z.compare_gt_iff.
    rewrite (Hnx ltac:(lia)) in Hlx.
    specialize (Hpow (ex - ey) ltac:(lia)).
    specialize (Hprec _ Hdy). nia.
Qed.

Lemma valid_sign (s s' : bool) (m : positive) (e : Z) :
  valid_binary (S754_finite s m e) = valid_binary (S754_finite s' m e).
Proof. reflexivity. Qed.

(** The sign of a difference is the comparison of its terms. *)
Lemma SFsub_sign (x y : spec_float) (c : comparison) :
  valid_binary x = true -> valid_binary y = true ->
  SFcompare x y = Some c -> SFsign (SF64sub x y) = c.
Proof.
  intros Hx Hy.
  destruct x as [sx | sx | | sx mx ex], y as [sy | sy | | sy my ey];
    cbn [SFcompare]; intros H; inversion H; subst; clear H;
    try (destruct sx, sy; reflexivity);
    try (destruct sx; reflexivity); try (destruct sy; reflexivity).
  unfold SF64sub, SFsub.
  destruct (valid_finite _ _ _ Hx) as (Hex & _).
  destruct (valid_finite _ _ _ Hy) as (Hey & _).
  rewrite binary_normalize_sign by lia.
  rewrite (valid_sign sx false) in Hx. rewrite (valid_sign sy false) in Hy.
  pose proof (aligned_compare mx my ex ey Hx Hy) as Hc. cbn zeta in Hc.
  set (X := Zpos (fst (shl_align mx ex (Z.min ex ey)))) in *.
  set (Y := Zpos (fst (shl_align my ey (Z.min ex ey)))) in *.
  destruct sx, sy; cbn [cond_Zopp].
  - transitivity (CompOpp (X ?= Y));
      [|rewrite Hc; destruct (ex ?= ey); reflexivity].
    rewrite <- Z.compare_antisym, (Z.compare_sub Y X). f_equal; lia.
  - apply Z.compare_lt_iff. subst X Y. lia.
  - apply Z.compare_gt_iff. subst X Y. lia.
  - rewrite <- Hc. symmetry. apply Z.compare_sub.
Qed.

(** The comparisons with zero read the sign. *)
Lemma sign_of_float (x : float) :
  (if x <? 0 then Lt else if 0 <? x then Gt else Eq)%float
  = SFsign (Prim2SF x).
Proof.
  rewrite !ltb_spec. change (Prim2SF 0%float) with (S754_zero false).
  destruct (Prim2SF x) as [s | s | | s m e]; cbn; try reflexivity;
    now destruct s.
Qed.

(** For two numbers, the sign of [x - y] is their comparison. *)
Theorem sub_sign (x y : float) (c : comparison) :
  SFcompare (Prim2SF x) (Prim2SF y) = Some c ->
  (if x - y <? 0 then Lt else if 0 <? x - y then Gt else Eq)%float = c.
Proof.
  intros H. rewrite sign_of_float, sub_spec.
  apply SFsub_sign; [apply Prim2SF_valid | apply Prim2SF_valid | exact H].
Qed.

End Subtraction.

End FloatFacts.

(* ================================================================== *)
(** * Cosine similarity *)
(* ================================================================== *)

Module CosineFacts.

Import Gemini.
Local Open Scope float_scope.

Lemma reduce_from_no_index (A B : Type) (f : B -> A -> B) (l : list A) :
  forall i acc,
    reduce_from (fun acc val _ => f acc val) l i acc = fold_left f l acc.
Proof.
  induction l as [|x l IH]; intros i acc; simpl; [reflexivity | apply IH].
Qed.

Lemma mag_is_magnitude (v : list float) : mag v = magnitude_spec v.
Proof.
  unfold mag, magnitude_spec, reduce. now rewrite reduce_from_no_index.
Qed.

(** Reading [vecB] by index from position [i] on is reading the rest of
    [vecB] in step, as long as [vecB] does not end first. *)
Lemma dot_from_combine (a : list float) :
  forall (b pre : list float) acc,
    (length a <= length b)%nat ->
    reduce_from (fun acc val i => acc + val * at_index (pre ++ b) i)
                a (length pre) acc
    = fold_left (fun acc xy => acc + fst xy * snd xy) (combine a b) acc.
Proof.
  induction a as [|x a IH]; intros b pre acc Hlen; simpl; [reflexivity|].
  destruct b as [|y b]; simpl in Hlen; [lia|].
  simpl.
  replace (at_index (pre ++ y :: b) (length pre)) with y
    by (unfold at_index; now rewrite nth_middle).
  replace (pre ++ y :: b) with ((pre ++ [y]) ++ b)
    by (now rewrite <- app_assoc).
  replace (S (length pre)) with (length (pre ++ [y]))
    by (rewrite length_app; simpl; lia).
  apply IH. lia.
Qed.

Lemma dotProduct_is_dot (a b : list float) :
  (length a <= length b)%nat -> dotProduct a b = dot_spec a b.
Proof.
  intros H. unfold dotProduct, dot_spec, reduce.
  exact (dot_from_combine a b [] 0 H).
Qed.

(** C3. [cosineSimilarity] is a total function; on two vectors of one
    dimension (more generally, when the second is at least as long as the
    first) it returns 0 when the magnitude of either vector is zero, and
    otherwise the dot product divided by the product of the magnitudes. *)
Theorem cosineSimilarity_spec (a b : list float) :
  (length a <= length b)%nat ->
  ((magnitude_spec a =? 0) = true \/ (magnitude_spec b =? 0) = true ->
   cosineSimilarity a b = 0)
  /\ ((magnitude_spec a =? 0) = false /\ (magnitude_spec b =? 0) = false ->
      cosineSimilarity a b
      = dot_spec a b / (magnitude_spec a * magnitude_spec b)).
Proof.
  intros Hlen. unfold cosineSimilarity.
  rewrite !mag_is_magnitude, (dotProduct_is_dot a b Hlen).
  split.
  - intros [H | H]; rewrite H; [reflexivity|].
    now rewrite orb_true_r.
  - intros [Ha Hb]. now rewrite Ha, Hb.
Qed.

Lemma cosineSimilarity_spec_witness :
  cosineSimilarity [3; 4] [4; 3] = 0x1.eb851eb851eb8p-1
  /\ cosineSimilarity [0; 0] [4; 3] = 0.
Proof.
  destruct (cosineSimilarity_spec [3; 4] [4; 3]) as [_ Hnz]; [simpl; lia|].
  destruct (cosineSimilarity_spec [0; 0] [4; 3]) as [Hz _]; [simpl; lia|].
  split.
  - rewrite Hnz; [vm_compute; reflexivity | split; vm_compute; reflexivity].
  - apply Hz. left. vm_compute. reflexivity.
Defined.

(** Past the end of the second vector the components read are [undefined],
    and the result is [NaN]. *)
Example cosineSimilarity_longer_first :
  cosineSimilarity [1; 1] [3] = nan.
Proof. vm_compute. reflexivity. Qed.

End CosineFacts.

(* ================================================================== *)
(** * The keyword search *)
(* ================================================================== *)

Module SearchFacts.

Import Samples.

Local Open Scope Z_scope.

Section Search.

Variable toLowerCase : jsstring -> jsstring.

Lemma no_long_word_no_words (query : jsstring) :
  Forall (fun w => str_length w <= 2) (split_ws (toLowerCase query)) ->
  queryWords toLowerCase query = [].
Proof.
  unfold queryWords. generalize (split_ws (toLowerCase query)).
  induction 1 as [|w l Hw _ IH]; simpl; [reflexivity|].
  destruct (Z.ltb_spec 2 (str_length w)); [lia | exact IH].
Qed.

(** C10, amended. For every catalog, [findRelevantProducts] returns the
    empty list whenever every white-space-separated word of the
    lower-cased query has at most 2 UTF-16 code units, and then the
    prompt sent to the model is the user's message alone; so it is for the
    empty query, whose lower case is empty. *)
Theorem short_words_find_nothing (query : jsstring)
        (allProducts : list Product) :
  Forall (fun w => str_length w <= 2) (split_ws (toLowerCase query)) ->
  findRelevantProducts toLowerCase query allProducts = []
  /\ augmentedUserMessage toLowerCase query allProducts = query
  /\ (toLowerCase [] = [] ->
      findRelevantProducts toLowerCase [] allProducts = []).
Proof.
  intros H.
  assert (Hfind : findRelevantProducts toLowerCase query allProducts = []).
  { unfold findRelevantProducts. now rewrite (no_long_word_no_words _ H). }
  split; [exact Hfind|]. split.
  - unfold augmentedUserMessage. now rewrite Hfind.
  - intros He. unfold findRelevantProducts, queryWords.
    rewrite He. reflexivity.
Qed.

End Search.

Lemma short_words_find_nothing_witness :
  findRelevantProducts toLowerCase_latin (lit "a pc to go") [mic_2; mic_1] = []
  /\ augmentedUserMessage toLowerCase_latin (lit "a pc to go") [mic_2; mic_1]
     = lit "a pc to go".
Proof.
  destruct (@short_words_find_nothing toLowerCase_latin (lit "a pc to go")
              [mic_2; mic_1]) as (H1 & H2 & _).
  - vm_compute. repeat constructor; discriminate.
  - split; assumption.
Defined.

(** C10 as it is stated fails: both code units of the query [is_query] make
    one word of 2 code units, its lower case has 3, and the product whose
    name holds it is returned. *)
Lemma short_query_word_found :
  ~ (Forall (fun w => str_length w <= 2) (split_ws is_query) ->
     findRelevantProducts toLowerCase_latin is_query [is_masasi] = []).
Proof.
  intros H.
  assert (Hw : Forall (fun w => str_length w <= 2) (split_ws is_query))
    by (vm_compute; repeat constructor; discriminate).
  specialize (H Hw). vm_compute in H. discriminate H.
Qed.

(** C1, on the keyword path. The two products have the same score for the
    query and stand in the catalog in the order [mic_2], [mic_1]; their ids
    ["2"] and ["1"] are array indices, the keys of the score table come out
    in ascending numeric order, and the result is [mic_1], [mic_2]. *)
Theorem keyword_tie_against_catalog_order :
  product_score toLowerCase_latin (queryWords toLowerCase_latin (lit "mic")) mic_2
  = product_score toLowerCase_latin (queryWords toLowerCase_latin (lit "mic")) mic_1
  /\ Object_keys (score_table toLowerCase_latin
                    (queryWords toLowerCase_latin (lit "mic")) [mic_2; mic_1])
     = [lit "1"; lit "2"]
  /\ findRelevantProducts toLowerCase_latin (lit "mic") [mic_2; mic_1]
     = [mic_1; mic_2].
Proof. vm_compute. repeat split; reflexivity. Qed.

End SearchFacts.

(* ================================================================== *)
(** * The server function when the embedding call fails *)
(* ================================================================== *)

Module HandlerFacts.

Import Gemini Samples.
Local Open Scope Z_scope.

Section Failure.

Variable number_toString : float -> jsstring.
Variable world : World.
Variable event : HandlerEvent.

(** C2, amended. When the embedding call fails (the fetch rejects or the
    service answers with an error status), the server function makes no
    call to the chat model and answers with status 500 and an error
    message; on that answer the chat component appends the fixed fallback
    message and clears the busy flag. The turn ends, without a response
    of the model. *)
Theorem embedding_failure_ends_turn (apiKey prompt : jsstring)
        (products : list Product) :
  str_eqb (httpMethod event) (lit "POST") = true ->
  GEMINI_API_KEY world = Some apiKey -> apiKey <> [] ->
  parsed_body event = inr (Some prompt) -> prompt <> [] ->
  products_file world = inr products ->
  failed (embedding_api world (prompt :: map productDoc products)) ->
  exists message calls,
    invoke number_toString world event
    = (Returned {| statusCode := 500; body := ErrorBody message |}, calls)
    /\ existsb is_chat_call calls = false
    /\ forall now s,
        Proxy.handleTextSubmit_settle
          now (Proxy.fetched_from
                 {| statusCode := 500; body := ErrorBody message |}) s
        = setIsTyping false
            (addMessage now assistant fallback_text None None
                        (effect ConsoleError s)).
Proof.
  intros Hpost Hkey Hk Hbody Hp Hfile Hfail.
  destruct (embedding_api world (prompt :: map productDoc products))
    as [message | statusText | r] eqn:Hreply; [| | contradiction].
  all: destruct apiKey as [|k0 k]; [congruence|].
  all: destruct prompt as [|c0 cs]; [congruence|].
  - exists (if truthy message then message else lit "Internal server error").
    eexists.
    unfold invoke, handler. rewrite Hpost, Hkey.
    cbv beta iota zeta delta
        [negb try_catch handler_try bind call ret getEmbeddings].
    rewrite Hbody, Hfile. cbv beta iota zeta. rewrite Hreply.
    unfold throw, respond, ret.
    split; [reflexivity|]. split; reflexivity.
  - eexists. eexists.
    unfold invoke, handler. rewrite Hpost, Hkey.
    cbv beta iota zeta delta
        [negb try_catch handler_try bind call ret getEmbeddings].
    rewrite Hbody, Hfile. cbv beta iota zeta. rewrite Hreply.
    unfold throw, respond, ret.
    split; [reflexivity|]. split; reflexivity.
Qed.

End Failure.

Lemma embedding_failure_ends_turn_witness :
  exists message calls,
    invoke sample_price_text embeddings_down post_event
    = (Returned {| statusCode := 500; body := ErrorBody message |}, calls)
    /\ existsb is_chat_call calls = false.
Proof.
  destruct (@embedding_failure_ends_turn sample_price_text embeddings_down
              post_event (lit "key") (lit "a mic for podcasts")
              [mic_2; mic_1])
    as (message & calls & H & Hno & _);
    try reflexivity; try discriminate; try exact I.
  exists message, calls. split; assumption.
Defined.

(** C2 as it is stated fails: with the embedding service down and the chat
    model ready to answer, no conversion of prices makes the function
    return the model's response; it answers 500. *)
Lemma embedding_failure_aborts_turn :
  ~ (exists number_toString chatResult,
       fst (invoke number_toString embeddings_down post_event)
       = Returned {| statusCode := 200; body := ResultBody chatResult |}).
Proof.
  intros (nts & chatResult & H). vm_compute in H. discriminate H.
Qed.

Example embedding_failure_response :
  invoke sample_price_text embeddings_down post_event
  = (Returned {| statusCode := 500;
                 body := ErrorBody
                           (lit "Failed to get embeddings: Service Unavailable") |},
     [ReadProducts;
      FetchEmbeddings (lit "a mic for podcasts"
                       :: map productDoc [mic_2; mic_1]);
      LogError; LogError]).
Proof. vm_compute. reflexivity. Qed.

End HandlerFacts.

(* ================================================================== *)
(** * The busy flag *)
(* ================================================================== *)

Module SessionFacts.

Import Session Samples.

Local Unset Implicit Arguments.

(** Unfolding the state updates down to the record, and reading its
    fields. *)
Ltac fields :=
  cbn [mode messages inputText isTyping isVoiceActive chatSessionRef
       audioContextRef voiceSessionRef nextStartTimeRef audioSourcesRef
       effects fresh ui catalog inflight fst snd negb orb andb truthy
       app length begun products_of Direct.tool_calls fold_left
       direct_other] in *.

Ltac updates :=
  cbn [Direct.submit_finally Direct.submit_catch addMessage setMessages
       setMode setInputText setIsTyping setIsVoiceActive set_chatSessionRef
       set_audioContextRef set_voiceSessionRef set_nextStartTimeRef
       set_audioSourcesRef effect next_fresh Direct.new_resource
       mode messages inputText isTyping isVoiceActive chatSessionRef
       audioContextRef voiceSessionRef nextStartTimeRef audioSourcesRef
       effects fresh ui catalog inflight fst snd negb orb andb truthy
       app length begun products_of Direct.tool_calls fold_left
       direct_other] in *.

Section Invariant.

Variable Reply : Type.
Variable Other : Type.
Variable submit : list Product -> Z -> bool -> State -> State * option jsstring.
Variable settle_turn : list Product -> Z -> Reply -> State -> State.
Variable greet : list Product -> bool -> State -> State * option jsstring.
Variable settle_greeting : list Product -> Z -> Reply -> State -> State.
Variable other : list Product -> Other -> State -> State.

Hypothesis submit_busy : forall ps now c s,
    isTyping s = true -> submit ps now c s = (s, None).
Hypothesis submit_begun : forall ps now c s s' q,
    submit ps now c s = (s', Some q) ->
    isTyping s' = true /\ messages s' <> [].
Hypothesis submit_idle : forall ps now c s s',
    isTyping s = false -> submit ps now c s = (s', None) ->
    isTyping s' = false.
Hypothesis settle_turn_idle : forall ps now r s,
    isTyping (settle_turn ps now r s) = false.
Hypothesis settle_greeting_idle : forall ps now r s,
    isTyping (settle_greeting ps now r s) = false.
Hypothesis greet_guard : forall ps c s,
    messages s <> [] -> greet ps c s = (s, None).
Hypothesis greet_empty : forall c s, greet [] c s = (s, None).
Hypothesis greet_begun : forall ps c s s' q,
    greet ps c s = (s', Some q) -> isTyping s' = true.
Hypothesis greet_idle : forall ps c s s',
    greet ps c s = (s', None) -> s' = s.
Hypothesis other_typing : forall ps o s,
    isTyping (other ps o s) = isTyping s.
Hypothesis other_messages : forall ps o s,
    messages s <> [] -> messages (other ps o s) <> [].

Let step := step submit settle_turn greet settle_greeting other.

Lemma mounted_consistent (c : option (list Product)) (created : bool) :
  consistent (mounted greet c created).
Proof.
  unfold mounted.
  destruct (greet (products_of c) created initial) as [s [q|]] eqn:Hg.
  - right; left. fields. split; [eauto|]. split; [reflexivity|].
    destruct c; [discriminate|]. fields.
    rewrite greet_empty in Hg. discriminate Hg.
  - left. fields. apply greet_idle in Hg. subst s. split; reflexivity.
Qed.

Lemma step_consistent (e : Event Reply Other) (sys : System) :
  consistent sys -> consistent (step e sys).
Proof.
  intros H. destruct sys as [s c fl]. unfold consistent in *. fields.
  destruct e as [t | now created | now r | ps' created | o];
    unfold step, Session.step; fields.
  - exact H.
  - destruct (submit (products_of c) now created s) as [s' q] eqn:Hs. fields.
    destruct H as [[Ht Hf] | [(Ht & Hf & Hc) | (Ht & Hf & Hm)]]; subst fl.
    + destruct q as [q|]; fields.
      * right; right. destruct (submit_begun _ _ _ _ _ _ Hs). auto.
      * left. split; [eapply submit_idle; eauto | reflexivity].
    + rewrite (submit_busy _ _ _ _ Ht) in Hs. inversion Hs; subst.
      right; left. auto.
    + rewrite (submit_busy _ _ _ _ Ht) in Hs. inversion Hs; subst.
      right; right. auto.
  - destruct H as [[Ht Hf] | [(Ht & Hf & Hc) | (Ht & Hf & Hm)]]; subst fl;
      fields; left; auto.
  - destruct c as [ps|]; fields; [exact H|].
    destruct (greet ps' created s) as [s' q] eqn:Hg. fields.
    destruct H as [[Ht Hf] | [(Ht & Hf & Hc) | (Ht & Hf & Hm)]]; subst fl.
    + destruct q as [q|]; fields.
      * right; left. split; [eauto|]. split; [reflexivity | discriminate].
      * left. apply greet_idle in Hg. subst s'. auto.
    + congruence.
    + rewrite (greet_guard _ _ _ Hm) in Hg. inversion Hg; subst.
      right; right. auto.
  - rewrite other_typing.
    destruct H as [[Ht Hf] | [(Ht & Hf & Hc) | (Ht & Hf & Hm)]];
      [left | right; left | right; right]; repeat split; auto.
Qed.

Lemma run_consistent (events : list (Event Reply Other)) :
  forall sys, consistent sys ->
              consistent (fold_left (fun sys e => step e sys) events sys).
Proof.
  induction events as [|e events IH]; intros sys H; fields; [exact H|].
  apply IH, step_consistent, H.
Qed.

Lemma consistent_busy (sys : System) :
  consistent sys ->
  length (inflight sys) <= 1
  /\ (isTyping (ui sys) = true <-> inflight sys <> []).
Proof.
  intros [[Ht Hf] | [(Ht & Hf & _) | (Ht & Hf & _)]]; rewrite Hf, Ht;
    fields; split; try lia; split; congruence.
Qed.

Lemma busy_rejects (sys : System) (now : Z) (created : bool) :
  isTyping (ui sys) = true -> step (Submitted _ _ now created) sys = sys.
Proof.
  intros Ht. unfold step, Session.step.
  rewrite (submit_busy _ _ _ _ Ht). fields.
  destruct sys; fields. now rewrite app_nil_r.
Qed.

End Invariant.

(** ** The version of [src/types.ts] *)

Section DirectHandlers.

Variable toLowerCase : jsstring -> jsstring.

Lemma direct_submit_busy ps now c s :
  isTyping s = true -> Direct.handleTextSubmit toLowerCase ps now c s = (s, None).
Proof.
  intros H. unfold Direct.handleTextSubmit. rewrite H.
  now rewrite orb_true_r.
Qed.

Lemma direct_submit_begun ps now c s s' q :
  Direct.handleTextSubmit toLowerCase ps now c s = (s', Some q) ->
  isTyping s' = true /\ messages s' <> [].
Proof.
  unfold Direct.handleTextSubmit.
  destruct (negb (truthy (trim (inputText s))) || isTyping s);
    [discriminate|].
  updates.
  destruct (negb (chatSessionRef s) && negb c); [discriminate|].
  intros H. inversion H; subst; clear H.
  destruct (chatSessionRef s); fields; split; try reflexivity;
    intros E; now apply app_eq_nil in E.
Qed.

Lemma direct_submit_idle ps now c s s' :
  isTyping s = false ->
  Direct.handleTextSubmit toLowerCase ps now c s = (s', None) ->
  isTyping s' = false.
Proof.
  intros Ht. unfold Direct.handleTextSubmit.
  destruct (negb (truthy (trim (inputText s))) || isTyping s).
  - intros H. inversion H; subst. exact Ht.
  - updates.
    destruct (negb (chatSessionRef s) && negb c); [|discriminate].
    intros H. inversion H; subst. reflexivity.
Qed.

Lemma direct_settle_turn_idle ps now r s :
  isTyping (Direct.handleTextSubmit_settle ps now r s) = false.
Proof. reflexivity. Qed.

Lemma direct_settle_greeting_idle ps now r s :
  isTyping (Direct.initChat_settle ps now r s) = false.
Proof. reflexivity. Qed.

Lemma direct_greet_guard ps c s :
  messages s <> [] -> Direct.products_effect ps c s = (s, None).
Proof.
  intros H. unfold Direct.products_effect.
  destruct (messages s); [congruence|]. reflexivity.
Qed.

Lemma direct_greet_begun ps c s s' q :
  Direct.products_effect ps c s = (s', Some q) -> isTyping s' = true.
Proof.
  unfold Direct.products_effect.
  destruct (messages s), ps, c; try discriminate.
  intros H. inversion H. reflexivity.
Qed.

Lemma direct_greet_idle ps c s s' :
  Direct.products_effect ps c s = (s', None) -> s' = s.
Proof.
  unfold Direct.products_effect.
  destruct (messages s), ps, c; try discriminate;
    intros H; now inversion H.
Qed.

(** The voice handlers leave the busy flag alone and remove no message. *)
Lemma tool_calls_keeps ps now fcs :
  forall s,
    isTyping (fst (Direct.tool_calls ps now fcs s)) = isTyping s
    /\ exists more,
        messages (fst (Direct.tool_calls ps now fcs s)) = messages s ++ more.
Proof.
  induction fcs as [|fc fcs IH]; intros s; fields.
  - split; [reflexivity|]. exists []. now rewrite app_nil_r.
  - destruct (str_eqb (Direct.call_name fc) Direct.recommend_product);
      [|apply IH].
    destruct (Direct.call_args fc) as [args|]; fields.
    + destruct (IH (effect (ToolResponseSent (Direct.call_id fc))
                           match Direct.resolve ps args with
                           | Some prod =>
                               addMessage now assistant
                                 match Direct.reasoning args with
                                 | Some r => r
                                 | None => []
                                 end (Some prod) (Direct.reasoning args) s
                           | None => s
                           end)) as [Ht [more Hm]].
      rewrite Ht, Hm. destruct (Direct.resolve ps args); updates.
      * split; [reflexivity|]. eexists. now rewrite <- app_assoc.
      * split; [reflexivity|]. now exists more.
    + split; [reflexivity|]. exists []. now rewrite app_nil_r.
Qed.

Lemma stop_all_keeps (l : list nat) :
  forall s,
    let s' := fold_left (fun s src => effect (SourceStopped src) s) l s in
    isTyping s' = isTyping s /\ messages s' = messages s.
Proof.
  induction l as [|x l IH]; intros s; fields; [split; reflexivity|].
  destruct (IH (effect (SourceStopped x) s)) as [H1 H2].
  fields. now rewrite H1, H2.
Qed.

Lemma on_interrupted_keeps m s :
  isTyping (Direct.on_interrupted m s) = isTyping s
  /\ messages (Direct.on_interrupted m s) = messages s.
Proof.
  unfold Direct.on_interrupted. destruct (Direct.interrupted m);
    [|split; reflexivity].
  fields. apply stop_all_keeps.
Qed.

Lemma direct_other_keeps ps o s :
  isTyping (direct_other ps o s) = isTyping s
  /\ exists more, messages (direct_other ps o s) = messages s ++ more.
Proof.
  destruct o as [v | now t m | d m | src |]; fields.
  - unfold Direct.toggleMode, Direct.startVoiceSession,
      Direct.stopVoiceSession, Direct.new_resource.
    split; [|exists []; rewrite app_nil_r].
    all: destruct (mode s), v; updates;
      try destruct (voiceSessionRef s); updates;
      try destruct (audioContextRef s) as [[? ?]|];
      reflexivity.
  - unfold Direct.onmessage.
    destruct (Direct.toolCall m) as [fcs|].
    + destruct (tool_calls_keeps ps now fcs s) as [Ht Hm].
      destruct (Direct.tool_calls ps now fcs s) as [s1 done]. fields.
      destruct done; fields; [|auto].
      destruct (Direct.audioData m) as [[|? ?]|]; fields.
      * destruct (on_interrupted_keeps m s1) as [H1 H2]. now rewrite H1, H2.
      * destruct (audioContextRef s1); fields; auto.
      * destruct (on_interrupted_keeps m s1) as [H1 H2]. now rewrite H1, H2.
    + assert (Hnil : exists more, messages s = messages s ++ more)
        by (exists []; now rewrite app_nil_r).
      destruct (Direct.audioData m) as [[|? ?]|]; fields.
      * destruct (on_interrupted_keeps m s) as [H1 H2]. now rewrite H1, H2.
      * destruct (audioContextRef s); fields; auto.
      * destruct (on_interrupted_keeps m s) as [H1 H2]. now rewrite H1, H2.
  - unfold Direct.onmessage_decoded.
    match goal with
    | |- context [Direct.on_interrupted m ?x] =>
        destruct (on_interrupted_keeps m x) as [H1 H2]; rewrite H1, H2
    end.
    split; [reflexivity|]. exists []. fields. now rewrite app_nil_r.
  - split; [reflexivity|]. exists []. fields. now rewrite app_nil_r.
  - split; [reflexivity|]. exists []. fields. now rewrite app_nil_r.
Qed.

Lemma direct_other_typing ps o s :
  isTyping (direct_other ps o s) = isTyping s.
Proof. apply direct_other_keeps. Qed.

Lemma direct_other_messages ps o s :
  messages s <> [] -> messages (direct_other ps o s) <> [].
Proof.
  intros H. destruct (direct_other_keeps ps o s) as [_ [more Hm]].
  rewrite Hm. intros E. apply app_eq_nil in E. tauto.
Qed.

Lemma direct_greet_empty (c : bool) s :
  Direct.products_effect [] c s = (s, None).
Proof. unfold Direct.products_effect. now destruct (messages s). Qed.

Lemma direct_consistent c created events :
  consistent (direct_run toLowerCase events (direct_mounted c created)).
Proof.
  unfold direct_run, direct_step, direct_mounted.
  apply run_consistent; try apply mounted_consistent;
    first [ apply direct_submit_busy | apply direct_submit_begun
          | apply direct_submit_idle | apply direct_greet_guard
          | apply direct_greet_empty | apply direct_greet_begun
          | apply direct_greet_idle | apply direct_other_typing
          | apply direct_other_messages | reflexivity ].
Qed.

End DirectHandlers.

(** ** The version of [src/components/ChatInterface.tsx] *)

Lemma proxy_submit_busy now s :
  isTyping s = true -> Proxy.handleTextSubmit now s = (s, None).
Proof.
  intros H. unfold Proxy.handleTextSubmit. rewrite H. now rewrite orb_true_r.
Qed.

Lemma proxy_submit_begun now s s' q :
  Proxy.handleTextSubmit now s = (s', Some q) ->
  isTyping s' = true /\ messages s' <> [].
Proof.
  unfold Proxy.handleTextSubmit.
  destruct (negb (truthy (trim (inputText s))) || isTyping s);
    [discriminate|].
  intros H. inversion H; subst; clear H. fields.
  split; [reflexivity|]. intros E. now apply app_eq_nil in E.
Qed.

Lemma proxy_submit_idle now s s' :
  isTyping s = false -> Proxy.handleTextSubmit now s = (s', None) ->
  isTyping s' = false.
Proof.
  intros Ht. unfold Proxy.handleTextSubmit.
  destruct (negb (truthy (trim (inputText s))) || isTyping s);
    [|discriminate].
  intros H. inversion H; subst. exact Ht.
Qed.

Lemma proxy_toggle_keeps s :
  isTyping (Proxy.toggleMode s) = isTyping s
  /\ messages (Proxy.toggleMode s) = messages s.
Proof.
  unfold Proxy.toggleMode, Proxy.startVoiceSession, Proxy.stopVoiceSession.
  destruct (mode s); updates; [split; reflexivity|].
  destruct (voiceSessionRef s); updates;
    destruct (audioContextRef s) as [[? ?]|]; split; reflexivity.
Qed.

Lemma proxy_consistent c events :
  consistent (proxy_run events (proxy_mounted c)).
Proof.
  unfold proxy_run, proxy_step, proxy_mounted.
  assert (Hbegun : forall ps (c0 : bool) s s' q,
             Proxy.products_effect ps s = (s', Some q) -> isTyping s' = true).
  { intros ps _ s s' q. unfold Proxy.products_effect.
    destruct (messages s), ps; try discriminate.
    intros H. inversion H. reflexivity. }
  assert (Hidle : forall ps (c0 : bool) s s',
             Proxy.products_effect ps s = (s', None) -> s' = s).
  { intros ps _ s s'. unfold Proxy.products_effect.
    destruct (messages s), ps; try discriminate; intros H; now inversion H. }
  assert (Hempty : forall (c0 : bool) s, Proxy.products_effect [] s = (s, None)).
  { intros _ s. unfold Proxy.products_effect. now destruct (messages s). }
  apply run_consistent; auto.
  - intros _ now _ s. apply proxy_submit_busy.
  - intros _ now _ s s' q. apply proxy_submit_begun.
  - intros _ now _ s s'. apply proxy_submit_idle.
  - intros ps _ s H. unfold Proxy.products_effect.
    destruct (messages s); [congruence | reflexivity].
  - intros _ _ s. apply proxy_toggle_keeps.
  - intros _ _ s. now rewrite (proj2 (proxy_toggle_keeps s)).
  - apply mounted_consistent; auto.
Qed.

(** C8. In both versions of the component, from the mounting on and
    whatever the events: at most one model call is in flight; the typing
    indicator [isTyping] is up exactly when one is; and a submission made
    while it is up changes nothing: no message is appended and no second
    call begins before the call in flight has settled, which is when its
    reply or the fallback is appended and the flag is cleared. *)
Theorem busy_flag_guards_turns (toLowerCase : jsstring -> jsstring)
        (c : option (list Product)) (created : bool)
        (direct_events : list (Event Direct.Settled DirectOther))
        (proxy_events : list (Event Proxy.Fetched unit)) :
  let d := direct_run toLowerCase direct_events (direct_mounted c created) in
  let p := proxy_run proxy_events (proxy_mounted c) in
  (length (inflight d) <= 1
   /\ (isTyping (ui d) = true <-> inflight d <> [])
   /\ (isTyping (ui d) = true ->
       forall now cr, direct_step toLowerCase (Submitted _ _ now cr) d = d))
  /\ (length (inflight p) <= 1
      /\ (isTyping (ui p) = true <-> inflight p <> [])
      /\ (isTyping (ui p) = true ->
          forall now cr, proxy_step (Submitted _ _ now cr) p = p)).
Proof.
  intros d p. split.
  - destruct (consistent_busy d (direct_consistent toLowerCase c created
                                   direct_events)) as [H1 H2].
    split; [exact H1|]. split; [exact H2|].
    intros Ht now cr. unfold direct_step.
    apply busy_rejects; [apply direct_submit_busy | exact Ht].
  - destruct (consistent_busy p (proxy_consistent c proxy_events))
      as [H1 H2].
    split; [exact H1|]. split; [exact H2|].
    intros Ht now cr. unfold proxy_step.
    apply busy_rejects; [|exact Ht].
    intros _ now0 _ s. apply proxy_submit_busy.
Qed.

(** A slow model call: the user types and submits, and submits again before
    the call settles; the second submission is ignored. *)
Lemma busy_flag_guards_turns_witness :
  let events := [Typed Direct.Settled DirectOther (lit "a mic");
                 Submitted _ _ 1000 true;
                 Typed _ _ (lit "hello?")] in
  let d := direct_run toLowerCase_latin events (direct_mounted None true) in
  isTyping (ui d) = true
  /\ inflight d = [Turn]
  /\ direct_step toLowerCase_latin (Submitted _ _ 2000 true) d = d.
Proof.
  intros events d.
  destruct (busy_flag_guards_turns toLowerCase_latin None true events [])
    as [(_ & _ & H) _].
  split; [reflexivity|]. split; [reflexivity|].
  apply H. reflexivity.
Defined.

(* ================================================================== *)
(** * A turn whose model call fails *)
(* ================================================================== *)

Section FailedTurn.

Variable toLowerCase : jsstring -> jsstring.
Variable products : list Product.

Lemma direct_accepts now created s :
  isTyping s = false -> trim (inputText s) <> [] ->
  (chatSessionRef s = true \/ created = true) ->
  exists s1 q,
    Direct.handleTextSubmit toLowerCase products now created s = (s1, Some q)
    /\ messages s1 = messages s ++ [user_message now (trim (inputText s))]
    /\ isTyping s1 = true /\ chatSessionRef s1 = true.
Proof.
  intros Ht Hin Hc. unfold Direct.handleTextSubmit. rewrite Ht.
  destruct (trim (inputText s)) as [|c0 cs] eqn:Htrim; [congruence|].
  updates.
  assert (Hgo : negb (chatSessionRef s) && negb created = false)
    by (destruct Hc as [Hc | Hc]; rewrite Hc;
        [reflexivity | apply andb_false_r]).
  rewrite Hgo.
  destruct (chatSessionRef s) eqn:Hcs; eexists; eexists;
    (split; [reflexivity|]); updates; rewrite ?Hcs; repeat split; reflexivity.
Qed.

Lemma proxy_accepts now s :
  isTyping s = false -> trim (inputText s) <> [] ->
  exists s1 q,
    Proxy.handleTextSubmit now s = (s1, Some q)
    /\ messages s1 = messages s ++ [user_message now (trim (inputText s))]
    /\ isTyping s1 = true.
Proof.
  intros Ht Hin. unfold Proxy.handleTextSubmit. rewrite Ht.
  destruct (trim (inputText s)) as [|c0 cs] eqn:Htrim; [congruence|].
  fields. eexists. eexists. split; [reflexivity|]. fields. auto.
Qed.

(** C4. A text turn is one accepted submission: the flag is down and the
    input is not blank. When its model call fails (in the version of
    [src/types.ts] the chat session cannot be created or [sendMessage]
    rejects; in the version of [src/components/ChatInterface.tsx] the
    fetch rejects, the status is an error, or the body cannot be read),
    the messages afterwards are the messages before, the user's message
    and one assistant message with the fixed fallback text and no
    recommendation, in this order; the busy flag is down; and the next
    submission of a non-blank input begins a turn. *)
Theorem failed_turn_appends_fallback (now now' : Z) (s : State) :
  isTyping s = false -> trim (inputText s) <> [] ->
  let said := user_message now (trim (inputText s)) in
  (* [sendMessage] rejects *)
  (forall created s1 q,
      Direct.handleTextSubmit toLowerCase products now created s
      = (s1, Some q) ->
      let s2 := Direct.handleTextSubmit_settle products now'
                                               Direct.RejectedCall s1 in
      messages s2 = messages s ++ [said; fallback_message now']
      /\ isTyping s2 = false
      /\ forall t now'' created',
          trim t <> [] ->
          exists s3 q',
            Direct.handleTextSubmit toLowerCase products now'' created'
                                    (setInputText t s2) = (s3, Some q'))
  (* the chat session cannot be created *)
  /\ (chatSessionRef s = false ->
      let (s1, q) :=
        Direct.handleTextSubmit toLowerCase products now false s in
      q = None
      /\ messages s1 = messages s ++ [said; fallback_message now]
      /\ isTyping s1 = false
      /\ forall t now'',
          trim t <> [] ->
          exists s3 q',
            Direct.handleTextSubmit toLowerCase products now'' true
                                    (setInputText t s1) = (s3, Some q'))
  (* the server function cannot be reached or answers with an error *)
  /\ (forall r s1 q,
        Proxy.call_failed r = true ->
        Proxy.handleTextSubmit now s = (s1, Some q) ->
        let s2 := Proxy.handleTextSubmit_settle now' r s1 in
        messages s2 = messages s ++ [said; fallback_message now']
        /\ isTyping s2 = false
        /\ forall t now'',
            trim t <> [] ->
            exists s3 q',
              Proxy.handleTextSubmit now'' (setInputText t s2)
              = (s3, Some q')).
Proof.
  intros Ht Hin said. split; [|split].
  - intros created s1 q Hsub s2.
    assert (Hc : chatSessionRef s = true \/ created = true).
    { unfold Direct.handleTextSubmit in Hsub. rewrite Ht in Hsub.
      destruct (trim (inputText s)); [congruence|]. updates.
      destruct (chatSessionRef s), created; auto. discriminate. }
    destruct (direct_accepts now created s Ht Hin Hc)
      as (s1' & q' & Hsub' & Hm & Ht1 & Hc1).
    rewrite Hsub in Hsub'. inversion Hsub'; subst s1' q'; clear Hsub'.
    subst s2. unfold Direct.handleTextSubmit_settle. updates.
    rewrite Hm, <- app_assoc. fields.
    split; [reflexivity|]. split; [reflexivity|].
    intros t now'' created' Hblank.
    match goal with
    | |- context [Direct.handleTextSubmit _ _ _ _ ?x] =>
        destruct (direct_accepts now'' created' x) as (s3 & q3 & H3 & _)
    end; fields; auto.
    eauto.
  - intros Hc. unfold Direct.handleTextSubmit at 1. rewrite Ht.
    destruct (trim (inputText s)) as [|c0 cs] eqn:Htrim; [congruence|].
    updates. rewrite Hc. updates. rewrite <- app_assoc. fields.
    split; [reflexivity|]. split; [reflexivity|]. split; [reflexivity|].
    intros t now'' Hblank.
    match goal with
    | |- context [Direct.handleTextSubmit _ _ _ _ ?x] =>
        destruct (direct_accepts now'' true x) as (s3 & q3 & H3 & _)
    end; fields; auto.
    eauto.
  - intros r s1 q Hr Hsub s2.
    destruct (proxy_accepts now s Ht Hin) as (s1' & q' & Hsub' & Hm & Ht1).
    rewrite Hsub in Hsub'. inversion Hsub'; subst s1' q'; clear Hsub'.
    subst s2. unfold Proxy.handleTextSubmit_settle.
    assert (Hs : messages
                   (match r with
                    | Proxy.FetchResponse true (Some data) =>
                        addMessage now' assistant (Proxy.response_text data)
                                   None None s1
                    | _ => addMessage now' assistant fallback_text None None
                                      (effect ConsoleError s1)
                    end)
                 = messages s1 ++ [fallback_message now']).
    { destruct r as [|[] [data|]]; try discriminate; reflexivity. }
    updates. rewrite Hs, Hm, <- app_assoc. fields.
    split; [reflexivity|]. split; [reflexivity|].
    intros t now'' Hblank.
    match goal with
    | |- context [Proxy.handleTextSubmit _ ?x] =>
        destruct (proxy_accepts now'' x) as (s3 & q3 & H3 & _)
    end; fields; auto.
    eauto.
Qed.

End FailedTurn.

(** The model call throws a network error in the middle of a turn. *)
Lemma failed_turn_appends_fallback_witness :
  let s := setInputText (lit " a mic for podcasts ") initial in
  let s1 := fst (Direct.handleTextSubmit toLowerCase_latin [mic_2; mic_1]
                                         1000 true s) in
  let s2 := Direct.handleTextSubmit_settle [mic_2; mic_1] 2000
                                           Direct.RejectedCall s1 in
  messages s2 = [user_message 1000 (lit "a mic for podcasts");
                 fallback_message 2000]
  /\ isTyping s2 = false.
Proof.
  intros s s1 s2.
  assert (Hin : trim (inputText s) <> []) by (vm_compute; discriminate).
  destruct (failed_turn_appends_fallback toLowerCase_latin [mic_2; mic_1]
              1000 2000 s eq_refl Hin) as [H _].
  destruct (H true s1 _ eq_refl) as (Hm & Ht & _).
  split; [exact Hm | exact Ht].
Defined.

End SessionFacts.

(* ================================================================== *)
(** * Recommendations and empty replies *)
(* ================================================================== *)

Module MessageFacts.

Import SessionFacts Samples.

Local Unset Implicit Arguments.

Section Recommendation.

Variable products : list Product.

Lemma tool_calls_unresolved now fcs :
  Forall (Direct.unresolved products) fcs ->
  forall s,
    messages (fst (Direct.tool_calls products now fcs s)) = messages s
    /\ snd (Direct.tool_calls products now fcs s) = true.
Proof.
  induction 1 as [|fc fcs Hfc _ IH]; intros s; cbn [Direct.tool_calls].
  - split; reflexivity.
  - destruct (str_eqb (Direct.call_name fc) Direct.recommend_product) eqn:E;
      [|apply IH].
    destruct (Hfc E) as (args & Ha & Hr). rewrite Ha, Hr.
    destruct (IH (effect (ToolResponseSent (Direct.call_id fc)) s))
      as [H1 H2].
    now rewrite H1, H2.
Qed.

(** C5. When the [recommend_product] calls of a model response carry a
    [productId] that names no product of the catalog, [processAiResponse]
    does not throw and attaches no recommendation: a response with text
    yields one assistant message with that text and no recommendation, a
    response without text yields no message. In voice mode such calls
    append no message and the loop over them completes. *)
Theorem unresolved_recommendation_dropped
        (now : Z) (response : Direct.ModelResponse)
        (fcs : list Direct.FunctionCall) (s : State) :
  (forall calls, Direct.functionCalls response = Some calls ->
                 Forall (Direct.unresolved products) calls) ->
  Forall (Direct.unresolved products) fcs ->
  (exists s',
      Direct.processAiResponse products now response s = Some s'
      /\ match Direct.reply_text response with
         | [] => s' = s
         | _ :: _ =>
             exists why,
             messages s'
             = messages s
               ++ [{| msg_id := now_toString now; role := assistant;
                      content := Direct.reply_text response; timestamp := now;
                      recommendation := None; reason := why |}]
         end)
  /\ messages (fst (Direct.tool_calls products now fcs s)) = messages s
  /\ snd (Direct.tool_calls products now fcs s) = true.
Proof.
  intros Hcalls Hfcs. split; [|now apply tool_calls_unresolved].
  unfold Direct.processAiResponse, Direct.reply_text.
  assert (Hfound :
            exists why,
              match Direct.functionCalls response with
              | Some (call :: _) =>
                  if str_eqb (Direct.call_name call) Direct.recommend_product
                  then match Direct.call_args call with
                       | Some args =>
                           Some (Direct.resolve products args,
                                 Direct.reasoning args)
                       | None => None
                       end
                  else Some (None, None)
              | _ => Some (None, None)
              end = Some (None, why)).
  { destruct (Direct.functionCalls response) as [[|call rest]|] eqn:E;
      try (now exists None).
    specialize (Hcalls _ eq_refl). inversion Hcalls as [|? ? Hc _]; subst.
    destruct (str_eqb (Direct.call_name call) Direct.recommend_product)
             eqn:En; [|now exists None].
    destruct (Hc En) as (args & Ha & Hr). rewrite Ha, Hr.
    now exists (Direct.reasoning args). }
  destruct Hfound as [why Hfound]. rewrite Hfound.
  destruct (Direct.resp_text response) as [[|c t]|]; cbn [truthy orb Direct.is_some].
  - now exists s.
  - eexists. split; [reflexivity|]. now exists why.
  - now exists s.
Qed.

End Recommendation.

Lemma unresolved_recommendation_dropped_witness :
  let response :=
    {| Direct.resp_text := Some (lit "Tell me about your desk.");
       Direct.functionCalls := Some [missing_call] |} in
  exists s',
    Direct.processAiResponse [mic_2; mic_1] 1000 response initial = Some s'
    /\ map content (messages s') = [lit "Tell me about your desk."]
    /\ map recommendation (messages s') = [None].
Proof.
  intros response.
  assert (Hu : Direct.unresolved [mic_2; mic_1] missing_call).
  { intros _. eexists. split; reflexivity. }
  destruct (unresolved_recommendation_dropped [mic_2; mic_1] 1000 response
              [missing_call] initial) as [(s' & Hs & Hm) _].
  - intros calls E. inversion E; subst. now constructor.
  - now constructor.
  - exists s'. split; [exact Hs|].
    cbn in Hm. destruct Hm as [why Hm]. rewrite Hm. split; reflexivity.
Defined.

(** In the version of [src/types.ts] no message with empty text and no
    recommendation is appended: [processAiResponse] appends at most one
    message, and that has text or a recommendation. *)
Lemma direct_appends_no_empty_message products now response s s' :
  Direct.processAiResponse products now response s = Some s' ->
  s' = s
  \/ exists m, messages s' = messages s ++ [m]
               /\ (content m <> [] \/ recommendation m <> None).
Proof.
  unfold Direct.processAiResponse.
  destruct (match Direct.functionCalls response with
            | Some (call :: _) => _
            | _ => _
            end) as [[rec why]|]; [|discriminate].
  destruct (Direct.resp_text response) as [[|c t]|], rec as [p|];
    cbn [truthy orb Direct.is_some]; intros H; inversion H; subst; auto;
    right; eexists; (split; [reflexivity|]); cbn [content recommendation];
    first [left; discriminate | right; discriminate].
Qed.

(** C6, in the version of [src/components/ChatInterface.tsx]. The server
    function answers 200 with a body that holds no candidate text; the
    call has not failed, and the component appends an assistant message
    whose text is empty and that carries no recommendation. *)
Theorem proxy_appends_empty_message (now : Z) (s : State) :
  Proxy.call_failed blocked_reply = false
  /\ messages (Proxy.handleTextSubmit_settle now blocked_reply s)
     = messages s ++ [empty_message now].
Proof. split; reflexivity. Qed.

End MessageFacts.

(* ================================================================== *)
(** * Voice mode: playback schedule and failed start *)
(* ================================================================== *)

Module VoiceFacts.

Import SessionFacts FloatFacts Samples.

Local Unset Implicit Arguments.
Local Open Scope float_scope.

Lemma started_effect (e : Effect) (s : State) :
  started (effect e s)
  = started s ++ match e with
                 | SourceStarted src w d => [(src, w, d)]
                 | _ => []
                 end.
Proof.
  unfold started. cbn [effect effects]. rewrite flat_map_app. cbn [flat_map].
  now rewrite app_nil_r.
Qed.

Lemma started_effect_other (e : Effect) (s : State) :
  is_source_start e = false -> started (effect e s) = started s.
Proof.
  intros H. rewrite started_effect.
  destruct e; try discriminate; apply app_nil_r.
Qed.

Lemma alerts_effect (e : Effect) (s : State) :
  alerts (effect e s)
  = alerts s ++ match e with Alert n => [n] | _ => [] end.
Proof.
  unfold alerts. cbn [effect effects]. rewrite flat_map_app. cbn [flat_map].
  now rewrite app_nil_r.
Qed.

Lemma liveStreams_effect (e : Effect) (s : State) :
  liveStreams (effect e s)
  = liveStreams s ++ match e with StreamGranted m => [m] | _ => [] end.
Proof.
  unfold liveStreams. cbn [effect effects]. rewrite flat_map_app.
  cbn [flat_map]. now rewrite app_nil_r.
Qed.

Lemma openContexts_effect_other (e : Effect) (s : State) :
  is_context_event e = false -> openContexts (effect e s) = openContexts s.
Proof.
  intros H. unfold openContexts, closed_context. cbn [effect effects].
  rewrite flat_map_app.
  replace (flat_map _ [e]) with (@nil nat)
    by (destruct e; try discriminate; reflexivity).
  rewrite app_nil_r. apply flat_map_ext. intros a.
  destruct a; try reflexivity.
  rewrite existsb_app. cbn [existsb].
  destruct e; try discriminate; now rewrite !orb_false_r.
Qed.

(** ** The tool calls leave the playback state alone *)

Lemma tool_calls_playback ps now fcs :
  forall s,
    nextStartTimeRef (fst (Direct.tool_calls ps now fcs s))
    = nextStartTimeRef s
    /\ audioContextRef (fst (Direct.tool_calls ps now fcs s))
       = audioContextRef s
    /\ started (fst (Direct.tool_calls ps now fcs s)) = started s.
Proof.
  induction fcs as [|fc fcs IH]; intros s; cbn [Direct.tool_calls].
  - repeat split; reflexivity.
  - destruct (str_eqb (Direct.call_name fc) Direct.recommend_product);
      [|apply IH].
    destruct (Direct.call_args fc) as [args|];
      [|repeat split; reflexivity].
    match goal with
    | |- context [Direct.tool_calls ps now fcs ?x] =>
        destruct (IH x) as (H1 & H2 & H3)
    end.
    rewrite H1, H2, H3, started_effect_other by reflexivity.
    destruct (Direct.resolve ps args); repeat split; reflexivity.
Qed.

Lemma stop_all_started (l : list nat) :
  forall s,
    started (fold_left (fun s src => effect (SourceStopped src) s) l s)
    = started s.
Proof.
  induction l as [|x l IH]; intros s; cbn [fold_left]; [reflexivity|].
  rewrite IH. now apply started_effect_other.
Qed.

Lemma on_interrupted_started m s :
  started (Direct.on_interrupted m s) = started s.
Proof.
  unfold Direct.on_interrupted. destruct (Direct.interrupted m);
    [|reflexivity].
  unfold started at 1. cbn [set_nextStartTimeRef set_audioSourcesRef effects].
  apply stop_all_started.
Qed.

(** A message that reaches the decoding has moved the cursor to the maximum
    of the cursor and the clock, and has started nothing yet. *)
Lemma onmessage_suspended ps now t m s :
  snd (Direct.onmessage ps now t m s) = true ->
  let s' := fst (Direct.onmessage ps now t m s) in
  nextStartTimeRef s' = Math_max (nextStartTimeRef s) t
  /\ started s' = started s.
Proof.
  unfold Direct.onmessage.
  assert (Htc : exists s0 done,
             match Direct.toolCall m with
             | Some fcs => Direct.tool_calls ps now fcs s
             | None => (s, true)
             end = (s0, done)
             /\ nextStartTimeRef s0 = nextStartTimeRef s
             /\ started s0 = started s).
  { destruct (Direct.toolCall m) as [fcs|].
    - destruct (tool_calls_playback ps now fcs s) as (H1 & _ & H5).
      destruct (Direct.tool_calls ps now fcs s) as [s0 done].
      exists s0, done. auto.
    - exists s, true. auto. }
  destruct Htc as (s0 & done & -> & Hc & Hs).
  destruct done; [|discriminate].
  destruct (Direct.audioData m) as [[|c a]|]; try discriminate.
  destruct (audioContextRef s0); [|discriminate].
  intros _. cbn [fst set_nextStartTimeRef nextStartTimeRef].
  rewrite Hc. split; [reflexivity|]. exact Hs.
Qed.

(** The decoded segment starts at the cursor, which then advances by the
    duration, unless the message also signals an interruption. *)
Lemma onmessage_decoded_schedule d m s :
  let s' := Direct.onmessage_decoded d m s in
  started s' = started s ++ [(fresh s, nextStartTimeRef s, d)]
  /\ (Direct.interrupted m = false ->
      nextStartTimeRef s' = nextStartTimeRef s + d).
Proof.
  unfold Direct.onmessage_decoded. cbn zeta. split.
  - rewrite on_interrupted_started.
    exact (started_effect
             (SourceStarted (fresh s) (nextStartTimeRef s) d) (next_fresh s)).
  - intros Hi. unfold Direct.on_interrupted. rewrite Hi. reflexivity.
Qed.

(** C7. A downlink message that carries audio, once its tool calls are
    done, reaches the decoding of the segment. The segment then starts at
    the maximum of the cursor and the clock of the output context read at
    arrival, and the cursor advances by its duration. For two such messages
    in a row, the first not signalling an interruption, the second segment
    starts no earlier than the start of the first plus its duration
    (durations, clock and cursor being non-negative numbers): when each
    message is handled to its end before the next, and also when the second
    arrives while the first is being decoded and the decodings end in
    order. *)
Theorem playback_cursor_in_order ps now1 now2 t1 t2 d1 d2 m1 m2 s :
  nonneg (nextStartTimeRef s) -> nonneg t1 -> nonneg t2 -> nonneg d1 ->
  Direct.interrupted m1 = false ->
  (let a1 := Direct.onmessage ps now1 t1 m1 s in
   let s1 := Direct.onmessage_decoded d1 m1 (fst a1) in
   let a2 := Direct.onmessage ps now2 t2 m2 s1 in
   let s2 := Direct.onmessage_decoded d2 m2 (fst a2) in
   snd a1 = true -> snd a2 = true ->
   exists src1 src2 w1 w2,
     started s2 = started s ++ [(src1, w1, d1); (src2, w2, d2)]
     /\ w1 = Math_max (nextStartTimeRef s) t1
     /\ nextStartTimeRef s1 = w1 + d1
     /\ w2 = Math_max (w1 + d1) t2
     /\ (w1 + d1 <=? w2) = true)
  /\ (let a1 := Direct.onmessage ps now1 t1 m1 s in
      let a2 := Direct.onmessage ps now2 t2 m2 (fst a1) in
      let s1 := Direct.onmessage_decoded d1 m1 (fst a2) in
      let s2 := Direct.onmessage_decoded d2 m2 s1 in
      snd a1 = true -> snd a2 = true ->
      exists src1 src2 w1 w2,
        started s2 = started s ++ [(src1, w1, d1); (src2, w2, d2)]
        /\ (Math_max (nextStartTimeRef s) t1 <=? w1) = true
        /\ w2 = w1 + d1
        /\ (w1 + d1 <=? w2) = true).
Proof.
  intros Hc Ht1 Ht2 Hd1 Hi.
  pose proof (Math_max_nonneg Hc Ht1) as Hw1.
  split.
  - intros a1 s1 a2 s2 Ha1 Ha2.
    destruct (onmessage_suspended _ _ _ _ _ Ha1) as [Hn1 Hs1].
    destruct (onmessage_decoded_schedule d1 m1 (fst a1)) as [Hst1 Hcur1].
    fold s1 in Hst1, Hcur1. specialize (Hcur1 Hi).
    destruct (onmessage_suspended _ _ _ _ _ Ha2) as [Hn2 Hs2].
    destruct (onmessage_decoded_schedule d2 m2 (fst a2)) as [Hst2 _].
    fold s2 in Hst2. fold a1 in Hn1, Hs1. fold a2 in Hn2, Hs2.
    exists (fresh (fst a1)), (fresh (fst a2)),
      (nextStartTimeRef (fst a1)), (nextStartTimeRef (fst a2)).
    rewrite Hst2, Hs2, Hst1, Hs1, <- app_assoc.
    split; [reflexivity|]. split; [exact Hn1|]. split; [exact Hcur1|].
    rewrite Hn2, Hcur1. split; [reflexivity|].
    rewrite Hn1. apply Math_max_ge_l.
    + apply nonneg_number, add_nonneg; assumption.
    + now apply nonneg_number.
  - intros a1 a2 s1 s2 Ha1 Ha2.
    destruct (onmessage_suspended _ _ _ _ _ Ha1) as [Hn1 Hs1].
    destruct (onmessage_suspended _ _ _ _ _ Ha2) as [Hn2 Hs2].
    fold a1 in Hn1, Hs1, Hn2, Hs2. fold a2 in Hn2, Hs2.
    destruct (onmessage_decoded_schedule d1 m1 (fst a2)) as [Hst1 Hcur1].
    fold s1 in Hst1, Hcur1. specialize (Hcur1 Hi).
    destruct (onmessage_decoded_schedule d2 m2 s1) as [Hst2 _].
    fold s2 in Hst2.
    exists (fresh (fst a2)), (fresh s1),
      (nextStartTimeRef (fst a2)), (nextStartTimeRef s1).
    rewrite Hst2, Hst1, Hs2, Hs1, <- app_assoc.
    split; [reflexivity|].
    rewrite Hn2, Hn1, Hcur1, Hn2, Hn1.
    split; [|split; [reflexivity|]].
    + apply Math_max_ge_l; now apply nonneg_number.
    + apply leb_refl, nonneg_number, add_nonneg; [|assumption].
      now apply Math_max_nonneg.
Qed.

Lemma playback_cursor_in_order_witness :
  let s1 := Direct.onmessage_decoded
              0.25 segment (fst (Direct.onmessage [] 1000 1.5 segment live)) in
  let s2 := Direct.onmessage_decoded
              0.25 segment (fst (Direct.onmessage [] 1100 1.625 segment s1)) in
  map (fun x => (snd (fst x), snd x)) (started s2)
  = [(1.5, 0.25); (1.75, 0.25)].
Proof.
  intros s1 s2.
  destruct (playback_cursor_in_order [] 1000 1100 1.5 1.625 0.25 0.25
                                     segment segment live
                                     eq_refl eq_refl eq_refl eq_refl eq_refl)
    as [H _].
  destruct (H eq_refl eq_refl) as (src1 & src2 & w1 & w2 & Hs & Hw1 & _ & Hw2 & _).
  fold s1 s2 in Hs. rewrite Hs, Hw2, Hw1. vm_compute. reflexivity.
Defined.

(** ** A voice session that fails to start *)

Lemma console_error_page (s : State) :
  alerts (effect ConsoleError s) = alerts s
  /\ openContexts (effect ConsoleError s) = openContexts s
  /\ liveStreams (effect ConsoleError s) = liveStreams s.
Proof.
  rewrite alerts_effect, liveStreams_effect, !app_nil_r.
  now rewrite openContexts_effect_other.
Qed.

(** C9, amended. When starting the voice session fails in the version of
    [src/types.ts] (the microphone is denied or the channel does not open),
    the session never becomes active, the mode is [text] afterwards and the
    failure is written to the console; no notice is shown. When it is the
    microphone that is denied, no audio resource has been acquired and the
    voice refs are as before. In the version of
    [src/components/ChatInterface.tsx] voice mode never starts: the mode
    button shows a notice and leaves the mode [text], and nothing is
    acquired. *)
Theorem voice_start_failure_reverts (o : Direct.VoiceStart) (s : State) :
  o <> Direct.Connected -> mode s = text ->
  (let s' := Direct.toggleMode o s in
   mode s' = text
   /\ isVoiceActive s' = isVoiceActive s
   /\ voiceSessionRef s' = voiceSessionRef s
   /\ alerts s' = alerts s
   /\ (exists before, effects s' = before ++ [ConsoleError])
   /\ (o = Direct.MicDenied ->
       audioContextRef s' = audioContextRef s
       /\ openContexts s' = openContexts s
       /\ liveStreams s' = liveStreams s))
  /\ reverted_with_notice s (Proxy.toggleMode s).
Proof.
  intros Ho Hm. split.
  - unfold Direct.toggleMode. rewrite Hm.
    destruct o; [| |congruence]; cbn [Direct.startVoiceSession].
    + destruct (console_error_page (setMode voice s)) as (Ha & Hc & Hl).
      repeat split; try reflexivity; try assumption.
      now exists (effects s).
    + unfold Direct.new_resource. updates.
      repeat split; try reflexivity; try congruence.
      * unfold alerts. updates. rewrite !flat_map_app. cbn [flat_map].
        now rewrite !app_nil_r.
      * eexists. reflexivity.
  - unfold Proxy.toggleMode. rewrite Hm. unfold Proxy.startVoiceSession.
    unfold reverted_with_notice.
    rewrite !(fun e s => eq_refl : alerts (setMode text (effect e s))
                                  = alerts (effect e s)).
    rewrite alerts_effect.
    repeat split; try reflexivity.
    + intros E. rewrite <- (app_nil_r (alerts s)) in E at 2.
      apply app_inv_head in E. discriminate E.
    + exact (openContexts_effect_other (Alert Proxy.voice_notice) s eq_refl).
    + rewrite (fun e s => eq_refl : liveStreams (setMode text (effect e s))
                                    = liveStreams (effect e s)).
      rewrite liveStreams_effect. apply app_nil_r.
Qed.

Lemma voice_start_failure_reverts_witness :
  mode (Direct.toggleMode Direct.MicDenied initial) = text
  /\ alerts (Direct.toggleMode Direct.MicDenied initial) = []
  /\ alerts (Proxy.toggleMode initial) = [Proxy.voice_notice].
Proof.
  destruct (voice_start_failure_reverts Direct.MicDenied initial)
    as [(Hm & _ & _ & Ha & _) (_ & Hn & _)];
    [discriminate | reflexivity |].
  split; [exact Hm|]. split; [exact Ha|]. reflexivity.
Defined.

(** C9 as it is stated fails in the version of [src/types.ts]: the
    microphone is denied, the mode goes back to [text], and no notice is
    shown. *)
Lemma denied_microphone_without_notice :
  ~ reverted_with_notice initial (Direct.toggleMode Direct.MicDenied initial).
Proof.
  intros (_ & Hn & _). apply Hn. reflexivity.
Qed.

(** When the channel does not open, the stream and the two audio contexts
    acquired before stay with the component: the catch block releases
    nothing. *)
Example failed_connection_keeps_resources :
  let s := Direct.toggleMode Direct.ConnectFailed initial in
  mode s = text /\ audioContextRef s = Some (1, 2)%nat
  /\ openContexts s = [1; 2]%nat /\ liveStreams s = [0]%nat.
Proof. repeat split; reflexivity. Qed.

End VoiceFacts.

(* ================================================================== *)
(** * The ranking: at most three results, sorted, stable *)
(* ================================================================== *)

Module RankingFacts.

Local Unset Implicit Arguments.
Local Open Scope Z_scope.

Lemma str_eqb_eq (a b : jsstring) : str_eqb a b = true <-> a = b.
Proof.
  revert b. induction a as [|x a IH]; intros [|y b]; simpl;
    try (split; [discriminate | congruence]); try tauto.
  rewrite andb_true_iff, Z.eqb_eq, IH. split.
  - intros [-> ->]. reflexivity.
  - intros E. inversion E. auto.
Qed.

Lemma str_eqb_refl (a : jsstring) : str_eqb a a = true.
Proof. now apply str_eqb_eq. Qed.

Lemma str_eqb_sym_false (a b : jsstring) :
  str_eqb a b = false -> str_eqb b a = false.
Proof.
  intros H. destruct (str_eqb b a) eqn:E; [|reflexivity].
  apply str_eqb_eq in E. subst. now rewrite str_eqb_refl in H.
Qed.

Lemma str_eqb_neq (a b : jsstring) : a <> b -> str_eqb a b = false.
Proof.
  intros H. destruct (str_eqb a b) eqn:E; [|reflexivity].
  now apply str_eqb_eq in E.
Qed.

(** ** The stable sort *)

Section StableSort.

Variable A : Type.
Variable score : A -> Z.

Lemma sort_insert_perm (x : A) (l : list A) :
  Permutation (sort_insert (descending score) x l) (x :: l).
Proof.
  induction l as [|y l IH]; simpl; [reflexivity|].
  destruct (descending score x y); try reflexivity.
  rewrite IH. apply perm_swap.
Qed.

Lemma Array_sort_perm (l : list A) :
  Permutation (Array_sort (descending score) l) l.
Proof.
  induction l as [|x l IH]; simpl; [reflexivity|].
  rewrite sort_insert_perm. now constructor.
Qed.

Lemma sort_insert_sorted (x : A) (l : list A) :
  sorted_desc score l -> sorted_desc score (sort_insert (descending score) x l).
Proof.
  unfold sorted_desc.
  induction 1 as [|y l Hs IH Hy]; simpl.
  - repeat constructor.
  - unfold descending at 1, sign_Z.
    destruct (Z.compare_spec (score y - score x) 0) as [E | E | E].
    + constructor; [now constructor|]. constructor; [lia|].
      rewrite Forall_forall in *. intros z Hz. specialize (Hy z Hz). lia.
    + constructor; [now constructor|]. constructor; [lia|].
      rewrite Forall_forall in *. intros z Hz. specialize (Hy z Hz). lia.
    + constructor; [exact IH|].
      rewrite Forall_forall in *. intros z Hz.
      apply (Permutation_in _ (sort_insert_perm x l)) in Hz.
      destruct Hz as [<- | Hz]; [lia | auto].
Qed.

Lemma Array_sort_sorted (l : list A) :
  sorted_desc score (Array_sort (descending score) l).
Proof.
  induction l as [|x l IH]; simpl; [constructor|].
  now apply sort_insert_sorted.
Qed.

(** Stability: the elements of one score keep their order. *)
Lemma sort_insert_stable (v : Z) (x : A) (l : list A) :
  filter (fun a => score a =? v) (sort_insert (descending score) x l)
  = filter (fun a => score a =? v) (x :: l).
Proof.
  induction l as [|y l IH]; [reflexivity|].
  cbn [sort_insert]. unfold descending at 1, sign_Z.
  destruct (Z.compare_spec (score y - score x) 0) as [E | E | E];
    try reflexivity.
  cbn [filter] in *. rewrite IH.
  destruct (Z.eqb_spec (score x) v), (Z.eqb_spec (score y) v);
    try reflexivity.
  lia.
Qed.

Lemma Array_sort_stable (v : Z) (l : list A) :
  filter (fun a => score a =? v) (Array_sort (descending score) l)
  = filter (fun a => score a =? v) l.
Proof.
  induction l as [|x l IH]; [reflexivity|].
  cbn [Array_sort fold_right]. fold (Array_sort (descending score) l).
  rewrite sort_insert_stable. cbn [filter]. now rewrite IH.
Qed.

Lemma firstn_sorted (n : nat) (l : list A) :
  sorted_desc score l -> sorted_desc score (firstn n l).
Proof.
  unfold sorted_desc. intros H. revert n.
  induction H as [|y l Hs IH Hy]; intros [|n]; simpl; try constructor.
  - apply IH.
  - rewrite Forall_forall in *. intros z Hz. apply Hy.
    eapply (In_nth_error) in Hz. destruct Hz as [i Hi].
    apply nth_error_In with (n := i).
    rewrite nth_error_firstn in Hi.
    destruct (i <? n)%nat; [exact Hi | discriminate].
Qed.

Lemma Array_sort_map (B : Type) (g : B -> A) (l : list B) :
  Array_sort (descending score) (map g l)
  = map g (Array_sort (descending (fun b => score (g b))) l).
Proof.
  induction l as [|x l IH]; [reflexivity|].
  cbn [map Array_sort fold_right].
  fold (Array_sort (descending score) (map g l)).
  fold (Array_sort (descending (fun b => score (g b))) l).
  rewrite IH.
  generalize (Array_sort (descending (fun b => score (g b))) l).
  intros t. induction t as [|y t IHt]; [reflexivity|].
  cbn [map sort_insert].
  change (descending (fun b => score (g b)) x y)
    with (descending score (g x) (g y)).
  destruct (descending score (g x) (g y)); try reflexivity.
  cbn [map]. now rewrite IHt.
Qed.

End StableSort.

Lemma sort_insert_ext (A : Type) (c1 c2 : A -> A -> comparison) (x : A)
      (l : list A) :
  (forall y, In y l -> c1 x y = c2 x y) ->
  sort_insert c1 x l = sort_insert c2 x l.
Proof.
  induction l as [|y l IH]; intros H; [reflexivity|].
  cbn [sort_insert]. rewrite (H y (or_introl eq_refl)).
  destruct (c2 x y); try reflexivity.
  rewrite IH; [reflexivity|]. intros z Hz. apply H. now right.
Qed.

Lemma sort_insert_in (A : Type) (c : A -> A -> comparison) (x : A)
      (l : list A) (y : A) :
  In y (sort_insert c x l) <-> y = x \/ In y l.
Proof.
  induction l as [|z l IH]; cbn [sort_insert In]; [intuition congruence|].
  destruct (c x z); cbn [In]; rewrite ?IH; intuition congruence.
Qed.

Lemma Array_sort_in (A : Type) (c : A -> A -> comparison) (l : list A)
      (y : A) :
  In y (Array_sort c l) <-> In y l.
Proof.
  induction l as [|x l IH]; [reflexivity|].
  cbn [Array_sort fold_right]. fold (Array_sort c l).
  rewrite sort_insert_in, IH. cbn [In]. intuition congruence.
Qed.

Lemma Array_sort_ext (A : Type) (c1 c2 : A -> A -> comparison) (l : list A) :
  (forall x y, In x l -> In y l -> c1 x y = c2 x y) ->
  Array_sort c1 l = Array_sort c2 l.
Proof.
  induction l as [|x l IH]; intros H; [reflexivity|].
  cbn [Array_sort fold_right]. fold (Array_sort c1 l) (Array_sort c2 l).
  rewrite IH by (intros; apply H; now right).
  apply sort_insert_ext. intros y Hy. apply Array_sort_in in Hy.
  apply H; [now left | now right].
Qed.

(** ** Tables *)

Lemma table_get_update (o : table) (k k' : jsstring) (v : Z) :
  table_get (table_update o k v) k'
  = if str_eqb k k' then Some v else table_get o k'.
Proof.
  induction o as [|[k0 v0] o IH]; cbn [table_update table_get].
  - reflexivity.
  - destruct (str_eqb k0 k) eqn:E; cbn [table_get].
    + apply str_eqb_eq in E. subst k0.
      now destruct (str_eqb k k').
    + destruct (str_eqb k0 k') eqn:E'; [|exact IH].
      apply str_eqb_eq in E'. subst k0. now rewrite str_eqb_sym_false.
Qed.

Lemma table_update_fresh (o : table) (k : jsstring) (v : Z) :
  ~ In k (map fst o) -> table_update o k v = o ++ [(k, v)].
Proof.
  induction o as [|[k0 v0] o IH]; cbn [table_update map fst In app];
    intros H; [reflexivity|].
  rewrite str_eqb_neq by tauto. rewrite IH by tauto. reflexivity.
Qed.

Lemma insert_index_in (k : jsstring) (n : Z) (l : list (jsstring * Z))
      (x : jsstring * Z) :
  In x (insert_index k n l) <-> x = (k, n) \/ In x l.
Proof.
  induction l as [|[k' n'] l IH]; cbn [insert_index In];
    [intuition congruence|].
  destruct (n <? n'); cbn [In]; rewrite ?IH; intuition congruence.
Qed.

Lemma index_keys_in (o : table) (k : jsstring) :
  In k (map fst (index_keys o)) -> In k (map fst o).
Proof.
  induction o as [|[k0 v0] o IH]; cbn [index_keys fold_right map fst In];
    [tauto|].
  fold (index_keys o).
  destruct (array_index k0) as [n|]; [|auto].
  rewrite in_map_iff. intros ([k1 n1] & E & Hin). cbn [fst] in E. subst k1.
  apply insert_index_in in Hin. destruct Hin as [Hin | Hin].
  - inversion Hin. now left.
  - right. apply IH. apply in_map_iff. now exists (k, n1).
Qed.

Lemma Object_keys_in (o : table) (k : jsstring) :
  In k (Object_keys o) -> In k (map fst o).
Proof.
  unfold Object_keys. rewrite in_app_iff, filter_In.
  intros [H | [H _]]; [now apply index_keys_in | exact H].
Qed.

Lemma index_keys_none (o : table) :
  Forall (fun k => is_array_index k = false) (map fst o) ->
  index_keys o = [].
Proof.
  induction o as [|[k0 v0] o IH]; cbn [index_keys fold_right map fst];
    intros H; [reflexivity|].
  fold (index_keys o). inversion H as [|? ? H0 H1]; subst.
  unfold is_array_index in H0.
  destruct (array_index k0); [discriminate | auto].
Qed.

Lemma Object_keys_plain (o : table) :
  Forall (fun k => is_array_index k = false) (map fst o) ->
  Object_keys o = map fst o.
Proof.
  intros H. unfold Object_keys. rewrite (index_keys_none o H).
  cbn [map app]. induction (map fst o) as [|k l IH]; [reflexivity|].
  inversion H as [|? ? H0 H1]; subst. cbn [filter]. rewrite H0.
  cbn [negb]. now rewrite IH.
Qed.

Lemma firstn_in (A : Type) (n : nat) (l : list A) (x : A) :
  In x (firstn n l) -> In x l.
Proof.
  intros H. rewrite <- (firstn_skipn n l). apply in_or_app. now left.
Qed.

Lemma keep_defined_map_Some (A : Type) (l : list A) :
  keep_defined (map Some l) = l.
Proof. induction l as [|x l IH]; cbn; [reflexivity | now rewrite IH]. Qed.

Lemma keep_defined_length (A : Type) (l : list (option A)) :
  (length (keep_defined l) <= length l)%nat.
Proof. induction l as [|[x|] l IH]; cbn; lia. Qed.

(** ** The keyword search *)

Section Keyword.

Variable toLowerCase : jsstring -> jsstring.
Variable query : jsstring.

Local Abbreviation words := (queryWords toLowerCase query).
Local Abbreviation score := (product_score toLowerCase words).

Lemma find_product_app (ps : list Product) (p : Product) (k : jsstring) :
  find_product (ps ++ [p]) k
  = match find_product ps k with
    | Some q => Some q
    | None => if str_eqb (id p) k then Some p else None
    end.
Proof.
  unfold find_product. induction ps as [|q ps IH]; cbn [app find].
  - reflexivity.
  - destruct (str_eqb (id q) k); [reflexivity | exact IH].
Qed.

Lemma find_product_none (ps : list Product) (k : jsstring) :
  ~ In k (map id ps) -> find_product ps k = None.
Proof.
  unfold find_product. induction ps as [|q ps IH]; cbn [map In find];
    intros H; [reflexivity|].
  rewrite str_eqb_neq by tauto. apply IH. tauto.
Qed.

Lemma find_product_some (ps : list Product) (k : jsstring) (p : Product) :
  find_product ps k = Some p -> In p ps /\ id p = k.
Proof.
  unfold find_product. intros H. apply find_some in H.
  now rewrite str_eqb_eq in H.
Qed.

Lemma find_product_in (ps : list Product) (p : Product) :
  NoDup (map id ps) -> In p ps -> find_product ps (id p) = Some p.
Proof.
  unfold find_product. induction ps as [|q ps IH]; cbn [map In find];
    intros Hnd Hin; [contradiction|].
  inversion Hnd as [|? ? Hq Hnd']; subst.
  destruct Hin as [-> | Hin]; [now rewrite str_eqb_refl|].
  rewrite str_eqb_neq; [now apply IH|].
  intros E. apply Hq. rewrite E. now apply in_map.
Qed.

Lemma score_table_snoc (ps : list Product) (p : Product) :
  score_table toLowerCase words (ps ++ [p])
  = add_product toLowerCase words (score_table toLowerCase words ps) p.
Proof. unfold score_table. now rewrite fold_left_app. Qed.

(** With distinct ids, the entry of a key is the score of the product that
    [find] returns for it. *)
Lemma score_table_sound (ps : list Product) :
  NoDup (map id ps) ->
  forall k v,
    table_get (score_table toLowerCase words ps) k = Some v ->
    exists p, find_product ps k = Some p /\ score p = v.
Proof.
  induction ps as [|p ps IH] using rev_ind; intros Hnd k v.
  - discriminate.
  - rewrite map_app in Hnd. apply NoDup_remove in Hnd.
    cbn [map app] in Hnd. rewrite app_nil_r in Hnd.
    destruct Hnd as [Hnd Hp].
    rewrite score_table_snoc, find_product_app.
    unfold add_product.
    assert (Hold : table_get (score_table toLowerCase words ps) k = Some v ->
                   exists p0,
                     match find_product ps k with
                     | Some q => Some q
                     | None => if str_eqb (id p) k then Some p else None
                     end = Some p0 /\ score p0 = v).
    { intros H. destruct (IH Hnd k v H) as (q & Hq & Hs).
      exists q. now rewrite Hq. }
    destruct (0 <? score p); [|exact Hold].
    unfold table_set. destruct (str_eqb (id p) (lit "__proto__"));
      [exact Hold|].
    rewrite table_get_update.
    destruct (str_eqb (id p) k) eqn:E; [|exact Hold].
    intros H. inversion H; subst v. exists p.
    apply str_eqb_eq in E. subst k.
    now rewrite (find_product_none ps (id p) Hp).
Qed.

Lemma table_get_key (o : table) (k : jsstring) :
  In k (map fst o) -> exists v, table_get o k = Some v.
Proof.
  induction o as [|[k0 v0] o IH]; cbn [map fst In table_get];
    [contradiction|].
  intros [-> | H]; [rewrite str_eqb_refl; eauto|].
  destruct (str_eqb k0 k); eauto.
Qed.

(** The result has at most three products. *)
Lemma findRelevantProducts_at_most_3 (ps : list Product) :
  (length (findRelevantProducts toLowerCase query ps) <= 3)%nat.
Proof.
  unfold findRelevantProducts. destruct words; [cbn; lia|].
  eapply Nat.le_trans; [apply keep_defined_length|].
  rewrite length_map. unfold slice0. rewrite length_firstn. lia.
Qed.

Lemma resolved_sorted (ps : list Product) (t : table) (ks : list jsstring) :
  (forall k, In k ks ->
             exists p, find_product ps k = Some p /\ score p = score_of t k) ->
  sorted_desc (score_of t) ks ->
  sorted_desc score (keep_defined (map (find_product ps) ks)).
Proof.
  unfold sorted_desc. intros Hres Hs.
  induction Hs as [|k ks Hs IH Hk]; cbn [map keep_defined]; [constructor|].
  destruct (Hres k (or_introl eq_refl)) as (p & Hp & Hsc). rewrite Hp.
  constructor; [apply IH; intros; apply Hres; now right|].
  rewrite Forall_forall in *. intros q Hq.
  assert (Hin : exists k', In k' ks /\ find_product ps k' = Some q).
  { clear - Hq. induction ks as [|k' ks IH]; cbn [map keep_defined] in Hq;
      [contradiction|].
    destruct (find_product ps k') as [q'|] eqn:E.
    - destruct Hq as [<- | Hq]; [exists k'; split; [now left | exact E]|].
      destruct (IH Hq) as (k'' & ? & ?). exists k''. split; [now right | auto].
    - destruct (IH Hq) as (k'' & ? & ?). exists k''. split; [now right | auto]. }
  destruct Hin as (k' & Hk' & Hfind).
  destruct (Hres k' (or_intror Hk')) as (q' & Hq' & Hsc').
  rewrite Hfind in Hq'. inversion Hq'; subst q'.
  rewrite Hsc, Hsc'. now apply Hk.
Qed.

(** With distinct ids, the result is sorted by non-increasing score. *)
Lemma findRelevantProducts_sorted (ps : list Product) :
  NoDup (map id ps) ->
  sorted_desc score (findRelevantProducts toLowerCase query ps).
Proof.
  intros Hnd. unfold findRelevantProducts.
  destruct words eqn:Hw; [constructor|]. rewrite <- Hw.
  set (t := score_table toLowerCase words ps).
  apply resolved_sorted with (t := t).
  - intros k Hk. unfold slice0 in Hk. apply firstn_in in Hk.
    unfold sortedProductIds in Hk. apply Array_sort_in in Hk.
    apply Object_keys_in in Hk.
    destruct (table_get_key t k Hk) as [v Hv].
    destruct (score_table_sound ps Hnd k v Hv) as (p & Hp & Hs).
    exists p. split; [exact Hp|]. unfold score_of. now rewrite Hv.
  - unfold slice0. apply firstn_sorted. apply Array_sort_sorted.
Qed.

(** With distinct ids, none of them ["__proto__"], the table lists the
    products of positive score in catalog order. *)
Lemma score_table_shape (ps : list Product) :
  NoDup (map id ps) ->
  Forall (fun p => plain_id (id p)) ps ->
  score_table toLowerCase words ps
  = map (fun p => (id p, score p)) (filter (fun p => 0 <? score p) ps).
Proof.
  induction ps as [|p ps IH] using rev_ind; intros Hnd Hplain;
    [reflexivity|].
  rewrite map_app in Hnd. apply NoDup_remove in Hnd.
  cbn [map app] in Hnd. rewrite app_nil_r in Hnd. destruct Hnd as [Hnd Hp].
  apply Forall_app in Hplain. destruct Hplain as [Hplain Hpp].
  inversion Hpp as [|? ? [_ Hproto] _]; subst.
  rewrite score_table_snoc, filter_app, map_app, IH by assumption.
  unfold add_product. cbn [filter].
  destruct (0 <? score p); [|now rewrite app_nil_r].
  unfold table_set. rewrite (str_eqb_neq _ _ Hproto).
  apply table_update_fresh.
  rewrite map_map. cbn [fst]. intros Hin. apply Hp.
  apply in_map_iff in Hin. destruct Hin as (q & <- & Hq).
  apply filter_In in Hq. now apply in_map.
Qed.

(** For catalogs whose ids are distinct and are neither array indices nor
    ["__proto__"], the result is the first three of the products of
    positive score, sorted by score with a sort that keeps the catalog
    order of equal scores. *)
Lemma findRelevantProducts_stable_sort (ps : list Product) :
  NoDup (map id ps) ->
  Forall (fun p => plain_id (id p)) ps ->
  findRelevantProducts toLowerCase query ps
  = firstn 3 (Array_sort (descending score)
                         (filter (fun p => 0 <? score p) ps)).
Proof.
  intros Hnd Hplain. unfold findRelevantProducts.
  destruct words eqn:Hw.
  - replace (filter _ ps) with (@nil Product); [reflexivity|].
    clear. induction ps as [|p ps IH]; [reflexivity | exact IH].
  - rewrite <- Hw.
    set (L := filter (fun p => 0 <? score p) ps).
    assert (HL : forall p, In p L -> In p ps)
      by (intros p Hp; now apply filter_In in Hp).
    assert (Ht : score_table toLowerCase words ps
                 = map (fun p => (id p, score p)) L)
      by (now apply score_table_shape).
    unfold sortedProductIds. rewrite Ht.
    rewrite Object_keys_plain.
    2:{ rewrite map_map. cbn [fst]. apply Forall_forall. intros k Hk.
        apply in_map_iff in Hk. destruct Hk as (p & <- & Hp).
        rewrite Forall_forall in Hplain. now apply (Hplain p), HL. }
    rewrite map_map. cbn [fst].
    rewrite Array_sort_map.
    rewrite (Array_sort_ext _ _ (descending score)).
    2:{ assert (Hsc : forall p, In p L ->
                        score_of (map (fun p => (id p, score p)) L) (id p)
                        = score p).
        { intros p Hp. unfold score_of.
          destruct (table_get_key (map (fun p => (id p, score p)) L) (id p))
            as [v Hv].
          { rewrite map_map. cbn [fst]. now apply in_map. }
          rewrite Hv. rewrite <- Ht in Hv.
          destruct (score_table_sound ps Hnd _ _ Hv) as (q & Hq & Hs).
          rewrite (find_product_in ps p Hnd (HL p Hp)) in Hq.
          now inversion Hq. }
        intros x y Hx Hy. unfold descending.
        now rewrite (Hsc x Hx), (Hsc y Hy). }
    unfold slice0. rewrite firstn_map, map_map.
    rewrite <- (keep_defined_map_Some
                  _ (firstn 3 (Array_sort (descending score) L))) at 2.
    f_equal. apply map_ext_in. intros p Hp.
    apply firstn_in, Array_sort_in in Hp.
    now apply find_product_in, HL.
Qed.

End Keyword.

(** ** The embedding ranking *)

Section Embedding.

Import Gemini FloatFacts.
Local Open Scope float_scope.

Lemma relevantProducts_at_most_3 (ps : list Product)
      (embeddings : list (list float)) :
  (length (relevantProducts ps embeddings) <= 3)%nat.
Proof.
  unfold relevantProducts, slice0, topK. rewrite length_firstn. lia.
Qed.

(** For two similarities that are numbers, the comparator of the sort is
    their comparison, the larger first. *)
Lemma by_similarity_spec (a b : Scored) :
  number (sim a) -> number (sim b) ->
  exists c,
    SFcompare (Prim2SF (sim b)) (Prim2SF (sim a)) = Some c
    /\ by_similarity a b = c.
Proof.
  intros Ha Hb. apply number_spec in Ha, Hb.
  destruct (SFcompare_defined Hb Ha) as [c Hc].
  exists c. split; [exact Hc|].
  unfold by_similarity, sign_float. now apply sub_sign.
Qed.

Lemma by_similarity_leb (a b : Scored) :
  number (sim a) -> number (sim b) ->
  by_similarity a b <> Gt -> (sim b <=? sim a) = true.
Proof.
  intros Ha Hb H. destruct (by_similarity_spec a b Ha Hb) as (c & Hc & E).
  rewrite leb_spec. unfold SFleb. rewrite Hc.
  destruct c; congruence.
Qed.

Lemma by_similarity_Gt (a b : Scored) :
  number (sim a) -> number (sim b) ->
  by_similarity a b = Gt -> (sim a <=? sim b) = true.
Proof.
  intros Ha Hb H. destruct (by_similarity_spec a b Ha Hb) as (c & Hc & E).
  rewrite leb_spec. unfold SFleb.
  rewrite (SFcompare_antisym _ _ Hc). rewrite <- E, H. reflexivity.
Qed.

Lemma sort_insert_numbers (x : Scored) (l : list Scored) :
  number (sim x) -> Forall (fun a => number (sim a)) l ->
  Forall (fun a => number (sim a)) (sort_insert by_similarity x l).
Proof.
  intros Hx Hl. apply Forall_forall. intros y Hy.
  apply sort_insert_in in Hy. destruct Hy as [-> | Hy]; [exact Hx|].
  rewrite Forall_forall in Hl. now apply Hl.
Qed.

Lemma sort_insert_by_similarity (x : Scored) (l : list Scored) :
  number (sim x) -> Forall (fun a => number (sim a)) l ->
  sorted_by_similarity l ->
  sorted_by_similarity (sort_insert by_similarity x l).
Proof.
  unfold sorted_by_similarity. intros Hx Hl Hs.
  induction Hs as [|y l Hs IH Hy]; cbn [sort_insert].
  - repeat constructor.
  - inversion Hl as [|? ? Hny Hnl]; subst.
    destruct (by_similarity x y) eqn:E.
    + constructor; [now constructor|]. constructor.
      apply by_similarity_leb; auto. congruence.
    + constructor; [now constructor|]. constructor.
      apply by_similarity_leb; auto. congruence.
    + constructor; [now apply IH|].
      destruct l as [|z l]; cbn [sort_insert].
      * constructor. now apply by_similarity_Gt.
      * destruct (by_similarity x z); constructor;
          try (now apply by_similarity_Gt).
        all: now inversion Hy.
Qed.

Lemma Array_sort_numbers (l : list Scored) :
  Forall (fun a => number (sim a)) l ->
  Forall (fun a => number (sim a)) (Array_sort by_similarity l).
Proof.
  intros H. apply Forall_forall. intros y Hy. apply Array_sort_in in Hy.
  rewrite Forall_forall in H. now apply H.
Qed.

(** The sort of the handler puts numbers in non-increasing order. *)
Lemma Array_sort_by_similarity (l : list Scored) :
  Forall (fun a => number (sim a)) l ->
  sorted_by_similarity (Array_sort by_similarity l).
Proof.
  induction 1 as [|x l Hx Hl IH]; cbn [Array_sort fold_right].
  - constructor.
  - fold (Array_sort by_similarity l).
    apply sort_insert_by_similarity; auto. now apply Array_sort_numbers.
Qed.

Lemma mapi_from_product (ps : list Product) (f : nat -> option float) :
  forall i,
    map product
        (mapi_from (fun p i => {| product := p; similarity := f i |}) ps i)
    = ps.
Proof.
  induction ps as [|p ps IH]; intros i; cbn [mapi_from map product];
    [reflexivity | now rewrite IH].
Qed.

(** The products with their similarities stand in catalog order. *)
Lemma productsWithSimilarity_products (ps : list Product)
      (embeddings : list (list float)) :
  map product (productsWithSimilarity ps embeddings) = ps.
Proof. unfold productsWithSimilarity, mapi. apply mapi_from_product. Qed.

Lemma firstn_sorted_by_similarity (n : nat) (l : list Scored) :
  sorted_by_similarity l -> sorted_by_similarity (firstn n l).
Proof.
  unfold sorted_by_similarity. intros H. revert n.
  induction H as [|y l Hs IH Hy]; intros [|n]; cbn [firstn];
    try constructor.
  - apply IH.
  - destruct Hy as [|z l Hyz]; destruct n; cbn [firstn]; now constructor.
Qed.

(** Two numbers that compare equal are both zero or the same number. *)
Lemma SFcompare_Eq (x y : spec_float) :
  SFcompare x y = Some Eq ->
  x = y \/ (exists s s', x = S754_zero s /\ y = S754_zero s').
Proof.
  destruct x as [sx | sx | | sx mx ex], y as [sy | sy | | sy my ey];
    cbn [SFcompare]; intros H; inversion H as [E]; clear H;
    try (right; eauto; fail);
    try (destruct sx, sy; discriminate || (left; reflexivity));
    try (destruct sx; discriminate); try (destruct sy; discriminate).
  left.
  assert (Hem : ex = ey /\ mx = my).
  { destruct sx, sy; try discriminate;
      destruct (Z.compare_spec ex ey); try discriminate;
      (split; [assumption|]);
      change (Pos.compare_cont Eq mx my) with (Pos.compare mx my) in E;
      destruct (Pos.compare_spec mx my); try discriminate; assumption. }
  destruct Hem as [-> ->]. destruct sx, sy; try discriminate; reflexivity.
Qed.

Lemma eqb_same_class (x y v : float) :
  (x =? v) = true -> (y =? v) = true ->
  SFcompare (Prim2SF y) (Prim2SF x) = Some Eq.
Proof.
  rewrite !eqb_spec. unfold SFeqb.
  destruct (SFcompare (Prim2SF x) (Prim2SF v)) as [[]|] eqn:Hx;
    try discriminate.
  destruct (SFcompare (Prim2SF y) (Prim2SF v)) as [[]|] eqn:Hy;
    try discriminate.
  intros _ _.
  destruct (SFcompare_Eq _ _ Hx) as [Ex | (s1 & s2 & Ex & Ev)],
           (SFcompare_Eq _ _ Hy) as [Ey | (s3 & s4 & Ey & Ev')].
  - rewrite Ex, Ey. apply SFcompare_refl. intros E. rewrite Ex, E in Hx.
    discriminate Hx.
  - rewrite Ex, Ey, Ev'. reflexivity.
  - rewrite Ex, Ey, Ev. reflexivity.
  - rewrite Ex, Ey. reflexivity.
Qed.

(** Stability: the products of one similarity keep their order. *)
Lemma sort_insert_by_similarity_stable (v : float) (x : Scored)
      (l : list Scored) :
  number (sim x) -> Forall (fun a => number (sim a)) l ->
  filter (fun a => sim a =? v) (sort_insert by_similarity x l)
  = filter (fun a => sim a =? v) (x :: l).
Proof.
  intros Hx Hl. induction Hl as [|y l Hy Hl IH]; [reflexivity|].
  cbn [sort_insert]. destruct (by_similarity x y) eqn:E; try reflexivity.
  cbn [filter] in *. rewrite IH.
  destruct (sim x =? v) eqn:Exv, (sim y =? v) eqn:Eyv; try reflexivity.
  destruct (by_similarity_spec x y Hx Hy) as (c & Hc & Ec).
  rewrite (eqb_same_class _ _ _ Exv Eyv) in Hc. congruence.
Qed.

Lemma Array_sort_by_similarity_stable (v : float) (l : list Scored) :
  Forall (fun a => number (sim a)) l ->
  filter (fun a => sim a =? v) (Array_sort by_similarity l)
  = filter (fun a => sim a =? v) l.
Proof.
  induction 1 as [|x l Hx Hl IH]; [reflexivity|].
  cbn [Array_sort fold_right]. fold (Array_sort by_similarity l).
  rewrite sort_insert_by_similarity_stable
    by (auto using Array_sort_numbers).
  cbn [filter]. now rewrite IH.
Qed.

(** When every similarity is a number, the relevant products are sorted
    by non-increasing similarity, and they are the first three of a list in
    which the products of one similarity stand in catalog order. *)
Lemma relevantProducts_sorted_stable (ps : list Product)
      (embeddings : list (list float)) :
  Forall (fun a => number (sim a)) (productsWithSimilarity ps embeddings) ->
  sorted_by_similarity (relevantProducts ps embeddings)
  /\ forall v,
      filter (fun a => sim a =? v)
             (Array_sort by_similarity (productsWithSimilarity ps embeddings))
      = filter (fun a => sim a =? v) (productsWithSimilarity ps embeddings).
Proof.
  intros H. split.
  - unfold relevantProducts, slice0.
    now apply firstn_sorted_by_similarity, Array_sort_by_similarity.
  - intros v. now apply Array_sort_by_similarity_stable.
Qed.

End Embedding.

End RankingFacts.

(* ================================================================== *)
(** * Strings: substrings and blank strings *)
(* ================================================================== *)

Module TextFacts.

Local Unset Implicit Arguments.
Local Open Scope Z_scope.

Lemma starts_with_app (w s : jsstring) : starts_with (w ++ s) w = true.
Proof.
  induction w as [|x w IH]; [now destruct s|].
  cbn [app starts_with]. now rewrite Z.eqb_refl, IH.
Qed.

Lemma includes_app (a w b : jsstring) : includes (a ++ w ++ b) w = true.
Proof.
  induction a as [|x a IH].
  - cbn [app]. destruct (w ++ b) eqn:E; cbn [includes]; rewrite <- E;
      now rewrite starts_with_app.
  - cbn [app includes]. rewrite IH. apply orb_true_r.
Qed.

Lemma includes_self (w : jsstring) : includes w w = true.
Proof.
  rewrite <- (app_nil_r w) at 1. exact (includes_app [] w []).
Qed.

Lemma join_holds (sep : jsstring) (l : list jsstring) (x : jsstring) :
  In x l -> exists a b, join sep l = a ++ x ++ b.
Proof.
  induction l as [|y l IH]; [contradiction|].
  intros [-> | H].
  - exists []. destruct l as [|z l]; cbn [join app].
    + exists []. now rewrite app_nil_r.
    + now exists (sep ++ join sep (z :: l)).
  - destruct (IH H) as (a & b & E).
    destruct l as [|z l]; [contradiction|].
    exists (y ++ sep ++ a), b. cbn [join] in *. rewrite E.
    now rewrite <- !app_assoc.
Qed.

Lemma trim_start_blank (s : jsstring) :
  forallb is_space s = true -> trim_start s = [].
Proof.
  induction s as [|c s IH]; [reflexivity|].
  cbn [forallb trim_start]. intros H. apply andb_true_iff in H.
  destruct H as [-> H]. now apply IH.
Qed.

Lemma trim_blank (s : jsstring) : forallb is_space s = true -> trim s = [].
Proof.
  intros H. unfold trim. now rewrite (trim_start_blank s H).
Qed.

End TextFacts.

(* ================================================================== *)
(** * The keyword search: what it returns *)
(* ================================================================== *)

Module KeywordFacts.

Import RankingFacts TextFacts Samples Cases.

Local Unset Implicit Arguments.
Local Open Scope Z_scope.

(** ** Tables keep one entry per key *)

Lemma table_update_keys (o : table) (k : jsstring) (v : Z) (x : jsstring) :
  In x (map fst (table_update o k v)) -> x = k \/ In x (map fst o).
Proof.
  induction o as [|[k0 v0] o IH]; cbn [table_update map fst In].
  - intros [H | []]. now left.
  - destruct (str_eqb k0 k); cbn [map fst In]; [tauto|].
    intros [H | H]; [tauto|]. destruct (IH H); tauto.
Qed.

Lemma table_update_NoDup (o : table) (k : jsstring) (v : Z) :
  NoDup (map fst o) -> NoDup (map fst (table_update o k v)).
Proof.
  induction o as [|[k0 v0] o IH]; cbn [table_update map fst]; intros H.
  - constructor; [tauto | constructor].
  - inversion H as [|? ? Hk Ho]; subst.
    destruct (str_eqb k0 k) eqn:E; cbn [map fst]; [exact H|].
    constructor; [|now apply IH].
    intros Hin. apply table_update_keys in Hin. destruct Hin as [-> | Hin].
    + now rewrite str_eqb_refl in E.
    + contradiction.
Qed.

Lemma score_table_NoDup (toLowerCase : jsstring -> jsstring)
      (words : list jsstring) (ps : list Product) :
  NoDup (map fst (score_table toLowerCase words ps)).
Proof.
  unfold score_table.
  assert (H : forall t, NoDup (map fst t) ->
                        NoDup (map fst (fold_left (add_product toLowerCase words)
                                                  ps t))).
  { induction ps as [|p ps IH]; intros t Ht; [exact Ht|].
    cbn [fold_left]. apply IH. unfold add_product, table_set.
    destruct (0 <? _); [|exact Ht].
    destruct (str_eqb _ _); [exact Ht | now apply table_update_NoDup]. }
  apply H. constructor.
Qed.

Lemma insert_index_perm (k : jsstring) (n : Z) (l : list (jsstring * Z)) :
  Permutation (insert_index k n l) ((k, n) :: l).
Proof.
  induction l as [|[k' n'] l IH]; cbn [insert_index]; [reflexivity|].
  destruct (n <? n'); [reflexivity|].
  rewrite IH. apply perm_swap.
Qed.

Lemma index_keys_index (o : table) (k : jsstring) :
  In k (map fst (index_keys o)) -> is_array_index k = true.
Proof.
  induction o as [|[k0 v0] o IH]; cbn [index_keys fold_right fst];
    [contradiction|].
  fold (index_keys o). unfold is_array_index.
  destruct (array_index k0) as [n|] eqn:E; [|exact IH].
  intros H. apply in_map_iff in H. destruct H as ([k1 n1] & <- & H).
  apply insert_index_in in H. destruct H as [H | H].
  - inversion H; subst. cbn [fst]. now rewrite E.
  - apply IH. apply in_map_iff. now exists (k1, n1).
Qed.

Lemma index_keys_NoDup (o : table) :
  NoDup (map fst o) -> NoDup (map fst (index_keys o)).
Proof.
  induction o as [|[k0 v0] o IH]; cbn [index_keys fold_right map fst];
    intros H; [constructor|].
  fold (index_keys o). inversion H as [|? ? Hk Ho]; subst.
  destruct (array_index k0) as [n|]; [|now apply IH].
  eapply Permutation_NoDup.
  - symmetry. apply Permutation_map. apply insert_index_perm.
  - cbn [map fst]. constructor; [|now apply IH].
    intros Hin. apply Hk. now apply index_keys_in.
Qed.

Lemma Object_keys_NoDup (o : table) :
  NoDup (map fst o) -> NoDup (Object_keys o).
Proof.
  intros H. unfold Object_keys.
  assert (Hd : forall k, In k (map fst (index_keys o)) ->
                         ~ In k (filter (fun k => negb (is_array_index k))
                                        (map fst o))).
  { intros k Hk Hf. apply filter_In in Hf. destruct Hf as [_ Hf].
    now rewrite (index_keys_index o k Hk) in Hf. }
  pose proof (index_keys_NoDup o H) as H1.
  pose proof (NoDup_filter (fun k => negb (is_array_index k)) H) as H2.
  revert H1 Hd. generalize (map fst (index_keys o)) as l1.
  induction l1 as [|x l1 IH]; intros H1 Hd; [exact H2|].
  inversion H1; subst. cbn [app]. constructor.
  - rewrite in_app_iff. intros [Hx | Hx]; [contradiction|].
    apply (Hd x); [now left | exact Hx].
  - apply IH; [assumption|]. intros k Hk. apply Hd. now right.
Qed.

Lemma firstn_NoDup_of (A : Type) (n : nat) (l : list A) :
  NoDup l -> NoDup (firstn n l).
Proof.
  intros H. rewrite <- (firstn_skipn n l) in H.
  now apply NoDup_app_remove_r in H.
Qed.

Lemma keep_defined_in (A : Type) (l : list (option A)) (x : A) :
  In x (keep_defined l) <-> In (Some x) l.
Proof.
  induction l as [|[y|] l IH]; cbn [keep_defined In]; [tauto| |].
  - rewrite IH. split; intros [H | H]; auto; left; congruence.
  - rewrite IH. split; [tauto|]. intros [H | H]; [discriminate | exact H].
Qed.

Lemma resolved_NoDup (ps : list Product) (ks : list jsstring) :
  NoDup ks -> NoDup (keep_defined (map (find_product ps) ks)).
Proof.
  induction 1 as [|k ks Hk _ IH]; cbn [map keep_defined]; [constructor|].
  destruct (find_product ps k) as [p|] eqn:E; [|exact IH].
  constructor; [|exact IH].
  rewrite keep_defined_in, in_map_iff. intros (k' & E' & Hk').
  apply find_product_some in E. apply find_product_some in E'.
  destruct E as [_ <-], E' as [_ E']. now subst k'.
Qed.

(** ** Scores *)

Section Scores.

Variable toLowerCase : jsstring -> jsstring.

Lemma add_word_step (p : Product) (acc : Z) (w : jsstring) :
  acc <= add_word toLowerCase p acc w <= acc + 11
  /\ (acc < add_word toLowerCase p acc w <->
      includes (toLowerCase (name p)) w = true
      \/ includes (toLowerCase (category p)) w = true
      \/ includes (toLowerCase (join (lit " ") (features p))) w = true
      \/ includes (toLowerCase (description p)) w = true).
Proof.
  unfold add_word.
  destruct (includes (toLowerCase (name p)) w),
    (includes (toLowerCase (category p)) w),
    (includes (toLowerCase (join (lit " ") (features p))) w),
    (includes (toLowerCase (description p)) w);
    (split; [lia|]); split; intros H;
    first [lia | now intuition auto | exfalso; intuition discriminate].
Qed.

Lemma fold_add_word (p : Product) (ws : list jsstring) :
  forall acc,
    acc <= fold_left (add_word toLowerCase p) ws acc
           <= acc + 11 * Z.of_nat (length ws)
    /\ (acc < fold_left (add_word toLowerCase p) ws acc <->
        exists w,
          In w ws
          /\ (includes (toLowerCase (name p)) w = true
              \/ includes (toLowerCase (category p)) w = true
              \/ includes (toLowerCase (join (lit " ") (features p))) w = true
              \/ includes (toLowerCase (description p)) w = true)).
Proof.
  induction ws as [|w ws IH]; intros acc; cbn [fold_left length].
  - split; [lia|]. split; [lia|]. intros (w & [] & _).
  - destruct (add_word_step p acc w) as [Hb Hm].
    destruct (IH (add_word toLowerCase p acc w)) as [Hb' Hm'].
    split; [lia|]. split.
    + intros Hlt.
      destruct (Z_lt_le_dec acc (add_word toLowerCase p acc w)) as [H | H].
      * exists w. split; [now left | now apply Hm].
      * assert (Hlt' : add_word toLowerCase p acc w
                       < fold_left (add_word toLowerCase p) ws
                                   (add_word toLowerCase p acc w)) by lia.
        apply Hm' in Hlt'. destruct Hlt' as (w' & Hin & Hw').
        exists w'. split; [now right | exact Hw'].
    + intros (w' & [-> | Hin] & Hw').
      * apply Hm in Hw'. lia.
      * assert (add_word toLowerCase p acc w
                < fold_left (add_word toLowerCase p) ws
                            (add_word toLowerCase p acc w))
          by (apply Hm'; eauto).
        lia.
Qed.

(** X1. The score of a product for a list of query words lies between 0
    and 11 for each word, and it is positive exactly when one of the words
    occurs in the lower-cased name, category, features (joined by spaces)
    or description of the product. *)
Theorem score_positive_iff_word_occurs (ws : list jsstring) (p : Product) :
  0 <= product_score toLowerCase ws p <= 11 * Z.of_nat (length ws)
  /\ (0 < product_score toLowerCase ws p <->
      exists w,
        In w ws
        /\ (includes (toLowerCase (name p)) w = true
            \/ includes (toLowerCase (category p)) w = true
            \/ includes (toLowerCase (join (lit " ") (features p))) w = true
            \/ includes (toLowerCase (description p)) w = true)).
Proof.
  unfold product_score. destruct (fold_add_word p ws 0) as [Hb Hm].
  split; [lia | exact Hm].
Qed.

(** X2. The keyword search returns products of the catalog, none of them
    twice; when the ids of the catalog are distinct, every product it
    returns has a positive score for the words of the query. *)
Theorem keyword_results_from_catalog (query : jsstring) (ps : list Product) :
  let found := findRelevantProducts toLowerCase query ps in
  NoDup found
  /\ Forall (fun p => In p ps) found
  /\ (NoDup (map id ps) ->
      Forall (fun p => 0 < product_score toLowerCase
                                         (queryWords toLowerCase query) p)
             found).
Proof.
  cbv zeta. unfold findRelevantProducts.
  destruct (queryWords toLowerCase query) as [|w0 ws] eqn:Hw;
    [repeat split; constructor|].
  rewrite <- Hw. set (words := queryWords toLowerCase query).
  set (t := score_table toLowerCase words ps).
  split; [|split].
  - apply resolved_NoDup. unfold slice0. apply firstn_NoDup_of.
    unfold sortedProductIds.
    eapply Permutation_NoDup;
      [symmetry; apply Array_sort_perm|].
    apply Object_keys_NoDup, score_table_NoDup.
  - apply Forall_forall. intros p Hp. apply keep_defined_in in Hp.
    apply in_map_iff in Hp. destruct Hp as (k & Hk & _).
    now apply find_product_some in Hk.
  - intros Hnd. apply Forall_forall. intros p Hp.
    apply keep_defined_in in Hp. apply in_map_iff in Hp.
    destruct Hp as (k & Hk & Hin).
    unfold slice0 in Hin. apply firstn_in in Hin.
    unfold sortedProductIds in Hin. apply Array_sort_in in Hin.
    apply Object_keys_in in Hin.
    destruct (table_get_key t k Hin) as [v Hv].
    destruct (score_table_sound toLowerCase query ps Hnd k v Hv)
      as (p' & Hp' & Hs).
    rewrite Hk in Hp'. inversion Hp'; subst p'. fold words in Hs. rewrite Hs.
    clear - Hv. subst t. unfold score_table in Hv.
    assert (H : forall t0 : table,
               (forall k v, table_get t0 k = Some v -> 0 < v) ->
               forall k v,
                 table_get (fold_left (add_product toLowerCase words) ps t0) k
                 = Some v -> 0 < v).
    { clear. induction ps as [|q ps IH]; intros t0 H0 k v; [apply H0|].
      cbn [fold_left]. apply IH. intros k' v'.
      unfold add_product, table_set.
      destruct (0 <? product_score toLowerCase words q) eqn:E; [|apply H0].
      destruct (str_eqb (id q) (lit "__proto__")); [apply H0|].
      rewrite table_get_update.
      destruct (str_eqb (id q) k'); [|apply H0].
      intros H. inversion H; subst. now apply Z.ltb_lt. }
    apply (H [] (fun k v (E : table_get [] k = Some v) =>
                   ltac:(discriminate E)) k v Hv).
Qed.

(** X3. For a catalog whose ids are distinct and are neither array indices
    nor [__proto__], the keyword search returns the first three of the
    products with a positive score, sorted by non-increasing score, the
    products of one score in catalog order. *)
Theorem keyword_search_stable_top3 (query : jsstring) (ps : list Product) :
  NoDup (map id ps) ->
  Forall (fun p => plain_id (id p)) ps ->
  let score := product_score toLowerCase (queryWords toLowerCase query) in
  let matching := filter (fun p => 0 <? score p) ps in
  exists ranked,
    findRelevantProducts toLowerCase query ps = firstn 3 ranked
    /\ Permutation ranked matching
    /\ sorted_desc score ranked
    /\ forall v, filter (fun p => score p =? v) ranked
                 = filter (fun p => score p =? v) matching.
Proof.
  intros Hnd Hplain score matching.
  exists (Array_sort (descending score) matching).
  split; [exact (findRelevantProducts_stable_sort toLowerCase query ps
                   Hnd Hplain)|].
  split; [apply Array_sort_perm|].
  split; [apply Array_sort_sorted|].
  intros v. apply Array_sort_stable.
Qed.

(** X4. The prompt that [handleTextSubmit] sends to the model always holds
    the user's message; it is the message alone exactly when the search
    finds no product, and otherwise it holds the line of every product
    found. *)
Theorem augmented_message_holds_user_text (userMsg : jsstring)
        (ps : list Product) :
  let prompt := augmentedUserMessage toLowerCase userMsg ps in
  let found := findRelevantProducts toLowerCase userMsg ps in
  includes prompt userMsg = true
  /\ (prompt = userMsg <-> found = [])
  /\ Forall (fun p => includes prompt (product_line p) = true) found.
Proof.
  cbv zeta. unfold augmentedUserMessage.
  destruct (findRelevantProducts toLowerCase userMsg ps) as [|p found].
  - split; [apply includes_self|]. split; [tauto | constructor].
  - split; [|split].
    + rewrite !app_assoc. rewrite <- app_assoc.
      apply includes_app.
    + split; [|discriminate]. intros E.
      apply (f_equal (@length Z)) in E.
      rewrite !length_app in E. cbn [length] in E. lia.
    + apply Forall_forall. intros q Hq.
      destruct (join_holds newline (map product_line (p :: found))
                           (product_line q)) as (a & b & E);
        [now apply in_map|].
      rewrite E. rewrite <- !app_assoc.
      rewrite (app_assoc (lit _) newline). rewrite (app_assoc _ a).
      apply includes_app.
Qed.

End Scores.

Lemma keyword_results_from_catalog_witness :
  Forall (fun p => 0 < product_score toLowerCase_latin
                                     (queryWords toLowerCase_latin
                                                 (lit "steel arm")) p)
         (findRelevantProducts toLowerCase_latin (lit "steel arm")
                               [mic_2; mic_1]).
Proof.
  apply (keyword_results_from_catalog toLowerCase_latin (lit "steel arm")
           [mic_2; mic_1]).
  repeat constructor; cbn; intuition discriminate.
Defined.

Lemma keyword_search_stable_top3_witness :
  exists ranked,
    findRelevantProducts toLowerCase_latin (lit "desk gear") desk_catalog
    = firstn 3 ranked
    /\ Permutation ranked
         (filter (fun p => 0 <? product_score toLowerCase_latin
                                  (queryWords toLowerCase_latin (lit "desk gear"))
                                  p)
                 desk_catalog).
Proof.
  destruct (keyword_search_stable_top3 toLowerCase_latin (lit "desk gear")
              desk_catalog)
    as (ranked & H1 & H2 & _).
  - repeat constructor; cbn; intuition discriminate.
  - repeat constructor; discriminate.
  - exists ranked. split; assumption.
Defined.

End KeywordFacts.

(* ================================================================== *)
(** * The embedding ranking and the similarity: what they return *)
(* ================================================================== *)

Module EmbeddingFacts.

Import Gemini FloatFacts CosineFacts RankingFacts Samples.

Local Unset Implicit Arguments.
Local Open Scope float_scope.

Lemma sort_insert_permutation (A : Type) (c : A -> A -> comparison) (x : A)
      (l : list A) :
  Permutation (sort_insert c x l) (x :: l).
Proof.
  induction l as [|y l IH]; cbn [sort_insert]; [reflexivity|].
  destruct (c x y); try reflexivity.
  rewrite IH. apply perm_swap.
Qed.

Lemma Array_sort_permutation (A : Type) (c : A -> A -> comparison)
      (l : list A) :
  Permutation (Array_sort c l) l.
Proof.
  induction l as [|x l IH]; [reflexivity|].
  cbn [Array_sort fold_right]. fold (Array_sort c l).
  rewrite sort_insert_permutation. now constructor.
Qed.

Lemma mapi_from_length (A B : Type) (f : A -> nat -> B) (l : list A) :
  forall i, length (mapi_from f l i) = length l.
Proof.
  induction l as [|x l IH]; intros i; cbn [mapi_from length];
    [reflexivity | now rewrite IH].
Qed.

(** X5. Whatever the embeddings are, also when some are missing, the
    embedding ranking returns three products of the catalog, or all of them
    when the catalog has fewer: it has no threshold of relevance. The
    products returned are the first three of a rearrangement of the
    catalog. *)
Theorem embedding_ranking_fills_top3 (ps : list Product)
        (embeddings : list (list float)) :
  length (relevantProducts ps embeddings) = Nat.min 3 (length ps)
  /\ exists ranked,
      relevantProducts ps embeddings = firstn 3 ranked
      /\ Permutation (map product ranked) ps.
Proof.
  unfold relevantProducts, slice0, topK. split.
  - rewrite length_firstn.
    rewrite (Permutation_length (Array_sort_permutation _ by_similarity _)).
    unfold productsWithSimilarity, mapi. now rewrite mapi_from_length.
  - eexists. split; [reflexivity|].
    rewrite (Permutation_map product (Array_sort_permutation _ by_similarity _)).
    now rewrite productsWithSimilarity_products.
Qed.

(** X6. When every similarity computed is a number, the embedding ranking
    returns the first three of the catalog sorted by non-increasing
    similarity, the products of one similarity in catalog order. *)
Theorem embedding_ranking_stable_top3 (ps : list Product)
        (embeddings : list (list float)) :
  let scored := productsWithSimilarity ps embeddings in
  Forall (fun a => number (sim a)) scored ->
  exists ranked,
    relevantProducts ps embeddings = firstn 3 ranked
    /\ Permutation ranked scored
    /\ sorted_by_similarity ranked
    /\ forall v, filter (fun a => sim a =? v) ranked
                 = filter (fun a => sim a =? v) scored.
Proof.
  intros scored H. exists (Array_sort by_similarity scored).
  split; [reflexivity|].
  split; [apply Array_sort_permutation|].
  split; [now apply Array_sort_by_similarity|].
  intros v. now apply Array_sort_by_similarity_stable.
Qed.

Lemma embedding_ranking_stable_top3_witness :
  exists ranked,
    relevantProducts [mic_2; mic_1] [[1; 0]; [0; 1]; [1; 1]]
    = firstn 3 ranked
    /\ map (fun a => name (product a)) ranked = [name mic_1; name mic_2].
Proof.
  destruct (embedding_ranking_stable_top3 [mic_2; mic_1]
              [[1; 0]; [0; 1]; [1; 1]])
    as (ranked & H & _).
  - repeat constructor.
  - exists (Array_sort by_similarity
              (productsWithSimilarity [mic_2; mic_1] [[1; 0]; [0; 1]; [1; 1]])).
    split; [reflexivity|]. vm_compute. reflexivity.
Defined.

(** ** Zero vectors *)

Lemma zero_cases (x : float) : (x =? 0) = true -> x = 0 \/ x = -0.
Proof.
  rewrite eqb_spec. intros H.
  rewrite <- (SF2Prim_Prim2SF x).
  destruct (Prim2SF x) as [s|s| |s m e]; cbn in H;
    try (destruct s; discriminate H); try discriminate H.
  destruct s; [right | left]; reflexivity.
Qed.

Lemma zero_square (x : float) : (x =? 0) = true -> 0 + x * x = 0.
Proof.
  intros H. destruct (zero_cases x H) as [-> | ->]; reflexivity.
Qed.

Lemma mag_zero (z : list float) :
  Forall (fun x => (x =? 0) = true) z -> mag z = 0.
Proof.
  intros H. unfold mag, reduce.
  assert (E : forall i, reduce_from (fun acc val (_ : nat) => acc + val * val)
                                    z i 0 = 0).
  { induction H as [|x z Hx _ IH]; intros i; cbn [reduce_from];
      [reflexivity|].
    rewrite (zero_square x Hx). apply IH. }
  now rewrite E.
Qed.

(** X7. The similarity of a vector whose components are all zero (of
    either sign), the empty vector among them, with any vector of any
    length is 0, in either order: the test of the magnitudes comes before
    the division, and the dot product, which may be [NaN], is not used. *)
Theorem cosineSimilarity_zero_vector (z v : list float) :
  Forall (fun x => (x =? 0) = true) z ->
  cosineSimilarity z v = 0 /\ cosineSimilarity v z = 0.
Proof.
  intros H. unfold cosineSimilarity. rewrite (mag_zero z H).
  split; [reflexivity|].
  now rewrite orb_true_r.
Qed.

Lemma cosineSimilarity_zero_vector_witness :
  cosineSimilarity [0; -0; 0] [1; 2] = 0
  /\ cosineSimilarity [1; 2] [] = 0.
Proof.
  split.
  - apply (cosineSimilarity_zero_vector [0; -0; 0] [1; 2]).
    repeat constructor.
  - apply (cosineSimilarity_zero_vector [] [1; 2]). constructor.
Defined.

(** ** Symmetry *)

Lemma SFmul_comm (x y : spec_float) :
  SFmul prec emax x y = SFmul prec emax y x.
Proof.
  destruct x as [sx|sx| |sx mx ex], y as [sy|sy| |sy my ey];
    cbn [SFmul]; try reflexivity; try now rewrite xorb_comm.
  now rewrite xorb_comm, Pos.mul_comm, Z.add_comm.
Qed.

Lemma mul_comm (x y : float) : x * y = y * x.
Proof.
  apply Prim2SF_inj. rewrite !mul_spec. apply SFmul_comm.
Qed.

Lemma dot_spec_comm (a : list float) :
  forall (b : list float) (acc : float),
    fold_left (fun acc xy => acc + fst xy * snd xy) (combine a b) acc
    = fold_left (fun acc xy => acc + fst xy * snd xy) (combine b a) acc.
Proof.
  induction a as [|x a IH]; intros [|y b] acc; cbn [combine fold_left fst snd];
    try reflexivity.
  rewrite (mul_comm x y). apply IH.
Qed.

(** X8. On two vectors of one length the similarity does not depend on
    the order of its arguments. *)
Theorem cosineSimilarity_symmetric (a b : list float) :
  length a = length b -> cosineSimilarity a b = cosineSimilarity b a.
Proof.
  intros H. unfold cosineSimilarity.
  rewrite (dotProduct_is_dot a b), (dotProduct_is_dot b a) by lia.
  unfold dot_spec. rewrite (dot_spec_comm a b 0).
  rewrite (orb_comm (mag a =? 0)), (mul_comm (mag a)). reflexivity.
Qed.

Lemma cosineSimilarity_symmetric_witness :
  cosineSimilarity [3; 4] [4; 3] = cosineSimilarity [4; 3] [3; 4].
Proof.
  apply (cosineSimilarity_symmetric [3; 4] [4; 3]). reflexivity.
Defined.

End EmbeddingFacts.

(* ================================================================== *)
(** * The server function: its responses and its calls *)
(* ================================================================== *)

Module ServerFacts.

Import Gemini Samples Cases.

Local Unset Implicit Arguments.
Local Open Scope Z_scope.

(** Running the handler down to the calls of its collaborators. *)
Ltac run_handler :=
  unfold invoke, handler;
  cbv beta iota zeta delta
      [negb try_catch handler_try bind call ret getEmbeddings throw respond];
  cbn [app].

Section Server.

Variable number_toString : float -> jsstring.
Variable world : World.
Variable event : HandlerEvent.

(** The possible courses of one invocation. *)
Lemma handler_cases :
  exists r calls,
    invoke number_toString world event = (Returned r, calls)
    /\ ((statusCode r = 405 /\ calls = []
         /\ str_eqb (httpMethod event) (lit "POST") = false)
        \/ (statusCode r = 500 /\ calls = []
            /\ str_eqb (httpMethod event) (lit "POST") = true
            /\ (GEMINI_API_KEY world = None \/ GEMINI_API_KEY world = Some []))
        \/ (statusCode r = 400 /\ calls = []
            /\ (parsed_body event = inr None
                \/ parsed_body event = inr (Some [])))
        \/ (statusCode r = 500 /\ calls <> []
            /\ exists message, body r = ErrorBody message)
        \/ (statusCode r = 200 /\ calls <> []
            /\ exists chatResult, body r = ResultBody chatResult)).
Proof.
  run_handler.
  destruct (str_eqb (httpMethod event) (lit "POST")) eqn:Hpost;
    [|eexists; eexists; split; [reflexivity|]; left; auto].
  destruct (GEMINI_API_KEY world) as [[|k0 k]|] eqn:Hkey;
    try (eexists; eexists; split; [reflexivity|]; right; left; now auto).
  destruct (parsed_body event) as [m | [[|c0 cs]|]] eqn:Hbody; cbn [app];
    try (eexists; eexists; split; [reflexivity|];
         right; right; left; now auto).
  - eexists; eexists; split; [reflexivity|].
    right; right; right; left. split; [reflexivity|].
    split; [discriminate | eexists; reflexivity].
  - destruct (products_file world) as [m | products]; cbn [app].
    + eexists; eexists; split; [reflexivity|].
      right; right; right; left. split; [reflexivity|].
      split; [discriminate | eexists; reflexivity].
    + destruct (embedding_api world _) as [m | st | embeddings]; cbn [app];
        try (eexists; eexists; split; [reflexivity|];
             right; right; right; left; split; [reflexivity|];
             split; [discriminate | eexists; reflexivity]).
      destruct (chat_api world _) as [m | st | chatResult]; cbn [app];
        eexists; eexists; (split; [reflexivity|]);
        right; right; right; [left | left | right];
        (split; [reflexivity|]); (split; [discriminate | eexists; reflexivity]).
Qed.

(** X9. The handler never rejects: whatever the request, the
    configuration, the catalog file and the two services do, it returns a
    response, whose status is 200, 400, 405 or 500; the status is 200
    exactly when the body is a reply of the chat model, and every other
    body is an error message. *)
Theorem handler_always_responds :
  exists r calls,
    invoke number_toString world event = (Returned r, calls)
    /\ (statusCode r = 200 \/ statusCode r = 400 \/ statusCode r = 405
        \/ statusCode r = 500)
    /\ (statusCode r = 200 <-> exists chatResult, body r = ResultBody chatResult).
Proof.
  run_handler.
  destruct (str_eqb (httpMethod event) (lit "POST"));
    cbv beta iota;
    [|eexists; eexists; split; [reflexivity|]; cbn; split; [auto|];
      split; [discriminate | intros [? H]; discriminate H]].
  destruct (GEMINI_API_KEY world) as [[|k0 k]|];
    try (eexists; eexists; split; [reflexivity|]; cbn; split; [auto|];
         split; [discriminate | intros [? H]; discriminate H]).
  destruct (parsed_body event) as [m | [[|c0 cs]|]]; cbn [app];
    try (eexists; eexists; split; [reflexivity|]; cbn; split; [auto|];
         split; [discriminate | intros [? H]; discriminate H]).
  destruct (products_file world) as [m | products]; cbn [app];
    try (eexists; eexists; split; [reflexivity|]; cbn; split; [auto|];
         split; [discriminate | intros [? H]; discriminate H]).
  destruct (embedding_api world _) as [m | st | embeddings]; cbn [app];
    try (eexists; eexists; split; [reflexivity|]; cbn; split; [auto|];
         split; [discriminate | intros [? H]; discriminate H]).
  destruct (chat_api world _) as [m | st | chatResult]; cbn [app];
    eexists; eexists; (split; [reflexivity|]); cbn; (split; [auto|]);
    try (split; [discriminate | intros [? H]; discriminate H]).
  split; [eauto | reflexivity].
Qed.

(** X10. The checks of the request come first and in this order: the
    method, the API key, the prompt. A request that fails one of them is
    answered 405, 500 or 400 with a fixed message, and neither the catalog
    file nor a service is touched; every other request makes at least one
    call. *)
Theorem rejected_requests_make_no_calls :
  (str_eqb (httpMethod event) (lit "POST") = false ->
   invoke number_toString world event
   = (Returned {| statusCode := 405;
                  body := ErrorBody (lit "Method Not Allowed") |}, []))
  /\ (str_eqb (httpMethod event) (lit "POST") = true ->
      GEMINI_API_KEY world = None \/ GEMINI_API_KEY world = Some [] ->
      invoke number_toString world event
      = (Returned {| statusCode := 500;
                     body := ErrorBody (lit "API key not configured") |}, []))
  /\ (str_eqb (httpMethod event) (lit "POST") = true ->
      (exists k0 k, GEMINI_API_KEY world = Some (k0 :: k)) ->
      parsed_body event = inr None \/ parsed_body event = inr (Some []) ->
      invoke number_toString world event
      = (Returned {| statusCode := 400;
                     body := ErrorBody (lit "Prompt is required") |}, []))
  /\ (snd (invoke number_toString world event) = [] ->
      str_eqb (httpMethod event) (lit "POST") = false
      \/ GEMINI_API_KEY world = None \/ GEMINI_API_KEY world = Some []
      \/ parsed_body event = inr None \/ parsed_body event = inr (Some [])).
Proof.
  split; [|split; [|split]].
  - intros Hpost. run_handler. now rewrite Hpost.
  - intros Hpost Hkey. run_handler. rewrite Hpost.
    now destruct Hkey as [-> | ->].
  - intros Hpost (k0 & k & Hkey) Hbody. run_handler. rewrite Hpost, Hkey.
    now destruct Hbody as [-> | ->].
  - destruct handler_cases as (r & calls & -> & H). cbn [snd].
    intros ->.
    destruct H as [(_ & _ & H) | [(_ & _ & _ & H) | [(_ & _ & H)
                  | [(_ & H & _) | (_ & H & _)]]]];
      try tauto; congruence.
Qed.



End Server.

Lemma rejected_requests_make_no_calls_witness :
  invoke sample_price_text embeddings_down get_event
  = (Returned {| statusCode := 405;
                 body := ErrorBody (lit "Method Not Allowed") |}, [])
  /\ invoke sample_price_text embeddings_down blank_event
     = (Returned {| statusCode := 400;
                    body := ErrorBody (lit "Prompt is required") |}, []).
Proof.
  split.
  - apply (rejected_requests_make_no_calls sample_price_text embeddings_down
             get_event). reflexivity.
  - apply (rejected_requests_make_no_calls sample_price_text embeddings_down
             blank_event);
      [reflexivity | now exists 107, (lit "ey") | now left].
Defined.



End ServerFacts.

(* ================================================================== *)
(** * The chat component: the message list and the turns *)
(* ================================================================== *)

Module TurnFacts.

Import Session Samples Cases SessionFacts MessageFacts TextFacts RankingFacts.

Local Unset Implicit Arguments.

(** A message that shows something: a text or a product card. *)
Local Abbreviation shown :=
  (fun m : Message => content m <> [] \/ recommendation m <> None).

(** The state [s'] has the messages of [s] and then some more, each with
    the property [P]. *)
Local Abbreviation appends P s s' :=
  (exists more, messages s' = messages s ++ more /\ Forall P more).

Lemma appends_same (P : Message -> Prop) (s s' : State) :
  messages s' = messages s -> appends P s s'.
Proof. intros ->. exists []. now rewrite app_nil_r. Qed.

Lemma appends_trans (P : Message -> Prop) (s1 s2 s3 : State) :
  appends P s1 s2 -> appends P s2 s3 -> appends P s1 s3.
Proof.
  intros (m1 & E1 & H1) (m2 & E2 & H2). exists (m1 ++ m2).
  rewrite E2, E1, app_assoc. split; [reflexivity|].
  apply Forall_app. now split.
Qed.

Lemma appends_weaken (P Q : Message -> Prop) (s s' : State) :
  (forall m, P m -> Q m) -> appends P s s' -> appends Q s s'.
Proof.
  intros H (more & E & HP). exists more. split; [exact E|].
  eapply Forall_impl; eauto.
Qed.

Lemma appends_addMessage (P : Message -> Prop) now r c rec why s :
  P {| msg_id := now_toString now; role := r; content := c; timestamp := now;
       recommendation := rec; reason := why |} ->
  appends P s (addMessage now r c rec why s).
Proof.
  intros H. eexists. split; [reflexivity|]. now constructor.
Qed.

(** ** The handlers of the version of [src/types.ts] *)

Section DirectMessages.

Variable toLowerCase : jsstring -> jsstring.

Lemma fallback_shown now s :
  appends shown s (Direct.submit_catch now s).
Proof.
  unfold Direct.submit_catch.
  apply appends_trans with (s2 := effect ConsoleError s);
    [now apply appends_same|].
  apply appends_addMessage. left. discriminate.
Qed.

Lemma process_appends ps now response s s' :
  Direct.processAiResponse ps now response s = Some s' ->
  appends shown s s'.
Proof.
  intros H. apply direct_appends_no_empty_message in H.
  destruct H as [-> | (m & E & Hm)]; [now apply appends_same|].
  exists [m]. split; [exact E | now constructor].
Qed.

Lemma direct_submit_appends ps now created s :
  appends shown s (fst (Direct.handleTextSubmit toLowerCase ps now created s)).
Proof.
  unfold Direct.handleTextSubmit.
  destruct (trim (inputText s)) as [|c0 cs] eqn:Ht;
    [now apply appends_same|].
  destruct (isTyping s); cbn [truthy negb orb fst]; [now apply appends_same|].
  set (s1 := setIsTyping true
               (addMessage now user (c0 :: cs) None None (setInputText [] s))).
  assert (H1 : appends shown s s1).
  { exists [user_message now (c0 :: cs)]. split; [reflexivity|].
    constructor; [left; discriminate | constructor]. }
  destruct (negb (chatSessionRef s1) && negb created); cbn [fst].
  - eapply appends_trans; [exact H1|].
    unfold Direct.submit_finally.
    eapply appends_trans; [apply fallback_shown | now apply appends_same].
  - eapply appends_trans; [exact H1|]. apply appends_same.
    now destruct (chatSessionRef s1).
Qed.

Lemma direct_settle_appends ps now o s :
  appends shown s (Direct.handleTextSubmit_settle ps now o s)
  /\ appends shown s (Direct.initChat_settle ps now o s).
Proof.
  unfold Direct.handleTextSubmit_settle, Direct.initChat_settle,
    Direct.submit_finally.
  split.
  - eapply appends_trans; [|now apply appends_same].
    destruct o as [response|]; [|apply fallback_shown].
    destruct (Direct.processAiResponse ps now response s) as [s'|] eqn:E;
      [now apply process_appends in E | apply fallback_shown].
  - eapply appends_trans; [|now apply appends_same].
    assert (Hg : appends shown s
                   (addMessage now assistant greeting_fallback_text
                               None None s))
      by (apply appends_addMessage; left; discriminate).
    destruct o as [response|]; [|exact Hg].
    destruct (Direct.processAiResponse ps now response s) as [s'|] eqn:E;
      [now apply process_appends in E | exact Hg].
Qed.

(** The loop over the tool calls of a voice message appends one message
    for each call that names a product of the catalog, with that product. *)
Lemma tool_calls_appends ps now fcs :
  forall s,
    appends (fun m => role m = assistant
                      /\ exists prod, recommendation m = Some prod
                                      /\ In prod ps)
            s (fst (Direct.tool_calls ps now fcs s)).
Proof.
  induction fcs as [|fc fcs IH]; intros s; cbn [Direct.tool_calls].
  - now apply appends_same.
  - destruct (str_eqb (Direct.call_name fc) Direct.recommend_product);
      [|apply IH].
    destruct (Direct.call_args fc) as [args|]; [|now apply appends_same].
    eapply appends_trans; [|apply IH].
    eapply appends_trans; [|now apply appends_same].
    unfold Direct.resolve.
    destruct (Direct.productId args) as [i|]; [|now apply appends_same].
    destruct (find_product ps i) as [prod|] eqn:E; [|now apply appends_same].
    apply appends_addMessage. split; [reflexivity|].
    exists prod. split; [reflexivity|]. now apply find_product_some in E.
Qed.

Lemma direct_other_shape ps o s :
  messages (direct_other ps o s) = messages s
  \/ exists now fcs,
      messages (direct_other ps o s)
      = messages (fst (Direct.tool_calls ps now fcs s)).
Proof.
  destruct o as [v | now t m | d m | src |]; fields.
  - left. unfold Direct.toggleMode, Direct.startVoiceSession,
      Direct.stopVoiceSession, Direct.new_resource.
    destruct (mode s), v; updates;
      try destruct (voiceSessionRef s); updates;
      try destruct (audioContextRef s) as [[? ?]|];
      reflexivity.
  - unfold Direct.onmessage.
    destruct (Direct.toolCall m) as [fcs|].
    + right. exists now, fcs.
      destruct (Direct.tool_calls ps now fcs s) as [s1 done]. fields.
      destruct done; fields; [|reflexivity].
      destruct (Direct.audioData m) as [[|? ?]|]; fields.
      * apply on_interrupted_keeps.
      * destruct (audioContextRef s1); reflexivity.
      * apply on_interrupted_keeps.
    + left. destruct (Direct.audioData m) as [[|? ?]|]; fields.
      * apply on_interrupted_keeps.
      * destruct (audioContextRef s); reflexivity.
      * apply on_interrupted_keeps.
  - left. unfold Direct.onmessage_decoded.
    match goal with
    | |- context [Direct.on_interrupted m ?x] =>
        destruct (on_interrupted_keeps m x) as [_ H2]; rewrite H2
    end.
    reflexivity.
  - now left.
  - now left.
Qed.

Lemma direct_other_appends ps o s :
  appends shown s (direct_other ps o s).
Proof.
  destruct (direct_other_shape ps o s) as [E | (now & fcs & E)];
    [now apply appends_same|].
  destruct (tool_calls_appends ps now fcs s) as (more & Hm & HP).
  exists more. split; [congruence|].
  eapply Forall_impl; [|exact HP].
  intros m (_ & prod & -> & _). right. discriminate.
Qed.

Lemma direct_step_appends e sys :
  appends shown (ui sys) (ui (direct_step toLowerCase e sys)).
Proof.
  unfold direct_step, step.
  destruct e as [t | now created | now r | ps' created | o]; cbn [ui].
  - now apply appends_same.
  - pose proof (direct_submit_appends (products_of (catalog sys)) now
                                      created (ui sys)) as H.
    now destruct (Direct.handleTextSubmit _ _ _ _ _).
  - destruct (inflight sys) as [|[|] rest]; cbn [ui];
      [now apply appends_same | |]; apply direct_settle_appends.
  - destruct (catalog sys); [now apply appends_same|].
    destruct (Direct.products_effect ps' created (ui sys)) as [s' q] eqn:E.
    cbn [ui]. apply appends_same. unfold Direct.products_effect in E.
    destruct (messages (ui sys)) eqn:Em, ps', created; inversion E; subst;
      cbn [messages effect setIsTyping set_chatSessionRef]; congruence.
  - apply direct_other_appends.
Qed.

(** X13. In the version of [src/types.ts] the message list only grows:
    whatever the events, the messages after them are the messages before
    and then the new ones. Every message appended has a text or carries a
    product, so from the mounting on no empty message is in the list. *)
Theorem direct_messages_grow_and_show
        (c : option (list Product)) (created : bool)
        (events : list (Event Direct.Settled DirectOther)) (sys : System) :
  (exists more,
      messages (ui (direct_run toLowerCase events sys))
      = messages (ui sys) ++ more
      /\ Forall (fun m => content m <> [] \/ recommendation m <> None) more)
  /\ Forall (fun m => content m <> [] \/ recommendation m <> None)
            (messages (ui (direct_run toLowerCase events
                                      (direct_mounted c created)))).
Proof.
  assert (Hrun : forall events sys,
             appends shown (ui sys) (ui (direct_run toLowerCase events sys))).
  { clear. unfold direct_run.
    induction events as [|e events IH]; intros sys; cbn [fold_left];
      [now apply appends_same|].
    eapply appends_trans; [apply direct_step_appends | apply IH]. }
  split; [apply Hrun|].
  destruct (Hrun events (direct_mounted c created)) as (more & -> & H).
  assert (E : messages (ui (direct_mounted c created)) = []).
  { unfold direct_mounted, mounted, Direct.products_effect.
    cbn [messages initial].
    now destruct (products_of c), created. }
  now rewrite E.
Qed.

End DirectMessages.

(** ** The handlers of the version of [src/components/ChatInterface.tsx] *)

Lemma proxy_step_appends e sys :
  exists more, messages (ui (proxy_step e sys)) = messages (ui sys) ++ more.
Proof.
  assert (Hsame : forall s s' : State,
             messages s' = messages s ->
             exists more, messages s' = messages s ++ more)
    by (intros s s' ->; exists []; now rewrite app_nil_r).
  unfold proxy_step, step.
  destruct e as [t | now created | now r | ps' created | o]; cbn [ui].
  - now apply Hsame.
  - unfold Proxy.handleTextSubmit.
    destruct (negb (truthy (trim (inputText (ui sys)))) || isTyping (ui sys));
      cbn [ui]; [now apply Hsame|].
    eexists. reflexivity.
  - destruct (inflight sys) as [|[|] rest]; cbn [ui]; [now apply Hsame | |].
    + unfold Proxy.initChat_settle. destruct r as [|[] [data|]];
        eexists; reflexivity.
    + unfold Proxy.handleTextSubmit_settle. destruct r as [|[] [data|]];
        eexists; reflexivity.
  - destruct (catalog sys); [now apply Hsame|].
    apply Hsame. unfold Proxy.products_effect.
    destruct (messages (ui sys)) eqn:E, ps';
      cbn [ui messages setIsTyping effect]; congruence.
  - apply Hsame. apply proxy_toggle_keeps.
Qed.

(** X14. In the version of [src/components/ChatInterface.tsx] too the
    message list only grows: no event removes, replaces or reorders a
    message. *)
Theorem proxy_messages_grow (events : list (Event Proxy.Fetched unit))
        (sys : System) :
  exists more,
    messages (ui (proxy_run events sys)) = messages (ui sys) ++ more.
Proof.
  unfold proxy_run. revert sys.
  induction events as [|e events IH]; intros sys; cbn [fold_left].
  - exists []. now rewrite app_nil_r.
  - destruct (IH (proxy_step e sys)) as (m2 & ->).
    destruct (proxy_step_appends e sys) as (m1 & ->).
    exists (m1 ++ m2). now rewrite app_assoc.
Qed.

(** ** Submissions *)

Section Turns.

Variable toLowerCase : jsstring -> jsstring.
Variable products : list Product.

(** X15. An input that is empty or holds white space only is ignored by
    both versions: the state is unchanged, nothing is appended and no call
    is made. *)
Theorem blank_input_is_ignored (now : Z) (created : bool) (s : State) :
  forallb is_space (inputText s) = true ->
  Direct.handleTextSubmit toLowerCase products now created s = (s, None)
  /\ Proxy.handleTextSubmit now s = (s, None).
Proof.
  intros H. unfold Direct.handleTextSubmit, Proxy.handleTextSubmit.
  now rewrite (trim_blank _ H).
Qed.

(** X16. A turn whose call is answered with a text: the input is cleared,
    the user's message is appended as typed (trimmed), and then the reply;
    the busy flag is down afterwards. The version of [src/types.ts] sends
    the model the message augmented with the products found, the version
    of [src/components/ChatInterface.tsx] posts the message itself. *)
Theorem answered_turn_appends_reply (now now' : Z) (created : bool)
        (reply : jsstring) (s : State) :
  isTyping s = false -> trim (inputText s) <> [] ->
  chatSessionRef s = true \/ created = true ->
  reply <> [] ->
  let said := trim (inputText s) in
  let answer :=
    {| msg_id := now_toString now'; role := assistant; content := reply;
       timestamp := now'; recommendation := None; reason := None |} in
  (exists s1,
      Direct.handleTextSubmit toLowerCase products now created s
      = (s1, Some (augmentedUserMessage toLowerCase said products))
      /\ inputText s1 = []
      /\ let s2 :=
           Direct.handleTextSubmit_settle
             products now'
             (Direct.Resolved {| Direct.resp_text := Some reply;
                                 Direct.functionCalls := None |}) s1 in
         messages s2 = messages s ++ [user_message now said; answer]
         /\ isTyping s2 = false)
  /\ (exists s1,
         Proxy.handleTextSubmit now s = (s1, Some said)
         /\ inputText s1 = []
         /\ forall data,
             Proxy.response_text data = reply ->
             let s2 := Proxy.handleTextSubmit_settle
                         now' (Proxy.FetchResponse true (Some data)) s1 in
             messages s2 = messages s ++ [user_message now said; answer]
             /\ isTyping s2 = false).
Proof.
  intros Ht Hin Hc Hr said answer. split.
  - unfold Direct.handleTextSubmit. rewrite Ht. subst said.
    destruct (trim (inputText s)) as [|c0 cs] eqn:Htrim; [congruence|].
    updates.
    assert (Hgo : negb (chatSessionRef s) && negb created = false)
      by (destruct Hc as [Hc | Hc]; rewrite Hc;
          [reflexivity | apply andb_false_r]).
    rewrite Hgo. eexists. split; [reflexivity|].
    split; [now destruct (chatSessionRef s)|].
    unfold Direct.handleTextSubmit_settle, Direct.processAiResponse.
    cbn [Direct.functionCalls Direct.resp_text].
    destruct reply as [|r0 rs]; [congruence|]. cbn [truthy orb].
    destruct (chatSessionRef s); updates; rewrite <- app_assoc;
      split; reflexivity.
  - unfold Proxy.handleTextSubmit. rewrite Ht. subst said.
    destruct (trim (inputText s)) as [|c0 cs] eqn:Htrim; [congruence|].
    fields. eexists. split; [reflexivity|]. split; [reflexivity|].
    intros data Hd. unfold Proxy.handleTextSubmit_settle. rewrite Hd.
    updates. rewrite <- app_assoc. split; reflexivity.
Qed.

(** X17. Of the function calls of a response only the first counts. When it
    is a [recommend_product] call whose [productId] is the id of a product
    of the catalog, one assistant message is appended, also when the
    response has no text; it carries the first product of the catalog with
    that id, and the reasoning of the call as its reason. *)
Theorem resolved_recommendation_attached
        (now : Z) (response : Direct.ModelResponse)
        (call : Direct.FunctionCall) (rest : list Direct.FunctionCall)
        (args : Direct.Args) (i : jsstring) (p : Product) (s : State) :
  Direct.functionCalls response = Some (call :: rest) ->
  str_eqb (Direct.call_name call) Direct.recommend_product = true ->
  Direct.call_args call = Some args ->
  Direct.productId args = Some i ->
  find_product products i = Some p ->
  exists s',
    Direct.processAiResponse products now response s = Some s'
    /\ messages s'
       = messages s
         ++ [{| msg_id := now_toString now; role := assistant;
                content := Direct.reply_text response; timestamp := now;
                recommendation := Some p;
                reason := Direct.reasoning args |}]
    /\ In p products /\ id p = i.
Proof.
  intros Hcalls Hname Hargs Hid Hfind.
  unfold Direct.processAiResponse, Direct.resolve, Direct.reply_text.
  rewrite Hcalls, Hname, Hargs, Hid, Hfind. cbn [Direct.is_some].
  rewrite orb_true_r. eexists. split; [reflexivity|].
  split; [reflexivity|]. now apply find_product_some in Hfind.
Qed.

(** X18. A response whose first call is a [recommend_product] call without
    arguments makes [processAiResponse] throw; the turn ends like a failed
    call, with the fallback message and the busy flag down, and the text of
    the response is lost. *)
Theorem recommendation_without_arguments_fails
        (now : Z) (response : Direct.ModelResponse)
        (call : Direct.FunctionCall) (rest : list Direct.FunctionCall)
        (s : State) :
  Direct.functionCalls response = Some (call :: rest) ->
  str_eqb (Direct.call_name call) Direct.recommend_product = true ->
  Direct.call_args call = None ->
  Direct.processAiResponse products now response s = None
  /\ let s' := Direct.handleTextSubmit_settle products now
                                              (Direct.Resolved response) s in
     messages s' = messages s ++ [fallback_message now]
     /\ isTyping s' = false
     /\ effects s' = effects s ++ [ConsoleError].
Proof.
  intros Hcalls Hname Hargs.
  assert (E : Direct.processAiResponse products now response s = None).
  { unfold Direct.processAiResponse. now rewrite Hcalls, Hname, Hargs. }
  split; [exact E|].
  unfold Direct.handleTextSubmit_settle. rewrite E.
  repeat split; reflexivity.
Qed.

End Turns.

Lemma blank_input_is_ignored_witness :
  let s := setInputText [32; 9; 160; 10]%Z initial in
  Direct.handleTextSubmit toLowerCase_latin [mic_2; mic_1] 1000 true s
  = (s, None).
Proof.
  intros s.
  apply (blank_input_is_ignored toLowerCase_latin [mic_2; mic_1] 1000 true s).
  reflexivity.
Defined.

Lemma answered_turn_appends_reply_witness :
  let s := setInputText (lit " steel arm ") initial in
  exists s1,
    Direct.handleTextSubmit toLowerCase_latin [mic_2; mic_1] 1000 true s
    = (s1, Some (augmentedUserMessage toLowerCase_latin (lit "steel arm")
                                      [mic_2; mic_1]))
    /\ map content
           (messages
              (Direct.handleTextSubmit_settle
                 [mic_2; mic_1] 2000
                 (Direct.Resolved
                    {| Direct.resp_text := Some (lit "Try the arm.");
                       Direct.functionCalls := None |}) s1))
       = [lit "steel arm"; lit "Try the arm."].
Proof.
  intros s.
  assert (Hin : trim (inputText s) <> []) by (vm_compute; discriminate).
  assert (Hr : lit "Try the arm." <> []) by discriminate.
  destruct (answered_turn_appends_reply toLowerCase_latin [mic_2; mic_1]
              1000 2000 true (lit "Try the arm.") s eq_refl Hin
              (or_intror eq_refl) Hr)
    as [(s1 & H1 & _ & H2 & _) _].
  exists s1. split; [exact H1|]. rewrite H2. reflexivity.
Defined.

Lemma resolved_recommendation_attached_witness :
  exists s',
    Direct.processAiResponse [mic_2; mic_1] 1000 card_only initial = Some s'
    /\ map recommendation (messages s') = [Some mic_1]
    /\ map content (messages s') = [[]].
Proof.
  destruct (resolved_recommendation_attached
              [mic_2; mic_1] 1000 card_only arm_call [missing_call]
              {| Direct.productId := Some (lit "1");
                 Direct.reasoning := Some (lit "holds the mic") |}
              (lit "1") mic_1 initial
              eq_refl eq_refl eq_refl eq_refl eq_refl)
    as (s' & H & Hm & _).
  exists s'. split; [exact H|]. rewrite Hm. split; reflexivity.
Defined.

Lemma recommendation_without_arguments_fails_witness :
  map content
      (messages (Direct.handleTextSubmit_settle [mic_2; mic_1] 1000
                   (Direct.Resolved bare_response) initial))
  = [fallback_text].
Proof.
  destruct (recommendation_without_arguments_fails
              [mic_2; mic_1] 1000 bare_response bare_call [] initial
              eq_refl eq_refl eq_refl)
    as (_ & Hm & _).
  rewrite Hm. reflexivity.
Defined.

End TurnFacts.

(* ================================================================== *)
(** * Voice mode: tool calls, interruption, starting and stopping *)
(* ================================================================== *)

Module VoiceControlFacts.

Import Session Samples Cases SessionFacts FloatFacts VoiceFacts TurnFacts
       RankingFacts.

Local Unset Implicit Arguments.

Lemma stop_all_effects (l : list nat) :
  forall s,
    effects (fold_left (fun s src => effect (SourceStopped src) s) l s)
    = effects s ++ map SourceStopped l.
Proof.
  induction l as [|x l IH]; intros s; cbn [fold_left map].
  - now rewrite app_nil_r.
  - rewrite IH. cbn [effect effects]. now rewrite <- app_assoc.
Qed.

Lemma Math_max_zero (t : float) :
  nonneg t -> PrimFloat.eqb (Math_max 0 t) t = true.
Proof.
  intros H. pose proof (nonneg_number H) as Hn.
  pose proof (proj1 (number_spec t) Hn) as Hs.
  unfold nonneg in H. rewrite leb_spec in H. unfold SFleb in H.
  unfold Math_max. change (PrimFloat.is_nan 0) with false.
  unfold number in Hn. rewrite Hn. cbn [orb].
  rewrite !ltb_spec. unfold SFltb.
  destruct (SFcompare (Prim2SF 0) (Prim2SF t)) as [c|] eqn:E;
    [|discriminate H].
  rewrite (SFcompare_antisym _ _ E).
  destruct c; cbn [CompOpp]; try discriminate H.
  - change (PrimFloat.get_sign 0) with false. cbv iota.
    rewrite eqb_spec. unfold SFeqb. now rewrite E.
  - rewrite eqb_spec. unfold SFeqb. now rewrite (SFcompare_refl Hs).
Qed.

Section Voice.

Variable products : list Product.

Lemma tool_calls_trace now fcs :
  Forall (fun fc =>
            str_eqb (Direct.call_name fc) Direct.recommend_product = true ->
            Direct.call_args fc <> None) fcs ->
  forall s,
    snd (Direct.tool_calls products now fcs s) = true
    /\ effects (fst (Direct.tool_calls products now fcs s))
       = effects s
         ++ map (fun fc => ToolResponseSent (Direct.call_id fc))
                (filter (fun fc => str_eqb (Direct.call_name fc)
                                           Direct.recommend_product) fcs)
    /\ (length (messages (fst (Direct.tool_calls products now fcs s)))
        <= length (messages s) + length fcs)%nat.
Proof.
  induction 1 as [|fc fcs Hfc _ IH]; intros s;
    cbn [Direct.tool_calls filter].
  - cbn [fst snd map length]. rewrite app_nil_r. repeat split; lia.
  - destruct (str_eqb (Direct.call_name fc) Direct.recommend_product) eqn:E.
    + destruct (Direct.call_args fc) as [args|]; [|now elim (Hfc eq_refl)].
      match goal with
      | |- context [Direct.tool_calls products now fcs ?x] =>
          destruct (IH x) as (H1 & H2 & H3)
      end.
      split; [exact H1|]. split.
      * rewrite H2. cbn [map effect effects].
        rewrite <- app_assoc. cbn [app].
        now destruct (Direct.resolve products args).
      * eapply Nat.le_trans; [exact H3|]. cbn [effect messages length].
        destruct (Direct.resolve products args);
          cbn [addMessage setMessages messages];
          rewrite ?length_app; cbn [length]; lia.
    + destruct (IH s) as (H1 & H2 & H3).
      split; [exact H1|]. split; [exact H2|]. cbn [length]. lia.
Qed.

(** X19. In voice mode, when every [recommend_product] call of a message
    carries arguments, the loop over the calls completes and answers each of
    them with one tool response, in order, whether or not its product is
    found; it appends at most one message for each call, and every message
    it appends carries a product of the catalog. *)
Theorem voice_calls_acknowledged (now : Z)
        (fcs : list Direct.FunctionCall) (s : State) :
  Forall (fun fc =>
            str_eqb (Direct.call_name fc) Direct.recommend_product = true ->
            Direct.call_args fc <> None) fcs ->
  let out := Direct.tool_calls products now fcs s in
  snd out = true
  /\ effects (fst out)
     = effects s
       ++ map (fun fc => ToolResponseSent (Direct.call_id fc))
              (filter (fun fc => str_eqb (Direct.call_name fc)
                                         Direct.recommend_product) fcs)
  /\ exists more,
      messages (fst out) = messages s ++ more
      /\ (length more <= length fcs)%nat
      /\ Forall (fun m => role m = assistant
                          /\ exists prod, recommendation m = Some prod
                                          /\ In prod products) more.
Proof.
  intros H out. subst out.
  destruct (tool_calls_trace now fcs H s) as (H1 & H2 & H3).
  split; [exact H1|]. split; [exact H2|].
  destruct (tool_calls_appends products now fcs s) as (more & Hm & HP).
  exists more. split; [exact Hm|]. split; [|exact HP].
  rewrite Hm, length_app in H3. lia.
Qed.

(** X20. A message that signals an interruption stops every source that is
    still playing, empties the set of sources and puts the cursor back to
    0. The next segment then starts at the clock of the output context,
    whatever the cursor was before the interruption. *)
Theorem interruption_restarts_playback (now : Z) (t d : float)
        (m m' : Direct.LiveServerMessage) (s : State) :
  Direct.interrupted m = true -> nonneg t ->
  let s1 := Direct.on_interrupted m s in
  audioSourcesRef s1 = []
  /\ nextStartTimeRef s1 = 0%float
  /\ effects s1 = effects s ++ map SourceStopped (audioSourcesRef s)
  /\ let a := Direct.onmessage products now t m' s1 in
     snd a = true ->
     exists src w,
       started (Direct.onmessage_decoded d m' (fst a))
       = started s ++ [(src, w, d)]
       /\ w = Math_max 0 t /\ PrimFloat.eqb w t = true.
Proof.
  intros Hi Ht s1.
  assert (E : s1 = set_nextStartTimeRef
                     0 (set_audioSourcesRef
                          [] (fold_left
                                (fun s src => effect (SourceStopped src) s)
                                (audioSourcesRef s) s)))
    by (subst s1; unfold Direct.on_interrupted; now rewrite Hi).
  split; [now rewrite E|]. split; [now rewrite E|].
  split; [rewrite E; apply stop_all_effects|].
  intros a Ha.
  destruct (onmessage_suspended _ _ _ _ _ Ha) as [Hn Hs]. fold a in Hn, Hs.
  destruct (onmessage_decoded_schedule d m' (fst a)) as [Hst _].
  exists (fresh (fst a)), (nextStartTimeRef (fst a)).
  rewrite Hst, Hs. subst s1. rewrite on_interrupted_started.
  split; [reflexivity|].
  rewrite Hn, E. cbn [set_nextStartTimeRef nextStartTimeRef].
  split; [reflexivity | now apply Math_max_zero].
Qed.

End Voice.

(** X21. Voice mode started and stopped again, in the version of
    [src/types.ts]: starting asks for the microphone and creates the two
    audio contexts and the session; stopping closes the session and the two
    contexts, input first, and goes back to text mode. The microphone
    stream is not released, and the two refs keep the closed session and
    contexts. *)
Theorem voice_session_round_trip (o : Direct.VoiceStart) (s : State) :
  mode s = text ->
  let n := fresh s in
  let s1 := Direct.toggleMode Direct.Connected s in
  let s2 := Direct.toggleMode o s1 in
  (mode s1 = voice /\ isVoiceActive s1 = true)
  /\ (mode s2 = text /\ isVoiceActive s2 = false)
  /\ effects s2
     = effects s
       ++ [StreamGranted n; ContextCreated (S n); ContextCreated (S (S n));
           SessionClosed (S (S (S n)));
           ContextClosed (S n); ContextClosed (S (S n))]
  /\ audioContextRef s2 = Some (S n, S (S n))
  /\ voiceSessionRef s2 = Some (S (S (S n)))
  /\ messages s2 = messages s /\ isTyping s2 = isTyping s.
Proof.
  intros Hm n s1 s2.
  assert (E : s1 = setIsVoiceActive
                     true
                     (set_voiceSessionRef
                        (Some (S (S (S n))))
                        (next_fresh
                           (set_audioContextRef
                              (Some (S n, S (S n)))
                              (effect
                                 (ContextCreated (S (S n)))
                                 (next_fresh
                                    (effect
                                       (ContextCreated (S n))
                                       (next_fresh
                                          (effect
                                             (StreamGranted n)
                                             (next_fresh
                                                (setMode voice s)))))))))))
    by (subst s1 n; unfold Direct.toggleMode; now rewrite Hm).
  subst s2. rewrite E. clear E s1.
  unfold Direct.toggleMode, Direct.stopVoiceSession. updates.
  rewrite <- !app_assoc. repeat split; reflexivity.
Qed.

Lemma proxy_quiet_step e sys :
  let quiet s :=
    mode s = text /\ isVoiceActive s = false /\ voiceSessionRef s = None
    /\ audioContextRef s = None
    /\ Forall (fun e => match e with
                        | Alert _ | ConsoleError | MessageSent _ => True
                        | _ => False
                        end) (effects s) in
  quiet (ui sys) -> quiet (ui (proxy_step e sys)).
Proof.
  intros quiet (H1 & H2 & H3 & H4 & H5). unfold proxy_step, step.
  assert (Hsnoc : forall x,
             match x with
             | Alert _ | ConsoleError | MessageSent _ => True
             | _ => False
             end ->
             Forall (fun e => match e with
                              | Alert _ | ConsoleError | MessageSent _ => True
                              | _ => False
                              end) (effects (ui sys) ++ [x]))
    by (intros x Hx; apply Forall_app; split; [exact H5 | now constructor]).
  destruct e as [t | now created | now r | ps' created | o]; cbn [ui].
  - repeat split; assumption.
  - unfold Proxy.handleTextSubmit.
    destruct (negb (truthy (trim (inputText (ui sys)))) || isTyping (ui sys));
      cbn [ui]; unfold quiet; updates; repeat split; auto.
  - destruct (inflight sys) as [|[|] rest]; cbn [ui];
      [repeat split; assumption | |].
    + unfold Proxy.initChat_settle.
      destruct r as [|[] [data|]]; unfold quiet; updates; repeat split; auto.
    + unfold Proxy.handleTextSubmit_settle.
      destruct r as [|[] [data|]]; unfold quiet; updates; repeat split; auto.
  - destruct (catalog sys); [repeat split; assumption|].
    unfold Proxy.products_effect.
    destruct (messages (ui sys)), ps'; cbn [ui]; unfold quiet; updates;
      repeat split; auto.
  - unfold Proxy.toggleMode. rewrite H1. unfold Proxy.startVoiceSession.
    unfold quiet. updates. repeat split; auto.
Qed.

(** X22. The version of [src/components/ChatInterface.tsx] never enters
    voice mode: from the mounting on and whatever the events, the mode is
    [text], the session is not active, the voice refs are empty, and the
    component has asked for no microphone, created no audio context and
    played nothing; all it does is post prompts, write to the console and
    show the notice. *)
Theorem proxy_never_enters_voice (c : option (list Product))
        (events : list (Event Proxy.Fetched unit)) :
  let s := ui (proxy_run events (proxy_mounted c)) in
  mode s = text /\ isVoiceActive s = false /\ voiceSessionRef s = None
  /\ audioContextRef s = None
  /\ Forall (fun e => match e with
                      | Alert _ | ConsoleError | MessageSent _ => True
                      | _ => False
                      end) (effects s).
Proof.
  cbv zeta. unfold proxy_run.
  assert (H0 : let s := ui (proxy_mounted c) in
               mode s = text /\ isVoiceActive s = false
               /\ voiceSessionRef s = None /\ audioContextRef s = None
               /\ Forall (fun e => match e with
                                   | Alert _ | ConsoleError | MessageSent _ =>
                                       True
                                   | _ => False
                                   end) (effects s)).
  { unfold proxy_mounted, mounted, Proxy.products_effect. cbn [messages initial].
    destruct (products_of c); cbn; repeat split; auto. }
  revert H0. generalize (proxy_mounted c) as sys.
  induction events as [|e events IH]; intros sys H; cbn [fold_left];
    [exact H|].
  apply IH. now apply proxy_quiet_step.
Qed.

Lemma voice_calls_acknowledged_witness :
  effects (fst (Direct.tool_calls [mic_2; mic_1] 1000
                                  [arm_call; missing_call] initial))
  = [ToolResponseSent (lit "call-2"); ToolResponseSent (lit "call-1")].
Proof.
  destruct (voice_calls_acknowledged [mic_2; mic_1] 1000
              [arm_call; missing_call] initial) as (_ & H & _).
  - repeat constructor; discriminate.
  - rewrite H. reflexivity.
Defined.

Lemma interruption_restarts_playback_witness :
  nextStartTimeRef (Direct.on_interrupted barge_in playing) = 0%float
  /\ effects (Direct.on_interrupted barge_in playing)
     = effects playing ++ [SourceStopped 4%nat].
Proof.
  destruct (interruption_restarts_playback [] 1000 2%float 0.25%float
              barge_in segment playing eq_refl eq_refl)
    as (_ & H1 & H2 & _).
  split; [exact H1 | exact H2].
Defined.

Lemma voice_session_round_trip_witness :
  let s := Direct.toggleMode Direct.Connected
                             (Direct.toggleMode Direct.Connected initial) in
  mode s = text
  /\ effects s = [StreamGranted 0%nat; ContextCreated 1%nat;
                  ContextCreated 2%nat; SessionClosed 3%nat;
                  ContextClosed 1%nat; ContextClosed 2%nat].
Proof.
  destruct (voice_session_round_trip Direct.Connected initial eq_refl)
    as (_ & (Hm & _) & He & _).
  split; [exact Hm | exact He].
Defined.

End VoiceControlFacts.

(* ================================================================== *)
(** * The page, the relay function and the system instruction *)
(* ================================================================== *)

Module PageFacts.

Import Json Application Cases TextFacts.

Local Unset Implicit Arguments.

(** X23. However the load of the catalog ends, the loading flag is down
    afterwards and the chat stays open or closed as it was. A body that is
    an array becomes the catalog, and so does the [products] array of a
    body that is an object; when the load rejects or the body is [null],
    the catalog stays as it was and one error is written to the console.
    The value is not checked: the catalog is no array afterwards only if
    it was none before or the body has a truthy [products] property that
    is no array. *)
Theorem load_settles_catalog (o : Load) (s : AppState) :
  let s' := load_settles o s in
  (isLoading s' = false /\ isChatOpen s' = isChatOpen s)
  /\ (forall items, o = Loaded (JArray items) -> products s' = JArray items)
  /\ (forall data items,
         o = Loaded data ->
         property data (lit "products") = Some (Some (JArray items)) ->
         products s' = JArray items /\ errors s' = errors s)
  /\ (o = LoadRejected \/ o = Loaded JNull ->
      products s' = products s /\ errors s' = S (errors s))
  /\ (isArray (products s') = false ->
      isArray (products s) = false
      \/ exists data v,
          o = Loaded data
          /\ property data (lit "products") = Some (Some v)
          /\ truthy v = true /\ isArray v = false /\ products s' = v).
Proof.
  cbv zeta. split; [|split; [|split; [|split]]].
  - unfold load_settles. destruct o as [|data]; [split; reflexivity|].
    destruct (productList data); split; reflexivity.
  - intros items ->. reflexivity.
  - intros data items -> H. unfold load_settles, productList. rewrite H.
    split; reflexivity.
  - intros [-> | ->]; split; reflexivity.
  - unfold load_settles. destruct o as [|data]; [now left|].
    unfold productList.
    destruct (property data (lit "products")) as [[v|]|] eqn:E;
      cbn [products setIsLoading setProducts console_error];
      [|destruct data; cbn; intros H; try discriminate H; now left
       |now left].
    destruct (truthy v) eqn:Hv.
    + intros H. right. exists data, v. auto.
    + destruct data; cbn; intros H; try discriminate H.
Qed.

Lemma load_settles_catalog_witness :
  products (load_settles (Loaded catalog_file) Application.initial)
  = JArray [JObject [(lit "id", JString (lit "lamp-1"))]]
  /\ products (load_settles (Loaded JNull) Application.initial) = JArray [].
Proof.
  destruct (load_settles_catalog (Loaded catalog_file) Application.initial)
    as (_ & _ & H & _).
  destruct (load_settles_catalog (Loaded JNull) Application.initial)
    as (_ & _ & _ & H' & _).
  split.
  - exact (proj1 (H catalog_file [JObject [(lit "id", JString (lit "lamp-1"))]]
                      eq_refl eq_refl)).
  - exact (proj1 (H' (or_intror eq_refl))).
Defined.

End PageFacts.

Module RelayFacts.

Import Json Relay Cases.

Local Unset Implicit Arguments.
Local Open Scope Z_scope.

(** X24. When the relay function calls the upstream, it does so once, and
    the request is a POST with a configured key whose body is JSON and not
    [null]. The call goes to the endpoint that the body names, whatever it
    is, with the method the body names ([POST] when it names none), and it
    carries the API key of the function. *)
Theorem relay_sends_key_to_named_endpoint (world : World)
        (event : HandlerEvent) (request : Request) :
  In (Fetch request) (snd (handler world event)) ->
  str_eqb (httpMethod event) (lit "POST") = true
  /\ GEMINI_API_KEY world = Some (api_key request)
  /\ api_key request <> []
  /\ (exists b,
         parsed_body event = Some b
         /\ property b (lit "endpoint") = Some (endpoint request)
         /\ (property b (lit "method") = Some (Some (method request))
             \/ property b (lit "method") = Some None
                /\ method request = JString (lit "POST")))
  /\ length (filter (fun c => match c with Fetch _ => true | _ => false end)
                    (snd (handler world event))) = 1%nat.
Proof.
  unfold handler.
  destruct (str_eqb (httpMethod event) (lit "POST")); cbn [negb snd];
    [|contradiction].
  destruct (GEMINI_API_KEY world) as [[|k0 k]|]; cbn [snd];
    try contradiction.
  destruct (parsed_body event) as [b|]; cbn [snd internal_error];
    [|intros [H | []]; discriminate H].
  destruct (request_of (k0 :: k) b) as [rq|] eqn:E; cbn [snd internal_error];
    [|intros [H | []]; discriminate H].
  assert (Hrq : api_key rq = k0 :: k
                /\ property b (lit "endpoint") = Some (endpoint rq)
                /\ (property b (lit "method") = Some (Some (method rq))
                    \/ property b (lit "method") = Some None
                       /\ method rq = JString (lit "POST"))).
  { unfold request_of in E.
    destruct (property b (lit "endpoint")) as [e|]; [|discriminate E].
    destruct (property b (lit "method")) as [[m|]|]; try discriminate E;
      destruct (property b (lit "data")); inversion E; subst; cbn; auto. }
  destruct Hrq as (Hk & He & Hm).
  assert (Hin : forall calls,
             (calls = [Fetch rq] \/ calls = [Fetch rq; LogError]) ->
             In (Fetch request) calls -> request = rq).
  { intros calls [-> | ->] [H | H]; try (now inversion H);
      destruct H as [H | []]; discriminate H. }
  destruct (upstream world rq) as [|status [result|]]; cbn [snd];
    intros H; apply Hin in H; auto; subst request; rewrite Hk;
    (split; [reflexivity|]); (split; [reflexivity|]);
    (split; [discriminate|]); (split; [|reflexivity]);
    exists b; auto.
Qed.

(** X25. The relay function passes the answer of the upstream through:
    when the upstream answers with a status and a JSON body, the function
    answers with that status, also when it is an error status, and that
    body. Every other response is one of three fixed error messages, with
    status 405 or 500: no detail of a failure reaches the client. *)
Theorem relay_passes_status_through (world : World) (event : HandlerEvent) :
  let r := fst (handler world event) in
  (exists request status result,
      upstream world request = Responded status (Some result)
      /\ r = respond status (ResultBody result)
      /\ snd (handler world event) = [Fetch request])
  \/ r = respond 405 (ErrorBody (lit "Method not allowed"))
  \/ r = respond 500 (ErrorBody (lit "API key not configured"))
  \/ r = respond 500 (ErrorBody (lit "Internal server error")).
Proof.
  cbv zeta. unfold handler.
  destruct (str_eqb (httpMethod event) (lit "POST")); cbn [negb fst];
    [|now right; left].
  destruct (GEMINI_API_KEY world) as [[|k0 k]|]; cbn [fst];
    try (now right; right; left).
  destruct (parsed_body event) as [b|]; cbn [fst internal_error];
    [|now right; right; right].
  destruct (request_of (k0 :: k) b) as [rq|]; cbn [fst internal_error];
    [|now right; right; right].
  destruct (upstream world rq) as [|status [result|]] eqn:E; cbn [fst snd];
    try (now right; right; right).
  left. now exists rq, status, result.
Qed.

Lemma relay_sends_key_to_named_endpoint_witness :
  exists request,
    snd (handler relay_world relay_event) = [Fetch request]
    /\ endpoint request = Some (JString (lit "https://example.test/v1/models"))
    /\ api_key request = lit "key".
Proof.
  eexists. split; [reflexivity|].
  destruct (relay_sends_key_to_named_endpoint
              relay_world relay_event
              {| endpoint := Some (JString (lit "https://example.test/v1/models"));
                 method := JString (lit "POST");
                 api_key := lit "key"; payload := None |})
    as (_ & Hk & _ & (b & Hb & He & _) & _); [now left|].
  split; reflexivity.
Defined.

End RelayFacts.

Module InstructionFacts.

Import Constants Samples Cases TextFacts.

Local Unset Implicit Arguments.

(** X26. The system instruction lists the catalog: for every product of
    the catalog it holds the line of that product, with its id, name,
    category, price, features and description; for the empty catalog the
    listing is empty and the instruction is the fixed text. *)
Theorem system_instruction_lists_catalog
        (number_toString : float -> jsstring) (ps : list Product) :
  Forall (fun p => includes (getSystemInstruction number_toString ps)
                            (catalog_line number_toString p) = true) ps
  /\ getSystemInstruction number_toString []
     = instruction_head ++ instruction_tail.
Proof.
  split; [|reflexivity].
  apply Forall_forall. intros p Hp. unfold getSystemInstruction.
  destruct (join_holds [10%Z] (map (catalog_line number_toString) ps)
                       (catalog_line number_toString p)) as (a & b & E);
    [now apply in_map|].
  rewrite E, <- !app_assoc, app_assoc. apply includes_app.
Qed.

End InstructionFacts.

(* ================================================================== *)
(** * Missing embeddings, and the greeting *)
(* ================================================================== *)

Module EdgeFacts.

Import Gemini Session Samples Cases FloatFacts CosineFacts SessionFacts.

Local Unset Implicit Arguments.
Local Open Scope float_scope.

(** ** [NaN] *)

Lemma add_nan_l (x : float) : nan + x = nan.
Proof.
  apply Prim2SF_inj. rewrite add_spec.
  change (Prim2SF nan) with S754_nan. reflexivity.
Qed.

Lemma add_nan_r (x : float) : x + nan = nan.
Proof.
  apply Prim2SF_inj. rewrite add_spec.
  change (Prim2SF nan) with S754_nan. now destruct (Prim2SF x).
Qed.

Lemma mul_nan_r (x : float) : x * nan = nan.
Proof.
  apply Prim2SF_inj. rewrite mul_spec.
  change (Prim2SF nan) with S754_nan. now destruct (Prim2SF x).
Qed.

Lemma div_nan_l (x : float) : nan / x = nan.
Proof.
  apply Prim2SF_inj. rewrite div_spec.
  change (Prim2SF nan) with S754_nan. reflexivity.
Qed.

Lemma dot_nan (b l : list float) :
  forall i,
    reduce_from (fun acc val i => acc + val * at_index b i) l i nan = nan.
Proof.
  induction l as [|x l IH]; intros i; cbn [reduce_from]; [reflexivity|].
  rewrite add_nan_l. apply IH.
Qed.

Lemma dot_past_end (b a : list float) :
  forall i acc,
    (i <= length b < i + length a)%nat ->
    reduce_from (fun acc val i => acc + val * at_index b i) a i acc = nan.
Proof.
  induction a as [|x a IH]; intros i acc H; cbn [length] in H; [lia|].
  cbn [reduce_from].
  destruct (Nat.eq_dec i (length b)) as [-> | Hne].
  - replace (at_index b (length b)) with nan
      by (unfold at_index; now rewrite nth_overflow).
    rewrite mul_nan_r, add_nan_r. apply dot_nan.
  - apply IH. lia.
Qed.

(** X27. When the second vector is shorter than the first and neither
    magnitude is zero, the similarity is [NaN]: the components read past
    the end of the second vector are [undefined]. *)
Theorem cosineSimilarity_shorter_second (a b : list float) :
  (length b < length a)%nat ->
  (mag a =? 0) = false -> (mag b =? 0) = false ->
  cosineSimilarity a b = nan.
Proof.
  intros Hlen Ha Hb. unfold cosineSimilarity.
  rewrite Ha, Hb. cbn [orb].
  unfold dotProduct, reduce. rewrite dot_past_end by lia.
  apply div_nan_l.
Qed.

Lemma cosineSimilarity_shorter_second_witness :
  cosineSimilarity [1; 1] [3] = nan.
Proof.
  apply (cosineSimilarity_shorter_second [1; 1] [3]);
    [cbn; lia | reflexivity | reflexivity].
Defined.

(** ** No product embeddings *)

Lemma mapi_from_missing (ps : list Product) :
  forall i,
    mapi_from (fun p i => {| product := p;
                             similarity := nth_error (@nil float) i |}) ps i
    = map (fun p => {| product := p; similarity := None |}) ps.
Proof.
  induction ps as [|p ps IH]; intros i; cbn [mapi_from map]; [reflexivity|].
  rewrite IH. now destruct i.
Qed.

Lemma Array_sort_unscored (l : list Scored) :
  Forall (fun a => similarity a = None) l -> Array_sort by_similarity l = l.
Proof.
  induction 1 as [|x l Hx Hl IH]; [reflexivity|].
  cbn [Array_sort fold_right]. fold (Array_sort by_similarity l). rewrite IH.
  destruct l as [|y l]; [reflexivity|]. cbn [sort_insert].
  inversion Hl as [|? ? Hy _]; subst.
  unfold by_similarity. now rewrite Hx, Hy.
Qed.

(** X28. When the reply of the embedding service holds no embedding of a
    product (it is empty or holds the embedding of the prompt only), no
    similarity is defined, the comparator of the sort gives [NaN] for
    every pair, and the ranking returns the first three products of the
    catalog in catalog order. *)
Theorem ranking_without_product_embeddings (ps : list Product)
        (embeddings : list (list float)) :
  (length embeddings <= 1)%nat ->
  relevantProducts ps embeddings
  = map (fun p => {| product := p; similarity := None |}) (firstn 3 ps).
Proof.
  intros H. unfold relevantProducts, productsWithSimilarity, mapi, slice0, topK.
  assert (E : skipn 1 embeddings = [])
    by (destruct embeddings as [|q [|e es]]; cbn in *; [reflexivity .. | lia]).
  rewrite E. cbn [map]. rewrite mapi_from_missing.
  rewrite Array_sort_unscored; [apply firstn_map|].
  apply Forall_forall. intros a Ha. apply in_map_iff in Ha.
  now destruct Ha as (p & <- & _).
Qed.

Lemma ranking_without_product_embeddings_witness :
  map (fun a => name (product a))
      (relevantProducts desk_catalog [[1; 0]])
  = map name [desk_lamp; desk_mat; dock].
Proof.
  rewrite (ranking_without_product_embeddings desk_catalog [[1; 0]]);
    [reflexivity | cbn; lia].
Defined.

(** ** The greeting *)

(** X29. The greeting is asked for when the component is mounted with a
    catalog that is not empty (in the version of [src/types.ts], when the
    chat session can be created), and the busy flag is up until the call
    settles. When the call fails, the fixed welcome takes its place as the
    first message, the flag goes down and no call is left in flight, in
    both versions. With an empty catalog nothing is asked for. *)
Theorem failed_greeting_falls_back (toLowerCase : jsstring -> jsstring)
        (p : Product) (ps : list Product) (now : Z) (r : Proxy.Fetched) :
  Proxy.call_failed r = true ->
  let welcome :=
    {| msg_id := now_toString now; role := assistant;
       content := greeting_fallback_text; timestamp := now;
       recommendation := None; reason := None |} in
  let d0 := direct_mounted (Some (p :: ps)) true in
  let d := direct_step toLowerCase (Settles _ now Direct.RejectedCall) d0 in
  let p0 := proxy_mounted (Some (p :: ps)) in
  let p1 := proxy_step (Settles _ now r) p0 in
  (isTyping (ui d0) = true /\ inflight d0 = [Greeting]
   /\ messages (ui d) = [welcome] /\ isTyping (ui d) = false
   /\ inflight d = [])
  /\ (isTyping (ui p0) = true /\ inflight p0 = [Greeting]
      /\ messages (ui p1) = [welcome] /\ isTyping (ui p1) = false
      /\ inflight p1 = [])
  /\ (forall created,
         ui (direct_mounted (Some []) created) = initial
         /\ inflight (direct_mounted (Some []) created) = [])
  /\ ui (proxy_mounted (Some [])) = initial
  /\ inflight (proxy_mounted (Some [])) = [].
Proof.
  intros Hr welcome d0 d p0 p1.
  split; [repeat split; reflexivity|].
  split; [|split; [intros [|]; split; reflexivity | split; reflexivity]].
  split; [reflexivity|]. split; [reflexivity|].
  subst p1 p0. unfold proxy_step, step, proxy_mounted, mounted.
  cbn [Proxy.products_effect messages initial products_of catalog inflight
       ui begun].
  unfold Proxy.initChat_settle.
  destruct r as [|[] [data|]]; try discriminate Hr; repeat split; reflexivity.
Qed.

Lemma failed_greeting_falls_back_witness :
  map content
      (messages
         (ui (proxy_step (Settles _ 1000 Proxy.FetchRejected)
                         (proxy_mounted (Some [mic_2; mic_1])))))
  = [greeting_fallback_text].
Proof.
  destruct (failed_greeting_falls_back toLowerCase_latin mic_2 [mic_1] 1000
              Proxy.FetchRejected eq_refl)
    as (_ & (_ & _ & H & _) & _).
  rewrite H. reflexivity.
Defined.

End EdgeFacts.
